(** * Publicodes rule compiler: the compilation pipeline and its properties

    A shallow embedding of [parsePublicodes] and of the passes it drives
    ([transpileRef], [disambiguateReference], [topologicalSort],
    [inferRulesUnit]) together with the [composantes] mechanism expander
    ([decompose]); each component is followed by its properties. The
    functions take raw rules by value; the part named [Store] writes the
    first steps of the compile over a store of cells, to follow what a call
    does to the objects of its caller. A closing part returns to each pass
    for its behaviour on the edges of its domain, and to the passes
    together.

    Conventions of the embedding.
    - A JavaScript string is a sequence of code units; the development
      covers the Latin-1 range, one [ascii] per code unit.
    - A JavaScript number is an IEEE-754 binary64 value ([float]).
    - A plain object is the list of its own enumerable entries in the order
      [Object.entries] reports them: array-index keys in ascending numeric
      order first, then the other keys in creation order.
    - A [Record<string, _>] used purely as a dictionary is a [gmap].
    - An exception is a value of [JSError]; a function that may throw
      returns a [Completion]. *)

From Stdlib Require Import PrimFloat Ascii String.
From stdpp Require Import gmap strings list sorting pretty.

Open Scope string_scope.
Open Scope list_scope.

#[local] Set Warnings "-register-all,-clear-no-such-hyp".

(** ** Strings *)

Module JSString.

Definition codeUnit (c : ascii) : nat := nat_of_ascii c.

(** [LineTerminator] of the regular-expression grammar: LF and CR. *)
Definition isLineTerminator (c : ascii) : bool :=
  Nat.eqb (codeUnit c) 10 || Nat.eqb (codeUnit c) 13.

(** [WhiteSpace] and [LineTerminator] as stripped by
    [String.prototype.trim]: TAB, LF, VT, FF, CR, SP, NBSP. *)
Definition isWhiteSpace (c : ascii) : bool :=
  let n := codeUnit c in
  (Nat.leb 9 n && Nat.leb n 13) || Nat.eqb n 32 || Nat.eqb n 160.

Fixpoint trimStart (s : string) : string :=
  match s with
  | EmptyString => EmptyString
  | String c rest => if isWhiteSpace c then trimStart rest else s
  end.

Fixpoint trimEnd (s : string) : string :=
  match s with
  | EmptyString => EmptyString
  | String c rest =>
      match trimEnd rest with
      | EmptyString => if isWhiteSpace c then EmptyString else String c EmptyString
      | kept => String c kept
      end
  end.

(** [s.trim()] *)
Definition trim (s : string) : string := trimEnd (trimStart s).

(** [stripPrefix p s = Some rest] when [s = p ++ rest]. *)
Fixpoint stripPrefix (p s : string) : option string :=
  match p, s with
  | EmptyString, _ => Some s
  | String a p', String b s' => if Ascii.eqb a b then stripPrefix p' s' else None
  | String _ _, EmptyString => None
  end.

(** [s.replace(pattern, '')] for a string [pattern]: the first occurrence
    of [pattern] is removed, the rest of [s] is kept. *)
Fixpoint removeFirst (pattern s : string) : string :=
  match stripPrefix pattern s with
  | Some rest => rest
  | None =>
      match s with
      | EmptyString => EmptyString
      | String c s' => String c (removeFirst pattern s')
      end
  end.

(** [stripLast c s = Some body] when [s = body ++ c]. *)
Fixpoint stripLast (c : ascii) (s : string) : option string :=
  match s with
  | EmptyString => None
  | String a EmptyString => if Ascii.eqb a c then Some EmptyString else None
  | String a rest => String a <$> stripLast c rest
  end.

Fixpoint forallb (p : ascii -> bool) (s : string) : bool :=
  match s with
  | EmptyString => true
  | String c rest => p c && forallb p rest
  end.

Definition isEmpty (s : string) : bool :=
  match s with EmptyString => true | _ => false end.

Definition isDigit (c : ascii) : bool :=
  Nat.leb 48 (codeUnit c) && Nat.leb (codeUnit c) 57.

Fixpoint digitsValue (acc : N) (s : string) : option N :=
  match s with
  | EmptyString => Some acc
  | String c rest =>
      if isDigit c
      then digitsValue (10 * acc + (N.of_nat (codeUnit c) - 48))%N rest
      else None
  end.

(** A property key is an array index when it is the canonical decimal
    rendering of an integer below [2^32 - 1]; such keys are enumerated
    first and in numeric order. *)
Definition arrayIndex (key : string) : option N :=
  match key with
  | EmptyString => None
  | String c rest =>
      if Ascii.eqb c "0"%char && negb (isEmpty rest) then None
      else
        match digitsValue 0 key with
        | Some n => if (n <? 4294967295)%N then Some n else None
        | None => None
        end
  end.

End JSString.

(** ** Raw rules: decoded, untyped nested data *)

Inductive Raw : Type :=
  | RUndefined
  | RNull
  | RBool (b : bool)
  | RNumber (n : float)
  | RString (s : string)
  | RArray (items : list Raw)
  | RObject (entries : list (string * Raw)).

Abbreviation Obj := (list (string * Raw)).

(** Structural induction through the lists nested in [RArray] and
    [RObject]. *)
Section RawInduction.
Variable P : Raw -> Prop.
Hypothesis Hundefined : P RUndefined.
Hypothesis Hnull : P RNull.
Hypothesis Hbool : forall b, P (RBool b).
Hypothesis Hnumber : forall n, P (RNumber n).
Hypothesis Hstring : forall s, P (RString s).
Hypothesis Harray : forall items, Forall P items -> P (RArray items).
Hypothesis Hobject :
  forall entries, Forall (fun kv => P kv.2) entries -> P (RObject entries).

Fixpoint Raw_nested_ind (r : Raw) : P r :=
  match r with
  | RUndefined => Hundefined
  | RNull => Hnull
  | RBool b => Hbool b
  | RNumber n => Hnumber n
  | RString s => Hstring s
  | RArray items =>
      Harray items
        ((fix go (l : list Raw) : Forall P l :=
            match l with
            | [] => List.Forall_nil P
            | x :: l' => List.Forall_cons P x l' (Raw_nested_ind x) (go l')
            end) items)
  | RObject entries =>
      Hobject entries
        ((fix go (l : Obj) : Forall (fun kv => P kv.2) l :=
            match l with
            | [] => List.Forall_nil _
            | kv :: l' =>
                List.Forall_cons (fun kv => P kv.2) kv l' (Raw_nested_ind kv.2) (go l')
            end) entries)
  end.
End RawInduction.

(** ** Plain objects as ordered entry lists *)

Module JSObject.

Section Entries.

Context {V : Type}.
Implicit Types obj more : list (string * V).

Fixpoint get obj (key : string) : option V :=
  match obj with
  | [] => None
  | (k, v) :: rest => if String.eqb k key then Some v else get rest key
  end.

Definition has obj (key : string) : bool :=
  match get obj key with Some _ => true | None => false end.

(** Overwriting an existing property keeps its place in the enumeration. *)
Fixpoint replace obj (key : string) (v : V) : list (string * V) :=
  match obj with
  | [] => []
  | (k, x) :: rest =>
      if String.eqb k key then (k, v) :: rest else (k, x) :: replace rest key v
  end.

(** A new array-index key goes after the smaller indices and before
    everything else. (The index of a key determines the key, so an equal
    index is not met when [key] is new.) *)
Fixpoint insertIndex (i : N) (key : string) (v : V) obj : list (string * V) :=
  match obj with
  | [] => [(key, v)]
  | (k, x) :: rest =>
      match JSString.arrayIndex k with
      | Some j =>
          if (j <=? i)%N then (k, x) :: insertIndex i key v rest
          else (key, v) :: obj
      | None => (key, v) :: obj
      end
  end.

(** [{ ...obj, [key]: v }] *)
Definition set obj (key : string) (v : V) : list (string * V) :=
  if has obj key then replace obj key v
  else
    match JSString.arrayIndex key with
    | Some i => insertIndex i key v obj
    | None => obj ++ [(key, v)]
    end.

(** [{ ...obj, ...more }] *)
Definition assign obj more : list (string * V) :=
  fold_left (fun acc kv => set acc kv.1 kv.2) more obj.

(** [const { [key]: _, ...rest } = obj] *)
Definition omit (key : string) obj : list (string * V) :=
  filter (fun kv => kv.1 <> key) obj.

End Entries.

End JSObject.

(** ** The desugarer: [transpileRef] *)

(** The result of [/\[ref( (.+))?\]$/.exec(key)]: the matched text and the
    second capture group. *)
Record RegExpMatch := { match0 : string; match2 : option string }.

(** The pattern tried at the first code unit of [s]. The anchor [$] forces
    the match to run to the end of [s], so either [s] is ["[ref]"] (the
    optional group does not take part) or [s] is ["[ref " ++ g ++ "]"] with
    [g] a non-empty run of non-terminator code units. *)
Definition matchRefAt (s : string) : option (option string) :=
  match JSString.stripPrefix "[ref" s with
  | None => None
  | Some rest =>
      if String.eqb rest "]" then Some None
      else
        match rest with
        | String " "%char tail =>
            match JSString.stripLast "]"%char tail with
            | Some g =>
                if negb (JSString.isEmpty g)
                   && JSString.forallb (fun c => negb (JSString.isLineTerminator c)) g
                then Some (Some g)
                else None
            | None => None
            end
        | _ => None
        end
  end.

(** [exec] scans for the leftmost position at which the pattern matches. *)
Fixpoint execRef (key : string) : option RegExpMatch :=
  match matchRefAt key with
  | Some g => Some {| match0 := key; match2 := g |}
  | None =>
      match key with
      | EmptyString => None
      | String _ rest => execRef rest
      end
  end.

(** [match[2]?.trim() || argumentType] *)
Definition argumentNameOf (m : RegExpMatch) (argumentType : string) : string :=
  match match2 m with
  | Some g => if JSString.isEmpty (JSString.trim g) then argumentType else JSString.trim g
  | None => argumentType
  end.

(** The body of the [reduce] callback, [value'] being [transpileRef(value)]. *)
Definition transpileEntry (obj : Obj) (key : string) (value' : Raw) : Obj :=
  match execRef key with
  | None => JSObject.set obj key value'
  | Some m =>
      let argumentType := JSString.trim (JSString.removeFirst (match0 m) key) in
      let argumentName := argumentNameOf m argumentType in
      JSObject.set obj argumentType
        (RObject [("nom", RString argumentName); ("valeur", value')])
  end.

Fixpoint transpileRef (object : Raw) : Raw :=
  match object with
  | RArray items => RArray (map transpileRef items)
  | RObject entries =>
      RObject
        ((fix reduce (entries : Obj) (obj : Obj) : Obj :=
            match entries with
            | [] => obj
            | (key, value) :: rest =>
                reduce rest (transpileEntry obj key (transpileRef value))
            end) entries [])
  | _ => object
  end.

(** The [reduce] of [transpileRef] as a function of its own. *)
Fixpoint transpileEntries (entries : Obj) (obj : Obj) : Obj :=
  match entries with
  | [] => obj
  | (key, value) :: rest =>
      transpileEntries rest (transpileEntry obj key (transpileRef value))
  end.

(** *** Well-formed raw data

    [keyBefore a b]: key [a] may be enumerated before key [b]. *)
Definition keyBefore (a b : string) : Prop :=
  match JSString.arrayIndex a, JSString.arrayIndex b with
  | Some i, Some j => (i <= j)%N
  | Some _, None => True
  | None, Some _ => False
  | None, None => True
  end.

#[global] Instance keyBefore_dec : RelDecision keyBefore.
Proof.
  intros a b. unfold keyBefore.
  destruct (JSString.arrayIndex a), (JSString.arrayIndex b); apply _.
Defined.

(** The keys of an object: pairwise distinct and in enumeration order. *)
Definition enumerable (ks : list string) : Prop :=
  NoDup ks /\ StronglySorted keyBefore ks.

(** Every object at every depth has distinct keys in enumeration order. *)
Fixpoint wellFormed (r : Raw) : bool :=
  match r with
  | RArray items => forallb wellFormed items
  | RObject entries =>
      bool_decide (enumerable entries.*1)
      && forallb (fun kv => wellFormed kv.2) entries
  | _ => true
  end.

(** No key at any depth is matched by the shorthand pattern. *)
Fixpoint shorthandFree (r : Raw) : bool :=
  match r with
  | RArray items => forallb shorthandFree items
  | RObject entries =>
      forallb (fun kv => negb (bool_decide (is_Some (execRef kv.1)))
                         && shorthandFree kv.2) entries
  | _ => true
  end.

(** The input [{ "a[ref][ref]": 1 }]. *)
Definition doubleShorthand : Raw := RObject [("a[ref][ref]", RNumber 1)].

(** A rule set using both forms of the shorthand, nested in a sequence. *)
Definition shorthandSample : Raw :=
  RObject
    [("salaire", RObject [("formule", RString "brut - cotisations")]);
     ("cotisations",
      RObject
        [("assiette [ref]", RString "brut");
         ("taux[ref taux salarial ]", RNumber 0.5);
         ("variations",
          RArray [RObject [("si", RString "cadre"); ("alors[ref]", RNumber 2)];
                  RObject [("sinon", RNull)]])]);
     ("12", RString "douze")].

(** ** Properties of the desugarer *)

Section ObjectFacts.

Context {V : Type}.
Implicit Types obj more : list (string * V).

Lemma transpileRef_object entries :
  transpileRef (RObject entries) = RObject (transpileEntries entries []).
Proof. reflexivity. Qed.

#[global] Instance keyBefore_trans : Transitive keyBefore.
Proof.
  intros a b c. unfold keyBefore.
  destruct (JSString.arrayIndex a), (JSString.arrayIndex b),
    (JSString.arrayIndex c); try tauto; lia.
Qed.

Lemma has_false obj key : JSObject.has obj key = false <-> key ∉ obj.*1.
Proof.
  unfold JSObject.has. induction obj as [|[k x] obj IH]; csimpl.
  - split; [intros _; apply not_elem_of_nil | done].
  - rewrite not_elem_of_cons. destruct (String.eqb_spec k key) as [->|Hne].
    + split; [done | intros [? _]; done].
    + rewrite IH. split; [intros ?; split; congruence | tauto].
Qed.

Lemma replace_keys obj key v : (JSObject.replace obj key v).*1 = obj.*1.
Proof.
  induction obj as [|[k x] obj IH]; csimpl; [done|].
  destruct (String.eqb k key); csimpl; by rewrite ?IH.
Qed.

Lemma replace_values (P : V -> Prop) obj key v :
  P v -> Forall P obj.*2 -> Forall P (JSObject.replace obj key v).*2.
Proof.
  intros Hv. induction obj as [|[k x] obj IH]; csimpl; [done|].
  rewrite Forall_cons. intros [Hx Hobj].
  destruct (String.eqb k key); csimpl; rewrite Forall_cons; auto.
Qed.

Lemma insertIndex_keys i key v obj :
  (JSObject.insertIndex i key v obj).*1 ≡ₚ key :: obj.*1.
Proof.
  induction obj as [|[k x] obj IH]; csimpl; [done|].
  destruct (JSString.arrayIndex k) as [j|]; [|done].
  destruct (j <=? i)%N; csimpl; [|done].
  rewrite IH. apply Permutation_swap.
Qed.

Lemma insertIndex_values (P : V -> Prop) i key v obj :
  P v -> Forall P obj.*2 -> Forall P (JSObject.insertIndex i key v obj).*2.
Proof.
  intros Hv. induction obj as [|[k x] obj IH]; csimpl.
  - by repeat constructor.
  - rewrite Forall_cons. intros [Hx Hobj].
    destruct (JSString.arrayIndex k) as [j|];
      [destruct (j <=? i)%N|]; csimpl; rewrite !Forall_cons; auto.
Qed.

Lemma insertIndex_sorted i key v obj :
  JSString.arrayIndex key = Some i ->
  StronglySorted keyBefore obj.*1 ->
  StronglySorted keyBefore (JSObject.insertIndex i key v obj).*1.
Proof.
  intros Hi. induction obj as [|[k x] obj IH]; csimpl.
  - intros _. by repeat constructor.
  - rewrite StronglySorted_cons. intros [Hk Hs].
    assert (Hfront : keyBefore key k ->
              StronglySorted keyBefore (key :: k :: obj.*1)).
    { intros Hkk. rewrite !StronglySorted_cons, Forall_cons.
      repeat split; try done.
      eapply Forall_impl; [exact Hk|]. intros b Hb. by etrans. }
    destruct (JSString.arrayIndex k) as [j|] eqn:Hj.
    + destruct (N.leb_spec j i) as [Hle|Hgt]; csimpl.
      * rewrite StronglySorted_cons. split; [|by apply IH].
        rewrite insertIndex_keys, Forall_cons. split; [|done].
        unfold keyBefore. rewrite Hj, Hi. done.
      * apply Hfront. unfold keyBefore. rewrite Hj, Hi. lia.
    + apply Hfront. unfold keyBefore. by rewrite Hj, Hi.
Qed.

Lemma set_enumerable obj key v :
  enumerable obj.*1 -> enumerable (JSObject.set obj key v).*1.
Proof.
  intros [Hnd Hs]. unfold JSObject.set.
  destruct (JSObject.has obj key) eqn:Hhas.
  - by rewrite replace_keys.
  - apply has_false in Hhas.
    destruct (JSString.arrayIndex key) as [i|] eqn:Hi.
    + split; [|by apply insertIndex_sorted].
      rewrite insertIndex_keys. by constructor.
    + rewrite fmap_app. csimpl. split.
      * apply NoDup_app. repeat split; try done.
        -- intros x Hx ->%list_elem_of_singleton. done.
        -- apply NoDup_singleton.
      * apply StronglySorted_app. repeat split; try done.
        -- intros a Ha b ->%list_elem_of_singleton.
           unfold keyBefore. rewrite Hi. by destruct (JSString.arrayIndex a).
        -- by repeat constructor.
Qed.

Lemma set_values (P : V -> Prop) obj key v :
  P v -> Forall P obj.*2 -> Forall P (JSObject.set obj key v).*2.
Proof.
  intros Hv Hobj. unfold JSObject.set.
  destruct (JSObject.has obj key).
  - by apply replace_values.
  - destruct (JSString.arrayIndex key).
    + by apply insertIndex_values.
    + rewrite fmap_app. apply Forall_app. split; [done|]. by repeat constructor.
Qed.

Lemma insertIndex_last i key v obj :
  JSString.arrayIndex key = Some i ->
  Forall (fun k => keyBefore k key) obj.*1 ->
  JSObject.insertIndex i key v obj = obj ++ [(key, v)].
Proof.
  intros Hi. induction obj as [|[k x] obj IH]; csimpl; [done|].
  rewrite Forall_cons. intros [Hk Hobj]. unfold keyBefore in Hk.
  rewrite Hi in Hk. destruct (JSString.arrayIndex k) as [j|]; [|done].
  destruct (N.leb_spec j i); [|lia]. by rewrite IH.
Qed.

(** Setting a new key that may come last appends the entry. *)
Lemma set_last obj key v :
  enumerable (obj ++ [(key, v)]).*1 ->
  JSObject.set obj key v = obj ++ [(key, v)].
Proof.
  rewrite fmap_app. csimpl. intros [Hnd Hs]. unfold JSObject.set.
  apply NoDup_app in Hnd as (_ & Hfresh & _).
  assert (JSObject.has obj key = false) as ->.
  { apply has_false. intros Hin. apply (Hfresh _ Hin). by left. }
  destruct (JSString.arrayIndex key) as [i|] eqn:Hi; [|done].
  apply insertIndex_last; [done|].
  apply Forall_forall. intros k Hk.
  eapply StronglySorted_app_1_elem_of; [exact Hs|done|by left].
Qed.

End ObjectFacts.

Section Desugarer.

(** The object built for a shorthand key is itself well formed. *)
Lemma named_parameter_wellFormed name value :
  wellFormed value = true ->
  wellFormed (RObject [("nom", RString name); ("valeur", value)]) = true.
Proof.
  intros Hv. cbn [wellFormed]. apply andb_true_intro. split.
  - by apply bool_decide_eq_true, (bool_decide_unpack _).
  - cbn. by rewrite Hv.
Qed.

Lemma transpileEntry_wellFormed obj key value :
  wellFormed value = true ->
  enumerable obj.*1 -> Forall (fun v => wellFormed v = true) obj.*2 ->
  enumerable (transpileEntry obj key value).*1
  /\ Forall (fun v => wellFormed v = true) (transpileEntry obj key value).*2.
Proof.
  intros Hv He Hvs. unfold transpileEntry.
  destruct (execRef key) as [m|].
  - split; [by apply set_enumerable|].
    apply set_values; [|done]. by apply named_parameter_wellFormed.
  - split; [by apply set_enumerable | by apply set_values].
Qed.

Lemma transpileEntries_wellFormed entries : forall obj,
  Forall (fun kv => wellFormed (transpileRef kv.2) = true) entries ->
  enumerable obj.*1 -> Forall (fun v => wellFormed v = true) obj.*2 ->
  enumerable (transpileEntries entries obj).*1
  /\ Forall (fun v => wellFormed v = true) (transpileEntries entries obj).*2.
Proof.
  induction entries as [|[k v] entries IH]; intros obj Hall He Hvs; [done|].
  apply Forall_cons in Hall as [Hv Hall]. cbn [transpileEntries].
  destruct (transpileEntry_wellFormed obj k _ Hv He Hvs) as [He' Hvs'].
  by apply IH.
Qed.

(** Whatever the input, the desugarer returns well-formed data. *)
Lemma transpileRef_wellFormed x : wellFormed (transpileRef x) = true.
Proof.
  induction x as [| | | | |items IH|entries IH] using Raw_nested_ind;
    try reflexivity.
  - cbn [transpileRef wellFormed]. apply forallb_forall.
    intros y Hy%in_map_iff. destruct Hy as (x & <- & Hx).
    rewrite Forall_forall in IH. apply IH. by apply list_elem_of_In.
  - rewrite transpileRef_object. cbn [wellFormed].
    destruct (transpileEntries_wellFormed entries []) as [He Hvs].
    + exact IH.
    + split; constructor.
    + constructor.
    + apply andb_true_intro. split; [by apply bool_decide_eq_true|].
      apply forallb_forall. intros [k v] Hkv. rewrite Forall_forall in Hvs.
      apply Hvs. apply list_elem_of_In in Hkv. cbn.
      apply list_elem_of_fmap. by exists (k, v).
Qed.

Lemma transpileEntries_fixed entries : forall obj,
  enumerable (obj ++ entries).*1 ->
  Forall (fun kv => execRef kv.1 = None /\ transpileRef kv.2 = kv.2) entries ->
  transpileEntries entries obj = obj ++ entries.
Proof.
  induction entries as [|[k v] entries IH]; intros obj He Hall.
  - by rewrite app_nil_r.
  - apply Forall_cons in Hall as [[Hk Hv] Hall]. cbn in Hk, Hv.
    cbn [transpileEntries]. unfold transpileEntry. rewrite Hk, Hv.
    replace (obj ++ (k, v) :: entries) with ((obj ++ [(k, v)]) ++ entries) in *
      by by rewrite <- app_assoc.
    rewrite set_last.
    + by apply IH.
    + destruct He as [Hnd Hs]. rewrite fmap_app in Hnd, Hs.
      split; [by apply NoDup_app in Hnd as (? & _ & _)|].
      by apply StronglySorted_app_1_l in Hs.
Qed.

(** On well-formed data without shorthand keys the desugarer changes
    nothing. *)
Lemma transpileRef_fixed y :
  wellFormed y = true -> shorthandFree y = true -> transpileRef y = y.
Proof.
  induction y as [| | | | |items IH|entries IH] using Raw_nested_ind;
    try reflexivity; cbn [wellFormed shorthandFree]; intros Hwf Hfree.
  - cbn [transpileRef]. f_equal.
    rewrite forallb_forall in Hwf, Hfree. rewrite Forall_forall in IH.
    rewrite <- (map_id items) at 2. apply map_ext_in. intros x Hx.
    apply IH; [by apply list_elem_of_In | by apply Hwf | by apply Hfree].
  - rewrite transpileRef_object. f_equal.
    apply andb_prop in Hwf as [He Hwf]. apply bool_decide_eq_true in He.
    rewrite forallb_forall in Hwf, Hfree. rewrite Forall_forall in IH.
    apply (transpileEntries_fixed entries []); [done|].
    apply Forall_forall. intros kv Hkv.
    pose proof (Hfree kv (proj1 (list_elem_of_In _ _) Hkv)) as Hf.
    apply andb_prop in Hf as [Hk Hf]. split.
    + apply negb_true_iff, bool_decide_eq_false in Hk.
      destruct (execRef kv.1); [|done]. exfalso. apply Hk. by eexists.
    + apply IH; [done| |done]. apply Hwf. by apply list_elem_of_In.
Qed.

(** C2, as stated, fails: [{ "a[ref][ref]": 1 }] is desugared to an object
    that still has the shorthand key ["a[ref]"], which a second run
    rewrites again. *)
Lemma transpileRef_not_idempotent :
  transpileRef doubleShorthand
    = RObject [("a[ref]", RObject [("nom", RString "a[ref]"); ("valeur", RNumber 1)])]
  /\ transpileRef (transpileRef doubleShorthand)
    = RObject [("a", RObject [("nom", RString "a");
         ("valeur", RObject [("nom", RString "a[ref]"); ("valeur", RNumber 1)])])]
  /\ transpileRef (transpileRef doubleShorthand) <> transpileRef doubleShorthand.
Proof.
  split; [reflexivity|]. split; [reflexivity|]. vm_compute. discriminate.
Qed.

(** C2 (amended): whenever the output of the desugarer has no shorthand
    key left, running the desugarer on that output is a no-op, for every
    raw input (object, sequence or scalar). *)
Theorem transpileRef_idempotent x :
  shorthandFree (transpileRef x) = true ->
  transpileRef (transpileRef x) = transpileRef x.
Proof.
  intros Hfree. apply transpileRef_fixed; [apply transpileRef_wellFormed | done].
Qed.

Lemma transpileRef_idempotent_witness :
  shorthandFree (transpileRef shorthandSample) = true
  /\ transpileRef (transpileRef shorthandSample) = transpileRef shorthandSample.
Proof.
  split; [reflexivity|].
  apply (transpileRef_idempotent shorthandSample). reflexivity.
Defined.

End Desugarer.

(** ** Exceptions *)

(** What a call may throw. The text of a [TypeError] is engine specific and
    is not modelled; [RangeError] is the exhaustion of the call stack;
    [CollaboratorError] is whatever else a collaborator raises. *)
Inductive JSError : Type :=
  | SyntaxError (message : string)
  | TypeError
  | RangeError
  | CollaboratorError (message : string).

Inductive Completion (A : Type) : Type :=
  | Return (a : A)
  | Throw (e : JSError).
Arguments Return {A} a.
Arguments Throw {A} e.

#[global] Instance Completion_ret : MRet Completion := @Return.
#[global] Instance Completion_bind : MBind Completion :=
  fun A B f m => match m with Return a => f a | Throw e => Throw e end.
#[global] Instance Completion_fmap : FMap Completion :=
  fun A B f m => match m with Return a => Return (f a) | Throw e => Throw e end.

Definition returns {A} (m : Completion A) : Prop := exists a, m = Return a.

(** ** The mechanism expander: [decompose] *)

(** The own enumerable entries of a value, as object rest and spread see
    them; [None] for [null] and [undefined], which cannot be destructured. *)
Definition ownEntries (r : Raw) : option Obj :=
  match r with
  | RUndefined | RNull => None
  | RBool _ | RNumber _ => Some []
  | RString s =>
      Some (imap (fun i c => (pretty i, RString (String c EmptyString)))
              (list_ascii_of_string s))
  | RArray items => Some (imap (fun i x => (pretty i, x)) items)
  | RObject entries => Some entries
  end.

(** [...r] inside an object literal: [null] and [undefined] add nothing. *)
Definition spread (r : Raw) : Obj := default [] (ownEntries r).

(** [r[key]] for a key that no prototype defines. *)
Definition property (entries : Obj) (key : string) : Raw :=
  default RUndefined (JSObject.get entries key).

Definition sourcemapInfo : Raw := RObject [("mecanismName", RString "composantes")].

(** [{ ...explanation, sourcemapInfo: { mecanismName: 'composantes' } }] *)
Definition withSourcemapInfo (explanation : Obj) : Obj :=
  JSObject.set (JSObject.assign [] explanation) "sourcemapInfo" sourcemapInfo.

(** The callback given to [composantes.map]. *)
Definition summand (k : string) (factoredKeys : Obj) (composante : Raw)
  : Completion Raw :=
  match ownEntries composante with
  | None => Throw TypeError
  | Some entries =>
      let attributs := property entries "attributs" in
      let otherKeys := JSObject.omit "attributs" entries in
      Return
        (RObject
           (JSObject.set (JSObject.assign [] (spread attributs)) "valeur"
              (RObject
                 [(k, RObject (JSObject.assign (JSObject.assign [] factoredKeys)
                                  otherKeys))])))
  end.

Section Composantes.

(** The compile context is threaded through [parse], which may register
    rules in it; an AST node is a plain object. *)
Context {Context : Type}.
Variable parse : Raw -> Context -> Context * Completion Obj.

Definition decompose (k : string) (v : Raw) (context : Context)
  : Context * Completion Obj :=
  match ownEntries v with
  | None => (context, Throw TypeError)
  | Some entries =>
      let composantes := property entries "composantes" in
      let factoredKeys := JSObject.omit "composantes" entries in
      match composantes with
      | RArray items =>
          match mapM (summand k factoredKeys) items with
          | Throw e => (context, Throw e)
          | Return summands =>
              let '(context', explanation) :=
                parse (RObject [("somme", RArray summands)]) context in
              (context', withSourcemapInfo <$> explanation)
          end
      | _ => (context, Throw TypeError)
      end
  end.

End Composantes.



(** ** Properties of the mechanism expander *)

Section ObjectLookup.

Context {V : Type}.
Implicit Types obj more : list (string * V).

Lemma get_None obj key : JSObject.get obj key = None <-> key ∉ obj.*1.
Proof.
  rewrite <- has_false. unfold JSObject.has.
  destruct (JSObject.get obj key); split; congruence.
Qed.

Lemma get_app obj more key :
  JSObject.get (obj ++ more) key
  = match JSObject.get obj key with
    | Some x => Some x
    | None => JSObject.get more key
    end.
Proof.
  induction obj as [|[k x] obj IH]; csimpl; [done|].
  by destruct (String.eqb k key).
Qed.

Lemma get_replace obj key v key' :
  JSObject.has obj key = true ->
  JSObject.get (JSObject.replace obj key v) key'
  = if String.eqb key key' then Some v else JSObject.get obj key'.
Proof.
  unfold JSObject.has. induction obj as [|[k x] obj IH]; csimpl; [done|].
  destruct (String.eqb_spec k key) as [->|Hne]; csimpl.
  - intros _. by destruct (String.eqb_spec key key').
  - intros Hhas. rewrite (IH Hhas).
    destruct (String.eqb_spec k key') as [->|?]; [|done].
    by destruct (String.eqb_spec key key').
Qed.

Lemma get_insertIndex i obj key v key' :
  JSObject.has obj key = false ->
  JSObject.get (JSObject.insertIndex i key v obj) key'
  = if String.eqb key key' then Some v else JSObject.get obj key'.
Proof.
  unfold JSObject.has. induction obj as [|[k x] obj IH]; csimpl; [done|].
  destruct (String.eqb_spec k key) as [->|Hne]; [done|]. intros Hhas.
  destruct (JSString.arrayIndex k) as [j|]; [destruct (j <=? i)%N|]; csimpl;
    try done.
  rewrite (IH Hhas). destruct (String.eqb_spec k key') as [->|?]; [|done].
  by destruct (String.eqb_spec key key').
Qed.

(** Reading a property after [{ ...obj, [key]: v }]. *)
Lemma get_set obj key v key' :
  JSObject.get (JSObject.set obj key v) key'
  = if String.eqb key key' then Some v else JSObject.get obj key'.
Proof.
  unfold JSObject.set. destruct (JSObject.has obj key) eqn:Hhas.
  - by apply get_replace.
  - destruct (JSString.arrayIndex key); [by apply get_insertIndex|].
    rewrite get_app. csimpl. unfold JSObject.has in Hhas.
    destruct (String.eqb_spec key key') as [<-|?].
    + by destruct (JSObject.get obj key).
    + by destruct (JSObject.get obj key').
Qed.

(** Reading a property after [{ ...obj, ...more }]: [more] wins. *)
Lemma get_assign more : forall obj key,
  NoDup more.*1 ->
  JSObject.get (JSObject.assign obj more) key
  = match JSObject.get more key with
    | Some x => Some x
    | None => JSObject.get obj key
    end.
Proof.
  unfold JSObject.assign.
  induction more as [|[k x] more IH]; intros obj key Hnd; csimpl; [done|].
  rewrite fmap_cons in Hnd. apply NoDup_cons in Hnd as [Hk Hnd].
  rewrite (IH _ key Hnd), get_set.
  destruct (String.eqb_spec k key) as [<-|?]; [|done].
  cbn in Hk. apply get_None in Hk. by rewrite Hk.
Qed.

Lemma get_omit name obj key :
  JSObject.get (JSObject.omit name obj) key
  = if String.eqb name key then None else JSObject.get obj key.
Proof.
  unfold JSObject.omit. induction obj as [|[k x] obj IH]; csimpl.
  - by destruct (String.eqb name key).
  - rewrite filter_cons. csimpl. destruct (decide (k <> name)) as [Hne|Heq]; csimpl.
    + rewrite IH. destruct (String.eqb_spec name key) as [Heq|?]; [|done].
      subst key. by destruct (String.eqb_spec k name).
    + apply dec_stable in Heq. subst k. rewrite IH.
      by destruct (String.eqb_spec name key).
Qed.





End ObjectLookup.

Section ComposantesFacts.

Context {Context : Type}.
Variable parse : Raw -> Context -> Context * Completion Obj.





End ComposantesFacts.


(** ** The dependency orderer: [topologicalSort] *)

Abbreviation DependencyGraph := (gmap string (list string)).

(** The two variables the helper closes over. *)
Record SortState := {
  result : list string;
  temp : gmap string bool;
}.

(** [dependencyGraph[ruleName] ?? []] *)
Definition dependenciesOf (dependencyGraph : DependencyGraph) (ruleName : string)
  : list string :=
  default [] (dependencyGraph !! ruleName).

(** [temp[name]] read as a condition: true only for an entry set to [true]. *)
Definition inProgress (temp : gmap string bool) (name : string) : bool :=
  match temp !! name with
  | Some true => true
  | _ => false
  end.

(** The [for] loop over [nodeDependencies], [visit] being the recursive
    call. *)
Definition visitDependencies (visit : string -> SortState -> option SortState)
  : list string -> SortState -> option SortState :=
  fix loop (nodeDependencies : list string) (st : SortState) :=
    match nodeDependencies with
    | [] => Some st
    | dependency :: rest =>
        if inProgress (temp st) dependency then loop rest st
        else if bool_decide (dependency ∈ result st) then loop rest st
        else
          match visit dependency st with
          | Some st' => loop rest st'
          | None => None
          end
    end.

(** The recursion of the source is bounded here by [fuel], the number of
    nested calls still allowed; [None] means the bound was hit. *)
Fixpoint topologicalSortHelper (fuel : nat) (dependencyGraph : DependencyGraph)
    (ruleName : string) (st : SortState) : option SortState :=
  match fuel with
  | O => None
  | S fuel' =>
      let st1 := {| result := result st; temp := <[ruleName := true]> (temp st) |} in
      let nodeDependencies := dependenciesOf dependencyGraph ruleName in
      match visitDependencies (topologicalSortHelper fuel' dependencyGraph)
              nodeDependencies st1 with
      | None => None
      | Some st2 =>
          Some {| result := result st2 ++ [ruleName];
                  temp := <[ruleName := false]> (temp st2) |}
      end
  end.

(** The [for] loop over [rulesNames]. *)
Fixpoint sortRules (fuel : nat) (dependencyGraph : DependencyGraph)
    (rulesNames : list string) (st : SortState) : option SortState :=
  match rulesNames with
  | [] => Some st
  | ruleName :: rest =>
      if bool_decide (ruleName ∈ result st) then sortRules fuel dependencyGraph rest st
      else
        match topologicalSortHelper fuel dependencyGraph ruleName st with
        | Some st' => sortRules fuel dependencyGraph rest st'
        | None => None
        end
  end.

(** Every name the sort can meet: the rule names and the names listed as
    dependencies. *)
Definition universe (rulesNames : list string) (dependencyGraph : DependencyGraph)
  : gset string :=
  list_to_set rulesNames ∪ ⋃ (list_to_set <$> (map_to_list dependencyGraph).*2).

(** The calls nest no deeper than the number of names, plus one. *)
Definition sortFuel (rulesNames : list string) (dependencyGraph : DependencyGraph) : nat :=
  S (size (universe rulesNames dependencyGraph)).

Definition topologicalSort (rulesNames : list string) (dependencyGraph : DependencyGraph)
  : option (list string) :=
  result <$> sortRules (sortFuel rulesNames dependencyGraph) dependencyGraph rulesNames
               {| result := []; temp := ∅ |}.

(** [dependsOn g a b]: [a] lists [b] among its dependencies. *)
Definition dependsOn (dependencyGraph : DependencyGraph) (a b : string) : Prop :=
  b ∈ dependenciesOf dependencyGraph a.

(** The names marked in progress. *)
Definition marked (temp : gmap string bool) : gset string :=
  dom (filter (fun kv => kv.2 = true) temp).

(** In [order], every dependency of a name comes earlier, unless the
    dependency itself depends, directly or not, on that name. *)
Definition dependenciesFirst (dependencyGraph : DependencyGraph) (order : list string)
  : Prop :=
  forall j name dependency,
    order !! j = Some name ->
    dependsOn dependencyGraph name dependency ->
    (exists i, i < j /\ order !! i = Some dependency)
    \/ rtc (dependsOn dependencyGraph) dependency name.

(** A → B → C. *)
Definition chainGraph : DependencyGraph := <["A" := ["B"]]> (<["B" := ["C"]]> ∅).
(** A → B → A. *)
Definition cycleGraph : DependencyGraph := <["A" := ["B"]]> (<["B" := ["A"]]> ∅).


(** ** Properties of the dependency orderer *)

Section Marks.

Lemma elem_of_marked (t : gmap string bool) n : n ∈ marked t <-> t !! n = Some true.
Proof.
  unfold marked. rewrite elem_of_dom. split.
  - intros [b Hb]. apply map_lookup_filter_Some in Hb as [Hb Ht]. cbn in Ht.
    by subst b.
  - intros Hn. exists true. by apply map_lookup_filter_Some.
Qed.

Lemma inProgress_marked (t : gmap string bool) n :
  inProgress t n = true <-> n ∈ marked t.
Proof.
  rewrite elem_of_marked. unfold inProgress.
  destruct (t !! n) as [[]|]; split; congruence.
Qed.

Lemma marked_empty : marked ∅ = ∅.
Proof.
  apply set_eq. intros n. rewrite elem_of_marked, lookup_empty. set_solver.
Qed.

Lemma marked_insert_true (t : gmap string bool) n :
  marked (<[n := true]> t) = {[n]} ∪ marked t.
Proof.
  apply set_eq. intros x.
  rewrite elem_of_union, elem_of_singleton, !elem_of_marked.
  destruct (decide (n = x)) as [->|Hne].
  - rewrite lookup_insert_eq. split; [by left | done].
  - rewrite lookup_insert_ne by done. split; [by right | by intros [?|?]].
Qed.

Lemma marked_insert_false (t : gmap string bool) n :
  marked (<[n := false]> t) = marked t ∖ {[n]}.
Proof.
  apply set_eq. intros x.
  rewrite elem_of_difference, elem_of_singleton, !elem_of_marked.
  destruct (decide (n = x)) as [->|Hne].
  - rewrite lookup_insert_eq. split; [done | by intros [_ ?]].
  - rewrite lookup_insert_ne by done. split; [by split | by intros [? _]].
Qed.

End Marks.

Section DepthFirst.

Variable dependencyGraph : DependencyGraph.
Variable names : gset string.
Hypothesis names_closed :
  forall a b, dependsOn dependencyGraph a b -> b ∈ names.

(** What holds of the state between any two steps of the sort. *)
Record Sound (st : SortState) : Prop := {
  sound_marked : marked (temp st) ⊆ names;
  sound_nodup : NoDup (result st);
  sound_apart : forall x, x ∈ marked (temp st) -> x ∉ result st;
  sound_order : dependenciesFirst dependencyGraph (result st);
  sound_closed : forall n d,
    n ∈ result st -> dependsOn dependencyGraph n d ->
    d ∈ result st \/ d ∈ marked (temp st);
}.

(** [visit] behaves like a completed call of the helper whenever [bound]
    further nested calls are enough. *)
Definition Visits (visit : string -> SortState -> option SortState) (bound : nat)
  : Prop :=
  forall ruleName st,
    Sound st ->
    size names < bound + size (marked (temp st)) ->
    ruleName ∈ names ->
    ruleName ∉ marked (temp st) ->
    ruleName ∉ result st ->
    (forall x, x ∈ marked (temp st) -> rtc (dependsOn dependencyGraph) x ruleName) ->
    exists st',
      visit ruleName st = Some st'
      /\ marked (temp st') = marked (temp st)
      /\ (exists added, result st' = result st ++ added)
      /\ ruleName ∈ result st'
      /\ Sound st'.

Lemma visitDependencies_sound visit bound :
  Visits visit bound ->
  forall nodeDependencies st,
    Sound st ->
    size names < bound + size (marked (temp st)) ->
    (forall d, d ∈ nodeDependencies -> d ∈ names) ->
    (forall x d, x ∈ marked (temp st) -> d ∈ nodeDependencies ->
                 rtc (dependsOn dependencyGraph) x d) ->
    exists st',
      visitDependencies visit nodeDependencies st = Some st'
      /\ marked (temp st') = marked (temp st)
      /\ (exists added, result st' = result st ++ added)
      /\ Sound st'
      /\ (forall d, d ∈ nodeDependencies ->
            d ∈ result st' \/ d ∈ marked (temp st)).
Proof.
  intros Hvisit.
  induction nodeDependencies as [|d rest IH]; intros st Hst Hsize Hin Hreach.
  - exists st. split_and!; try done.
    + exists []. by rewrite app_nil_r.
    + intros d Hd. by apply elem_of_nil in Hd.
  - cbn [visitDependencies].
    assert (Hrest : forall st1,
      Sound st1 -> marked (temp st1) = marked (temp st) ->
      (exists added, result st1 = result st ++ added) ->
      (d ∈ result st1 \/ d ∈ marked (temp st)) ->
      exists st',
        visitDependencies visit rest st1 = Some st'
        /\ marked (temp st') = marked (temp st)
        /\ (exists added, result st' = result st ++ added)
        /\ Sound st'
        /\ (forall d', d' ∈ d :: rest ->
              d' ∈ result st' \/ d' ∈ marked (temp st))).
    { intros st1 Hst1 Hm1 [added1 Hadd1] Hd.
      destruct (IH st1) as (st' & Hrun & Hm' & [added' Hadd'] & Hst' & Hall).
      - done.
      - by rewrite Hm1.
      - intros d' Hd'. apply Hin. by right.
      - intros x d' Hx Hd'. rewrite Hm1 in Hx. apply Hreach; [done | by right].
      - exists st'. split_and!; try done.
        + congruence.
        + exists (added1 ++ added'). by rewrite Hadd', Hadd1, app_assoc.
        + intros d' [->|Hd']%elem_of_cons.
          * destruct Hd as [Hd|Hd]; [left | by right].
            rewrite Hadd'. apply elem_of_app. by left.
          * destruct (Hall d' Hd') as [?|Hmark]; [by left | right].
            by rewrite <- Hm1. }
    destruct (inProgress (temp st) d) eqn:Hprog.
    { apply inProgress_marked in Hprog.
      apply (Hrest st); try done; [exists []; by rewrite app_nil_r | by right]. }
    case_bool_decide as Hdone.
    { apply (Hrest st); try done; [exists []; by rewrite app_nil_r | by left]. }
    assert (d ∉ marked (temp st)) as Hnot.
    { intros Hd. apply inProgress_marked in Hd. congruence. }
    destruct (Hvisit d st) as (st1 & Hrun & Hm1 & Hadd1 & Hd1 & Hst1); try done.
    { apply Hin. by left. }
    { intros x Hx. apply Hreach; [done | by left]. }
    rewrite Hrun. apply (Hrest st1); try done. by left.
Qed.

Lemma dependenciesFirst_snoc order ruleName :
  dependenciesFirst dependencyGraph order ->
  (forall d, dependsOn dependencyGraph ruleName d ->
             d ∈ order \/ rtc (dependsOn dependencyGraph) d ruleName) ->
  dependenciesFirst dependencyGraph (order ++ [ruleName]).
Proof.
  intros Hord Hnew j name d Hj Hdep.
  apply lookup_snoc_Some in Hj as [[Hlt Hj]|[-> <-]].
  - destruct (Hord j name d Hj Hdep) as [(i & Hi & Hd)|Hback]; [left | by right].
    exists i. split; [done|]. by apply lookup_app_l_Some.
  - destruct (Hnew d Hdep) as [Hd|Hback]; [left | by right].
    apply list_elem_of_lookup in Hd as [i Hi]. exists i. split.
    + by eapply lookup_lt_Some.
    + by apply lookup_app_l_Some.
Qed.

(** A call of the helper completes as soon as the fuel exceeds the number
    of names not yet in progress. *)
Lemma topologicalSortHelper_sound fuel :
  Visits (topologicalSortHelper fuel dependencyGraph) fuel.
Proof.
  induction fuel as [|fuel IH];
    intros ruleName st Hst Hsize Hname Hnot Hfresh Hreach.
  - pose proof (subseteq_size _ _ (sound_marked st Hst)). cbn in Hsize. lia.
  - cbn [topologicalSortHelper].
    remember {| result := result st; temp := <[ruleName := true]> (temp st) |}
      as st1 eqn:Hmark.
    assert (Hr1 : result st1 = result st) by by subst st1.
    assert (Hm1 : marked (temp st1) = {[ruleName]} ∪ marked (temp st))
      by (subst st1; apply marked_insert_true).
    clear Hmark.
    assert (Hst1 : Sound st1).
    { destruct Hst as [Hsub Hnd Hapart Hord Hclosed].
      split; rewrite ?Hr1, ?Hm1; try done.
      - apply union_subseteq. split; [by apply singleton_subseteq_l | done].
      - intros x [->%elem_of_singleton|Hx]%elem_of_union; [done | by apply Hapart].
      - intros n d Hn Hd. destruct (Hclosed n d Hn Hd) as [?|?]; [by left | right].
        apply elem_of_union. by right. }
    destruct (visitDependencies_sound _ fuel IH
                (dependenciesOf dependencyGraph ruleName) st1)
      as (st2 & Hrun & Hm2 & [added Hadd] & Hst2 & Hdeps).
    + done.
    + rewrite Hm1, size_union, size_singleton; [lia|].
      by apply disjoint_singleton_l.
    + intros d Hd. by eapply names_closed.
    + intros x d. rewrite Hm1.
      intros [->%elem_of_singleton|Hx]%elem_of_union Hd.
      * by apply rtc_once.
      * eapply rtc_r; [by apply Hreach | done].
    + rewrite Hrun. eexists. split; [reflexivity|]. cbn [result temp].
      destruct Hst2 as [Hsub2 Hnd2 Hapart2 Hord2 Hclosed2].
      rewrite marked_insert_false, Hm2, Hm1.
      rewrite Hm2, Hm1 in Hapart2, Hclosed2. rewrite Hm1 in Hdeps.
      assert (Hplaced : forall d,
        d ∈ result st2 \/ d ∈ ({[ruleName]} ∪ marked (temp st) : gset string) ->
        d ∈ result st2 ++ [ruleName] \/ d ∈ marked (temp st)).
      { intros d [Hd|[->%elem_of_singleton|Hd]%elem_of_union]; [left | left | by right];
          apply elem_of_app; [by left | right; by left]. }
      assert (Hself : ruleName ∈ ({[ruleName]} ∪ marked (temp st) : gset string))
        by (apply elem_of_union; left; by apply elem_of_singleton).
      assert (Hback : ({[ruleName]} ∪ marked (temp st)) ∖ {[ruleName]}
                      = marked (temp st)).
      { apply set_eq. intros x.
        rewrite elem_of_difference, elem_of_union, !elem_of_singleton.
        split; [by intros [[->|?] ?] | intros Hx; split; [by right | congruence]]. }
      rewrite Hback. split_and!.
      * done.
      * exists (added ++ [ruleName]). by rewrite Hadd, Hr1, app_assoc.
      * apply elem_of_app. right. by left.
      * split; cbn [result temp]; rewrite ?marked_insert_false, ?Hm2, ?Hm1, ?Hback.
        -- by destruct Hst.
        -- apply NoDup_app. split_and!; try done.
           ++ intros x Hx ->%list_elem_of_singleton. by apply (Hapart2 ruleName).
           ++ apply NoDup_singleton.
        -- intros x Hx. apply not_elem_of_app. split.
           ++ apply Hapart2. apply elem_of_union. by right.
           ++ intros ->%list_elem_of_singleton. done.
        -- apply dependenciesFirst_snoc; [done|].
           intros d Hd. destruct (Hdeps d Hd) as [?|Hmark]; [by left | right].
           apply elem_of_union in Hmark as [->%elem_of_singleton|Hmark];
             [done | by apply Hreach].
        -- intros n d [Hn| ->%list_elem_of_singleton]%elem_of_app Hd; apply Hplaced.
           ++ by apply (Hclosed2 n d).
           ++ by apply Hdeps.
Qed.

Lemma sortRules_sound fuel :
  size names < fuel ->
  forall rulesNames st,
    Sound st -> marked (temp st) = ∅ ->
    (forall n, n ∈ rulesNames -> n ∈ names) ->
    exists st',
      sortRules fuel dependencyGraph rulesNames st = Some st'
      /\ marked (temp st') = ∅
      /\ (exists added, result st' = result st ++ added)
      /\ Sound st'
      /\ (forall n, n ∈ rulesNames -> n ∈ result st').
Proof.
  intros Hfuel.
  induction rulesNames as [|ruleName rest IH]; intros st Hst Hempty Hin.
  - exists st. split_and!; try done.
    + exists []. by rewrite app_nil_r.
    + intros n Hn. by apply elem_of_nil in Hn.
  - cbn [sortRules].
    assert (Hrest : forall st1,
      Sound st1 -> marked (temp st1) = ∅ ->
      (exists added, result st1 = result st ++ added) ->
      ruleName ∈ result st1 ->
      exists st',
        sortRules fuel dependencyGraph rest st1 = Some st'
        /\ marked (temp st') = ∅
        /\ (exists added, result st' = result st ++ added)
        /\ Sound st'
        /\ (forall n, n ∈ ruleName :: rest -> n ∈ result st')).
    { intros st1 Hst1 Hm1 [added1 Hadd1] Hn.
      destruct (IH st1) as (st' & Hrun & Hm' & [added' Hadd'] & Hst' & Hall);
        try done.
      { intros n Hn'. apply Hin. by right. }
      exists st'. split_and!; try done.
      - exists (added1 ++ added'). by rewrite Hadd', Hadd1, app_assoc.
      - intros n [->|Hn']%elem_of_cons; [|by apply Hall].
        rewrite Hadd'. apply elem_of_app. by left. }
    case_bool_decide as Hdone.
    { apply (Hrest st); try done. exists []. by rewrite app_nil_r. }
    destruct (topologicalSortHelper_sound fuel ruleName st)
      as (st1 & Hrun & Hm1 & Hadd1 & Hn1 & Hst1); try done.
    { rewrite Hempty, size_empty. lia. }
    { apply Hin. by left. }
    { rewrite Hempty. apply not_elem_of_empty. }
    { intros x. rewrite Hempty. by intros ?%not_elem_of_empty. }
    rewrite Hrun. apply (Hrest st1); try done. congruence.
Qed.

End DepthFirst.

Section Orderer.

Lemma universe_rule rulesNames dependencyGraph n :
  n ∈ rulesNames -> n ∈ universe rulesNames dependencyGraph.
Proof.
  intros Hn. unfold universe. apply elem_of_union. left.
  by apply elem_of_list_to_set.
Qed.

Lemma universe_closed rulesNames dependencyGraph a b :
  dependsOn dependencyGraph a b -> b ∈ universe rulesNames dependencyGraph.
Proof.
  unfold dependsOn, dependenciesOf. intros Hb.
  destruct (dependencyGraph !! a) as [deps|] eqn:Ha; cbn in Hb;
    [|by apply elem_of_nil in Hb].
  unfold universe. apply elem_of_union. right. apply elem_of_union_list.
  exists (list_to_set deps). split; [|by apply elem_of_list_to_set].
  apply list_elem_of_fmap. exists deps. split; [done|].
  apply list_elem_of_fmap. exists (a, deps). split; [done|].
  by apply elem_of_map_to_list.
Qed.

Lemma topologicalSortHelper_unfold dependencyGraph fuel ruleName st :
  topologicalSortHelper (S fuel) dependencyGraph ruleName st
  = match visitDependencies (topologicalSortHelper fuel dependencyGraph)
            (dependenciesOf dependencyGraph ruleName)
            {| result := result st; temp := <[ruleName := true]> (temp st) |} with
    | None => None
    | Some st2 =>
        Some {| result := result st2 ++ [ruleName];
                temp := <[ruleName := false]> (temp st2) |}
    end.
Proof. reflexivity. Qed.

(** More fuel never changes what a completed call returns. *)
Lemma topologicalSortHelper_fuel dependencyGraph fuel : forall ruleName st st',
  topologicalSortHelper fuel dependencyGraph ruleName st = Some st' ->
  topologicalSortHelper (S fuel) dependencyGraph ruleName st = Some st'.
Proof.
  induction fuel as [|fuel IH]; intros ruleName st st'; [done|].
  intros Hrun. rewrite topologicalSortHelper_unfold in Hrun |- *.
  remember {| result := result st; temp := <[ruleName := true]> (temp st) |} as st1.
  clear Heqst1.
  assert (Hloop : forall deps s s',
    visitDependencies (topologicalSortHelper fuel dependencyGraph) deps s = Some s' ->
    visitDependencies (topologicalSortHelper (S fuel) dependencyGraph) deps s = Some s').
  { induction deps as [|d deps IHd]; intros s s'; [done|].
    cbn [visitDependencies]. destruct (inProgress (temp s) d); [by apply IHd|].
    case_bool_decide; [by apply IHd|].
    destruct (topologicalSortHelper fuel dependencyGraph d s) as [s1|] eqn:Hd; [|done].
    rewrite (IH _ _ _ Hd). by apply IHd. }
  destruct (visitDependencies (topologicalSortHelper fuel dependencyGraph)
              (dependenciesOf dependencyGraph ruleName) st1) as [st2|] eqn:Hvisit;
    [|done].
  by rewrite (Hloop _ _ _ Hvisit).
Qed.

Lemma sortRules_fuel dependencyGraph fuel : forall rulesNames st st',
  sortRules fuel dependencyGraph rulesNames st = Some st' ->
  sortRules (S fuel) dependencyGraph rulesNames st = Some st'.
Proof.
  induction rulesNames as [|ruleName rest IH]; intros st st'; [done|].
  cbn [sortRules]. case_bool_decide; [by apply IH|].
  destruct (topologicalSortHelper fuel dependencyGraph ruleName st) as [st1|] eqn:Hrun;
    [|done].
  rewrite (topologicalSortHelper_fuel _ _ _ _ _ Hrun). by apply IH.
Qed.


End Orderer.

(** ** The resolved AST *)

(** Mechanisms whose sub-expressions nullability inference never reads. *)
Inductive MechanismKind : Type :=
  | Somme | Produit | Bareme | Duree | Grille | TauxProgressif | Maximum | Minimum
  | ApplicableSi | NonApplicableSi
  | Inversion | Operation | ParDefaut | Recalcul | ReplacementRule
  | ToutesCesConditions | UneDeCesConditions | UnePossibilite
  | ResoudreReferenceCirculaire | Synchronisation.

(** Mechanisms forwarding the unit of their [explanation.valeur]. *)
Inductive ValeurKind : Type :=
  | Arrondi | NomDansLaSituation | Plafond | Plancher.

(** The fields of a [reference] node; the last three are set by
    resolution. *)
Record ReferenceNode := {
  name : string;
  contextDottedName : string;
  thisReferenceIsNotARealDependencyHack : option bool;
  dottedName : option string;
  title : option string;
  acronym : option string;
}.

(** A [rule] node: its dotted name, its title, [rawNode.acronyme]. *)
Record RuleHeader := {
  ruleDottedName : string;
  ruleTitle : string;
  acronyme : option string;
}.

(** A node carries the children that the passes below read, by the name
    the source gives them; [abattement] and [argument] stand for the other
    operand of the mechanism. *)
Inductive ASTNode : Type :=
  | Mechanism (kind : MechanismKind) (explanation : list ASTNode)
  | Constant (nodeValue : Raw)
  | Abattement (assiette : ASTNode) (abattement : ASTNode)
  | Valeur (kind : ValeurKind) (valeur : ASTNode) (argument : ASTNode)
  | Unite (explanation : ASTNode)
  | Variations (explanation : list (ASTNode * ASTNode))
  | Rule (header : RuleHeader) (valeur : ASTNode)
  | Reference (reference : ReferenceNode).

(** The [nodeKind] tag, as the source file spells it (in UTF-8). *)
Definition nodeKind (node : ASTNode) : string :=
  match node with
  | Mechanism Somme _ => "somme"
  | Mechanism Produit _ => "produit"
  | Mechanism Bareme _ => "barème"
  | Mechanism Duree _ => "durée"
  | Mechanism Grille _ => "grille"
  | Mechanism TauxProgressif _ => "taux progressif"
  | Mechanism Maximum _ => "maximum"
  | Mechanism Minimum _ => "minimum"
  | Mechanism ApplicableSi _ => "applicable si"
  | Mechanism NonApplicableSi _ => "non applicable si"
  | Mechanism Inversion _ => "inversion"
  | Mechanism Operation _ => "operation"
  | Mechanism ParDefaut _ => "par défaut"
  | Mechanism Recalcul _ => "recalcul"
  | Mechanism ReplacementRule _ => "replacementRule"
  | Mechanism ToutesCesConditions _ => "toutes ces conditions"
  | Mechanism UneDeCesConditions _ => "une de ces conditions"
  | Mechanism UnePossibilite _ => "une possibilité"
  | Mechanism ResoudreReferenceCirculaire _ => "résoudre référence circulaire"
  | Mechanism Synchronisation _ => "synchronisation"
  | Constant _ => "constant"
  | Abattement _ _ => "abattement"
  | Valeur Arrondi _ _ => "arrondi"
  | Valeur NomDansLaSituation _ _ => "nom dans la situation"
  | Valeur Plafond _ _ => "plafond"
  | Valeur Plancher _ _ => "plancher"
  | Unite _ => "unité"
  | Variations _ => "variations"
  | Rule _ _ => "rule"
  | Reference _ => "reference"
  end.

(** The compiled rules, in the order of [Object.keys]. *)
Abbreviation ParsedRules := (list (string * ASTNode)).

(** [parsedRules[ruleName]] *)
Fixpoint ruleOf (parsedRules : ParsedRules) (ruleName : string) : option ASTNode :=
  match parsedRules with
  | [] => None
  | (k, node) :: rest => if String.eqb k ruleName then Some node else ruleOf rest ruleName
  end.

(** All the nodes of a tree, the root first. *)
Fixpoint subnodes (node : ASTNode) : list ASTNode :=
  node ::
  match node with
  | Mechanism _ explanation => concat (map subnodes explanation)
  | Constant _ => []
  | Abattement assiette abattement => subnodes assiette ++ subnodes abattement
  | Valeur _ valeur argument => subnodes valeur ++ subnodes argument
  | Unite explanation => subnodes explanation
  | Variations explanation =>
      concat (map (fun line => subnodes line.1 ++ subnodes line.2) explanation)
  | Rule _ valeur => subnodes valeur
  | Reference _ => []
  end.

(** ** Nullability inference: [inferRulesUnit] *)

Record InferedUnit := { isNullable : bool }.

(** The table [res]: an entry may hold [undefined] ([None]). *)
Abbreviation Facts := (gmap string (option InferedUnit)).

(** A property key made from a possibly undefined name. *)
Definition propertyKey (name : option string) : string := default "undefined" name.

Definition mechanismUnit (kind : MechanismKind) : InferedUnit :=
  match kind with
  | ApplicableSi | NonApplicableSi => {| isNullable := true |}
  | _ => {| isNullable := false |}
  end.

(** [nodeValue === null] *)
Definition isNull (v : Raw) : bool := match v with RNull => true | _ => false end.

(** The result is [undefined] ([Return None]) where the source returns a
    missing table entry; reading [isNullable] off [undefined] throws. *)
Fixpoint inferNodeUnit (node : ASTNode) (res : Facts)
  : Facts * Completion (option InferedUnit) :=
  match node with
  | Mechanism kind _ => (res, Return (Some (mechanismUnit kind)))
  | Constant nodeValue => (res, Return (Some {| isNullable := isNull nodeValue |}))
  | Abattement assiette _ => inferNodeUnit assiette res
  | Valeur _ valeur _ => inferNodeUnit valeur res
  | Unite explanation => inferNodeUnit explanation res
  | Variations explanation =>
      (fix some (lines : list (ASTNode * ASTNode)) (res : Facts) :=
         match lines with
         | [] => (res, Return (Some {| isNullable := false |}))
         | line :: rest =>
             match inferNodeUnit line.2 res with
             | (res', Return (Some unit)) =>
                 if isNullable unit
                 then (res', Return (Some {| isNullable := true |}))
                 else some rest res'
             | (res', Return None) => (res', Throw TypeError)
             | (res', Throw e) => (res', Throw e)
             end
         end) explanation res
  | Rule header valeur =>
      match inferNodeUnit valeur res with
      | (res', Return unit) => (<[ruleDottedName header := unit]> res', Return unit)
      | (res', Throw e) => (res', Throw e)
      end
  | Reference reference =>
      (res, Return (default None (res !! propertyKey (dottedName reference))))
  end.

(** The [forEach] over the topological order. *)
Fixpoint inferRules (parsedRules : ParsedRules) (topologicalOrder : list string)
    (res : Facts) : Completion Facts :=
  match topologicalOrder with
  | [] => Return res
  | ruleName :: rest =>
      match ruleOf parsedRules ruleName with
      | None => Throw TypeError
      | Some node =>
          match inferNodeUnit node res with
          | (res', Return _) => inferRules parsedRules rest res'
          | (_, Throw e) => Throw e
          end
      end
  end.

Definition inferRulesUnit (parsedRules : ParsedRules) (topologicalOrder : list string)
  : Completion Facts :=
  inferRules parsedRules topologicalOrder ∅.

(** Every [rule] node of the forest is the one registered under its name. *)
Definition RulesRegistered (parsedRules : ParsedRules) : Prop :=
  forall ruleName node header valeur,
    ruleOf parsedRules ruleName = Some node ->
    Rule header valeur ∈ subnodes node ->
    ruleOf parsedRules (ruleDottedName header) = Some (Rule header valeur).

(** The applicability gates. *)
Definition isGate (kind : MechanismKind) : bool :=
  match kind with
  | ApplicableSi | NonApplicableSi => true
  | _ => false
  end.

(** The aggregation and arithmetic mechanisms. *)
Definition isAggregation (kind : MechanismKind) : bool :=
  match kind with
  | Somme | Produit | Bareme | Duree | Grille | TauxProgressif | Maximum | Minimum => true
  | _ => false
  end.

Definition resolved (target : string) : ASTNode :=
  Reference {| name := target; contextDottedName := "a";
               thisReferenceIsNotARealDependencyHack := None;
               dottedName := Some target; title := Some target; acronym := None |}.

Definition header (name : string) : RuleHeader :=
  {| ruleDottedName := name; ruleTitle := name; acronyme := None |}.

(** [a: { variations: [{ si: oui, alors: a }] }], a rule whose only branch
    refers to the rule itself. *)
Definition selfReferringVariations : ParsedRules :=
  [("a", Rule (header "a")
           (Variations [(Constant (RBool true), resolved "a")]))].

(** A gate, a sum, and a rule forwarding a reference to the gate. *)
Definition gateAndSum : ParsedRules :=
  [("gate", Rule (header "gate") (Mechanism ApplicableSi [Constant (RBool true)]));
   ("sum", Rule (header "sum") (Mechanism Somme [Constant (RNumber 1)]));
   ("user", Rule (header "user") (Unite (resolved "gate")))].


(** ** Properties of nullability inference *)

(** Structural induction through the lists nested in [Mechanism] and
    [Variations]. *)
Section ASTInduction.
Variable P : ASTNode -> Prop.
Hypothesis Hmechanism :
  forall kind explanation, Forall P explanation -> P (Mechanism kind explanation).
Hypothesis Hconstant : forall v, P (Constant v).
Hypothesis Habattement : forall a b, P a -> P b -> P (Abattement a b).
Hypothesis Hvaleur : forall kind v a, P v -> P a -> P (Valeur kind v a).
Hypothesis Hunite : forall e, P e -> P (Unite e).
Hypothesis Hvariations :
  forall lines, Forall (fun line => P line.1 /\ P line.2) lines -> P (Variations lines).
Hypothesis Hrule : forall h v, P v -> P (Rule h v).
Hypothesis Hreference : forall r, P (Reference r).

Fixpoint ASTNode_nested_ind (node : ASTNode) : P node :=
  match node with
  | Mechanism kind explanation =>
      Hmechanism kind explanation
        ((fix go (l : list ASTNode) : Forall P l :=
            match l with
            | [] => List.Forall_nil P
            | x :: l' => List.Forall_cons P x l' (ASTNode_nested_ind x) (go l')
            end) explanation)
  | Constant v => Hconstant v
  | Abattement a b => Habattement a b (ASTNode_nested_ind a) (ASTNode_nested_ind b)
  | Valeur kind v a => Hvaleur kind v a (ASTNode_nested_ind v) (ASTNode_nested_ind a)
  | Unite e => Hunite e (ASTNode_nested_ind e)
  | Variations lines =>
      Hvariations lines
        ((fix go (l : list (ASTNode * ASTNode))
            : Forall (fun line => P line.1 /\ P line.2) l :=
            match l with
            | [] => List.Forall_nil _
            | line :: l' =>
                List.Forall_cons (fun line => P line.1 /\ P line.2) line l'
                  (conj (ASTNode_nested_ind line.1) (ASTNode_nested_ind line.2))
                  (go l')
            end) lines)
  | Rule h v => Hrule h v (ASTNode_nested_ind v)
  | Reference r => Hreference r
  end.
End ASTInduction.

Section Nullability.

(** The [some] loop of the [variations] case. *)
Fixpoint someNullable (lines : list (ASTNode * ASTNode)) (res : Facts)
  : Facts * Completion (option InferedUnit) :=
  match lines with
  | [] => (res, Return (Some {| isNullable := false |}))
  | line :: rest =>
      match inferNodeUnit line.2 res with
      | (res', Return (Some unit)) =>
          if isNullable unit
          then (res', Return (Some {| isNullable := true |}))
          else someNullable rest res'
      | (res', Return None) => (res', Throw TypeError)
      | (res', Throw e) => (res', Throw e)
      end
  end.


(** A [rule] node whose root is a mechanism of the first three groups is
    recorded with the unit of that mechanism. *)
Lemma inferNodeUnit_rule_mechanism h kind explanation res :
  inferNodeUnit (Rule h (Mechanism kind explanation)) res
  = (<[ruleDottedName h := Some (mechanismUnit kind)]> res,
     Return (Some (mechanismUnit kind))).
Proof. reflexivity. Qed.

(** Once the fact of [ruleName] is [unit], it stays so across the
    inference of any tree in which every [rule] node of that name has a
    mechanism of unit [unit] as its root. *)
Lemma inferNodeUnit_keeps ruleName unit node :
  (forall h v, Rule h v ∈ subnodes node -> ruleDottedName h = ruleName ->
     exists kind explanation,
       v = Mechanism kind explanation /\ mechanismUnit kind = unit) ->
  forall res,
    res !! ruleName = Some (Some unit) ->
    (inferNodeUnit node res).1 !! ruleName = Some (Some unit).
Proof.
  induction node as [kind explanation _|v|a b IHa _|kind v a IHv _|e IHe
                    |lines IH|h v IHv|r] using ASTNode_nested_ind;
    intros Hrules res Hres; cbn [inferNodeUnit]; try done.
  - apply IHa; [|done]. intros h v Hin. apply Hrules. cbn [subnodes].
    right. apply elem_of_app. by left.
  - apply IHv; [|done]. intros h v' Hin. apply Hrules. cbn [subnodes].
    right. apply elem_of_app. by left.
  - apply IHe; [|done]. intros h v Hin. apply Hrules. cbn [subnodes]. by right.
  - change ((someNullable lines res).1 !! ruleName = Some (Some unit)).
    revert res Hres.
    induction lines as [|line lines IHlines]; intros res Hres; [done|].
    apply Forall_cons in IH as [[_ IHline] IH]. cbn [someNullable].
    assert (Hline : (inferNodeUnit line.2 res).1 !! ruleName = Some (Some unit)).
    { apply IHline; [|done]. intros h v Hin. apply Hrules. cbn [subnodes map concat].
      right. apply elem_of_app. left. apply elem_of_app. by right. }
    destruct (inferNodeUnit line.2 res) as [res' [[u|]|e]]; cbn [fst] in *; try done.
    destruct (isNullable u); [done|].
    apply IHlines; [done| |done].
    intros h v Hin. apply Hrules. cbn [subnodes map concat] in *.
    apply elem_of_cons in Hin as [Hin|Hin]; [done|].
    right. apply elem_of_app. by right.
  - assert (Hv : (inferNodeUnit v res).1 !! ruleName = Some (Some unit)).
    { apply IHv; [|done]. intros h' v' Hin. apply Hrules. cbn [subnodes]. by right. }
    destruct (decide (ruleDottedName h = ruleName)) as [Hname|Hname].
    + destruct (Hrules h v) as (kind & explanation & -> & <-); [by left | done |].
      cbn [inferNodeUnit fst]. rewrite Hname. by rewrite lookup_insert_eq.
    + destruct (inferNodeUnit v res) as [res' [u|e]]; cbn [fst] in *; [|done].
      by rewrite lookup_insert_ne.
Qed.

Lemma inferRules_records parsedRules ruleName h kind explanation :
  RulesRegistered parsedRules ->
  ruleOf parsedRules ruleName = Some (Rule h (Mechanism kind explanation)) ->
  ruleDottedName h = ruleName ->
  forall topologicalOrder res facts,
    inferRules parsedRules topologicalOrder res = Return facts ->
    res !! ruleName = Some (Some (mechanismUnit kind)) \/ ruleName ∈ topologicalOrder ->
    facts !! ruleName = Some (Some (mechanismUnit kind)).
Proof.
  intros Hreg Hrule Hname.
  induction topologicalOrder as [|r rest IH]; intros res facts Hrun Hcase.
  - injection Hrun as Hfacts. subst facts. destruct Hcase as [?|Hin]; [done|].
    by apply elem_of_nil in Hin.
  - cbn [inferRules] in Hrun.
    destruct (ruleOf parsedRules r) as [node|] eqn:Hnode; [|done].
    assert (Hsame : forall h' v, Rule h' v ∈ subnodes node ->
              ruleDottedName h' = ruleName ->
              exists kind' explanation',
                v = Mechanism kind' explanation'
                /\ mechanismUnit kind' = mechanismUnit kind).
    { intros h' v Hin Hh'. pose proof (Hreg r node h' v Hnode Hin) as Hfound.
      rewrite Hh', Hrule in Hfound. injection Hfound as Hh Hv.
      subst v. by eexists _, _. }
    assert (Hstep : res !! ruleName = Some (Some (mechanismUnit kind)) \/ r = ruleName ->
              (inferNodeUnit node res).1 !! ruleName
              = Some (Some (mechanismUnit kind))).
    { intros [Hres|Hr].
      - by apply inferNodeUnit_keeps.
      - subst r. rewrite Hrule in Hnode. injection Hnode as Hnode. subst node.
        rewrite inferNodeUnit_rule_mechanism. cbn [fst].
        by rewrite Hname, lookup_insert_eq. }
    destruct (inferNodeUnit node res) as [res' [u|e]]; [|done].
    cbn [fst] in Hstep. apply (IH res' facts Hrun).
    destruct Hcase as [Hres|[Hr|Hin]%elem_of_cons]; [left| left |by right].
    + apply Hstep. by left.
    + apply Hstep. by right.
Qed.

(** The nodes that inference visits from a root: it does not enter the
    operands of a [Mechanism], the conditions of [variations], nor the
    second operand of the forwarding mechanisms. *)
Fixpoint visited (node : ASTNode) : list ASTNode :=
  node ::
  match node with
  | Abattement assiette _ => visited assiette
  | Valeur _ valeur _ => visited valeur
  | Unite explanation => visited explanation
  | Variations explanation => concat (map (fun line => visited line.2) explanation)
  | Rule _ valeur => visited valeur
  | _ => []
  end.

(** Without a [variations] node on its way, the inference of a node never
    throws: the only failure of [inferNodeUnit] is the one of C3. *)
Lemma inferNodeUnit_returns node :
  (forall lines, Variations lines ∉ visited node) ->
  forall res, returns (inferNodeUnit node res).2.
Proof.
  induction node as [kind explanation _|v|a b IHa _|kind v a IHv _|e IHe
                    |lines IH|h v IHv|r] using ASTNode_nested_ind;
    intros Hfree res; cbn [inferNodeUnit]; try by eexists.
  - apply IHa. intros lines Hin. apply (Hfree lines). cbn [visited]. by right.
  - apply IHv. intros lines Hin. apply (Hfree lines). cbn [visited]. by right.
  - apply IHe. intros lines Hin. apply (Hfree lines). cbn [visited]. by right.
  - exfalso. apply (Hfree lines). by left.
  - destruct (IHv (fun lines Hin => Hfree lines (list_elem_of_further _ _ _ Hin)) res)
      as [u Hu].
    destruct (inferNodeUnit v res) as [res' c]. cbn [snd] in Hu. subst c. by eexists.
Qed.

(** C3 fails on the code. A reference whose target has no fact yet does
    yield [undefined] without an error; but when that reference is the
    consequence of a [variations] line, [isNullable] is read off
    [undefined] and the pass throws a [TypeError]. The rule
    [a: variations [si oui alors a]] is ordered as [a] and makes
    [inferRulesUnit] throw. *)
Theorem inferRulesUnit_throws_on_cyclic_variations :
  (forall r res,
      res !! propertyKey (dottedName r) = None ->
      inferNodeUnit (Reference r) res = (res, Return None))
  /\ topologicalSort ["a"] {["a" := ["a"]]} = Some ["a"]
  /\ inferRulesUnit selfReferringVariations ["a"] = Throw TypeError.
Proof.
  split; [|split; vm_compute; reflexivity].
  intros r res Hres. cbn [inferNodeUnit]. by rewrite Hres.
Qed.

(** C4: when inference completes on a rule set whose [rule] nodes are the
    registered ones, the fact table holds [isNullable = true] for every
    ordered rule whose root is an applicability gate, and
    [isNullable = false] for every ordered rule whose root is a sum,
    product, rate scale, duration, grid, progressive rate, maximum or
    minimum; the entry is written as soon as the rule is visited, whatever
    the table held. *)
Theorem inferRulesUnit_records_gates_and_aggregations
    (parsedRules : ParsedRules) (topologicalOrder : list string) (facts : Facts)
    (ruleName : string) (h : RuleHeader) (kind : MechanismKind)
    (explanation : list ASTNode) :
  RulesRegistered parsedRules ->
  inferRulesUnit parsedRules topologicalOrder = Return facts ->
  ruleName ∈ topologicalOrder ->
  ruleOf parsedRules ruleName = Some (Rule h (Mechanism kind explanation)) ->
  ruleDottedName h = ruleName ->
  (isGate kind = true ->
     facts !! ruleName = Some (Some {| isNullable := true |}))
  /\ (isAggregation kind = true ->
     facts !! ruleName = Some (Some {| isNullable := false |}))
  /\ (forall res,
        (inferNodeUnit (Rule h (Mechanism kind explanation)) res).1 !! ruleName
        = Some (Some {| isNullable := isGate kind |})).
Proof.
  intros Hreg Hrun Hin Hrule Hname.
  pose proof (inferRules_records parsedRules ruleName h kind explanation
                Hreg Hrule Hname topologicalOrder ∅ facts Hrun (or_intror Hin))
    as Hfact.
  split_and!.
  - intros Hgate. rewrite Hfact. by destruct kind.
  - intros Hagg. rewrite Hfact. by destruct kind.
  - intros res. rewrite inferNodeUnit_rule_mechanism. cbn [fst].
    rewrite Hname, lookup_insert_eq. by destruct kind.
Qed.

End Nullability.

Lemma gateAndSum_registered : RulesRegistered gateAndSum.
Proof.
  intros ruleName node h v Hnode Hin. unfold gateAndSum in *.
  cbn [ruleOf] in Hnode.
  repeat (destruct (String.eqb _ ruleName);
          [injection Hnode as Hnode; subst node; cbn in Hin;
           repeat (apply elem_of_cons in Hin as [Hin|Hin];
                   [try discriminate Hin; injection Hin as Hh Hv; subst h v;
                    reflexivity|]);
           by apply elem_of_nil in Hin|]).
  discriminate Hnode.
Qed.

Lemma inferRulesUnit_records_gates_and_aggregations_witness :
  exists facts,
    inferRulesUnit gateAndSum ["gate"; "sum"; "user"] = Return facts
    /\ facts !! "gate" = Some (Some {| isNullable := true |}).
Proof.
  eexists. split; [reflexivity|].
  apply (inferRulesUnit_records_gates_and_aggregations gateAndSum
           ["gate"; "sum"; "user"] _ "gate" (header "gate") ApplicableSi
           [Constant (RBool true)]).
  - exact gateAndSum_registered.
  - reflexivity.
  - by left.
  - reflexivity.
  - reflexivity.
  - reflexivity.
Defined.

(** ** The reference resolver: [disambiguateReference] *)

Section Resolver.

(** The search through the scope chain is a collaborator: it returns the
    fully qualified name or throws. *)
Variable disambiguateRuleReference : ParsedRules -> string -> string -> Completion string.

(** [thisReferenceIsNotARealDependencyHack !== true] *)
Definition isRealDependency (reference : ReferenceNode) : bool :=
  match thisReferenceIsNotARealDependencyHack reference with
  | Some true => false
  | _ => true
  end.

(** [dependencies[context] = [...(dependencies[context] ?? []), target]] *)
Definition addDependency (dependencies : DependencyGraph) (context target : string)
  : DependencyGraph :=
  <[context := dependenciesOf dependencies context ++ [target]]> dependencies.

(** The callback given to [makeASTTransformer]; [dependencies] is the
    object it updates. The result is [undefined] ([Return None]) for a node
    that is not a reference. *)
Definition disambiguateReference (parsedRules : ParsedRules) (node : ASTNode)
    (dependencies : DependencyGraph)
  : DependencyGraph * Completion (option ASTNode) :=
  match node with
  | Reference reference =>
      match disambiguateRuleReference parsedRules
              (contextDottedName reference) (name reference) with
      | Throw e => (dependencies, Throw e)
      | Return target =>
          let dependencies' :=
            if isRealDependency reference
            then addDependency dependencies (contextDottedName reference) target
            else dependencies in
          match ruleOf parsedRules target with
          | Some (Rule h _) =>
              (dependencies',
               Return (Some (Reference
                 {| name := name reference;
                    contextDottedName := contextDottedName reference;
                    thisReferenceIsNotARealDependencyHack :=
                      thisReferenceIsNotARealDependencyHack reference;
                    dottedName := Some target;
                    title := Some (ruleTitle h);
                    acronym := acronyme h |})))
          | _ => (dependencies', Throw TypeError)
          end
      end
  | _ => (dependencies, Return None)
  end.

(** The callback applied to the nodes in the order in which the traversal
    reaches them, up to the first failure. *)
Fixpoint disambiguateAll (parsedRules : ParsedRules) (nodes : list ASTNode)
    (dependencies : DependencyGraph)
  : DependencyGraph * Completion (list (option ASTNode)) :=
  match nodes with
  | [] => (dependencies, Return [])
  | node :: rest =>
      match disambiguateReference parsedRules node dependencies with
      | (dependencies', Return node') =>
          match disambiguateAll parsedRules rest dependencies' with
          | (dependencies'', Return nodes') => (dependencies'', Return (node' :: nodes'))
          | (dependencies'', Throw e) => (dependencies'', Throw e)
          end
      | (dependencies', Throw e) => (dependencies', Throw e)
      end
  end.

(** The targets of the real dependencies that [nodes] hold for the rule
    [context], in order, with repetitions. *)
Definition edgesFrom (parsedRules : ParsedRules) (context : string)
    (nodes : list ASTNode) : list string :=
  omap (fun node =>
          match node with
          | Reference reference =>
              if isRealDependency reference
                 && String.eqb (contextDottedName reference) context
              then
                match disambiguateRuleReference parsedRules
                        (contextDottedName reference) (name reference) with
                | Return target => Some target
                | Throw _ => None
                end
              else None
          | _ => None
          end) nodes.

End Resolver.

Definition unresolved (context target : string) (hack : option bool) : ASTNode :=
  Reference {| name := target; contextDottedName := context;
               thisReferenceIsNotARealDependencyHack := hack;
               dottedName := None; title := None; acronym := None |}.

(** A resolver that finds a rule under the name it is given. *)
Definition resolveByName (parsedRules : ParsedRules) (context literal : string)
  : Completion string :=
  match ruleOf parsedRules literal with
  | Some _ => Return literal
  | None => Throw (CollaboratorError literal)
  end.

(** The rule [user] refers twice to [gate], once to [sum], and once more to
    [gate] through a reference flagged as not a real dependency. *)
Definition userReferences : list ASTNode :=
  [unresolved "user" "gate" None; Constant RNull; unresolved "user" "sum" (Some false);
   unresolved "user" "gate" (Some true); unresolved "sum" "gate" None;
   unresolved "user" "gate" None].


(** ** Properties of the reference resolver *)

Section ResolverFacts.

Variable disambiguateRuleReference : ParsedRules -> string -> string -> Completion string.

Lemma dependenciesOf_addDependency dependencies context target c :
  dependenciesOf (addDependency dependencies context target) c
  = if String.eqb context c
    then dependenciesOf dependencies c ++ [target]
    else dependenciesOf dependencies c.
Proof.
  unfold addDependency, dependenciesOf at 1.
  destruct (String.eqb_spec context c) as [->|Hne].
  - by rewrite lookup_insert_eq.
  - by rewrite lookup_insert_ne.
Qed.

Lemma edgesFrom_reference parsedRules c reference :
  edgesFrom disambiguateRuleReference parsedRules c [Reference reference]
  = if isRealDependency reference && String.eqb (contextDottedName reference) c
    then
      match disambiguateRuleReference parsedRules
              (contextDottedName reference) (name reference) with
      | Return target => [target]
      | Throw _ => []
      end
    else [].
Proof.
  unfold edgesFrom. cbn.
  destruct (isRealDependency reference && _); [|done].
  by destruct (disambiguateRuleReference _ _ _).
Qed.

(** What one call of the callback does to the dependency graph. *)
Lemma disambiguateReference_graph parsedRules node dependencies :
  forall dependencies' node',
    disambiguateReference disambiguateRuleReference parsedRules node dependencies
    = (dependencies', Return node') ->
    forall c,
      dependenciesOf dependencies' c
      = dependenciesOf dependencies c
        ++ edgesFrom disambiguateRuleReference parsedRules c [node].
Proof.
  intros dependencies' node' Hrun c.
  destruct node as [| | | | | | |reference]; cbn [disambiguateReference] in Hrun;
    try (injection Hrun as Hd Hn; subst; by rewrite app_nil_r).
  rewrite edgesFrom_reference.
  destruct (disambiguateRuleReference parsedRules (contextDottedName reference)
              (name reference)) as [target|e]; [|done].
  destruct (ruleOf parsedRules target) as [[]|]; try done.
  injection Hrun as Hd Hn. subst dependencies'.
  destruct (isRealDependency reference); cbn [andb].
  - rewrite dependenciesOf_addDependency.
    destruct (String.eqb (contextDottedName reference) c); [done|].
    by rewrite app_nil_r.
  - by rewrite app_nil_r.
Qed.



End ResolverFacts.


(** ** The compiler orchestrator: [parsePublicodes] *)

(** The rule maps that callers hold, by identity: a [parsedRules] object
    passed in a partial context is a reference into this store, and what
    [parse] registers in it stays visible after the call. *)
Abbreviation RuleMapStore := (gmap nat ParsedRules).

Section Orchestrator.

Variables Logger Replacements : Type.

Record Context := {
  ctxDottedName : string;
  ctxParsedRules : ParsedRules;
  ctxLogger : Logger;
  ctxGetUnitKey : string -> string;
}.

Record PartialContext := {
  partialDottedName : option string;
  partialParsedRules : option nat;
  partialLogger : option Logger;
  partialGetUnitKey : option (string -> string);
}.

(** [partialContext = {}] *)
Definition defaultContext : PartialContext :=
  {| partialDottedName := None; partialParsedRules := None;
     partialLogger := None; partialGetUnitKey := None |}.

(** The collaborators. Those that take a callback are generic in the state
    the callback updates. *)
Variable console : Logger.
Variable numberToString : float -> string.
Variable yamlParse : string -> Completion Raw.
Variable parse : Obj -> Context -> Context * Completion ASTNode.
Variable disambiguateRuleReference : ParsedRules -> string -> string -> Completion string.
Variable makeASTTransformer :
  forall S : Type,
    (ASTNode -> S -> S * Completion (option ASTNode)) ->
    ASTNode -> S -> S * Completion ASTNode.
Variable traverseParsedRules :
  forall S : Type,
    (ASTNode -> S -> S * Completion ASTNode) ->
    ParsedRules -> S -> S * Completion ParsedRules.
Variable getReplacements : ParsedRules -> Completion Replacements.
Variable inlineReplacements :
  Replacements -> Logger -> ASTNode -> unit -> unit * Completion ASTNode.

(** [('' + rawRules).replace(/\t/g, '  ')] *)
Fixpoint replaceTabs (s : string) : string :=
  match s with
  | EmptyString => EmptyString
  | String c rest =>
      if Nat.eqb (JSString.codeUnit c) 9
      then String " " (String " " (replaceTabs rest))
      else String c (replaceTabs rest)
  end.

(** STEP 1: a string is decoded, anything else is copied with
    [{ ...rawRules }]. *)
Definition ingest (rawRules : Raw) : Completion Raw :=
  match rawRules with
  | RString text => yamlParse (replaceTabs text)
  | _ => Return (RObject (JSObject.assign [] (spread rawRules)))
  end.

(** [Object.entries(rules)] *)
Definition entriesOf (rules : Raw) : Completion Obj :=
  match ownEntries rules with
  | Some entries => Return entries
  | None => Throw TypeError
  end.

(** A string or number body stands for [{ formule: `${rule}` }]. *)
Definition normalizeShorthand (rule : Raw) : Raw :=
  match rule with
  | RString s => RObject [("formule", RString s)]
  | RNumber n => RObject [("formule", RString (numberToString n))]
  | _ => rule
  end.

(** [typeof rule === 'object'] *)
Definition typeofObject (rule : Raw) : bool :=
  match rule with
  | RNull | RArray _ | RObject _ => true
  | RUndefined | RBool _ | RNumber _ | RString _ => false
  end.

(** The test guarding the [SyntaxError], on the body as written. *)
Definition isMalformedBody (rule : Raw) : bool :=
  negb (typeofObject (normalizeShorthand rule)).

Definition malformedBodyMessage (dottedName : string) : string :=
  String.append "Rule "
    (String.append dottedName " is incorrectly written. Please give it a proper value.").

(** STEP 3: the [forEach] over the entries. *)
Fixpoint parseRules (entries : Obj) (context : Context) : Context * Completion unit :=
  match entries with
  | [] => (context, Return tt)
  | (dottedName, rule) :: rest =>
      let rule := normalizeShorthand rule in
      if negb (typeofObject rule)
      then (context, Throw (SyntaxError (malformedBodyMessage dottedName)))
      else
        match parse (JSObject.assign [("nom", RString dottedName)] (spread rule))
                context with
        | (context', Return _) => parseRules rest context'
        | (context', Throw e) => (context', Throw e)
        end
  end.

(** The order returned by the sort, whose recursion always completes. *)
Definition topologicalOrderOf (rulesNames : list string)
    (dependencies : DependencyGraph) : list string :=
  default [] (topologicalSort rulesNames dependencies).

(** STEPS 4 to 6, on the rules that [parse] registered. *)
Definition linkRules (parsedRules : ParsedRules) (logger : Logger)
  : Completion ParsedRules :=
  let '(dependencies, linked) :=
    traverseParsedRules DependencyGraph
      (makeASTTransformer DependencyGraph
         (disambiguateReference disambiguateRuleReference parsedRules))
      parsedRules ∅ in
  parsedRules ← linked;
  let topologicalOrder := topologicalOrderOf parsedRules.*1 dependencies in
  replacements ← getReplacements parsedRules;
  parsedRules ← (traverseParsedRules unit
                   (inlineReplacements replacements logger) parsedRules tt).2;
  ruleUnits ← inferRulesUnit parsedRules topologicalOrder;
  Return parsedRules.

(** [partialContext.parsedRules ?? {}]: the address of the map that [parse]
    fills, and what it holds at the start. *)
Definition contextAddress (partialContext : PartialContext) (store : RuleMapStore) : nat :=
  default (fresh (dom store)) (partialParsedRules partialContext).

Definition contextRules (partialContext : PartialContext) (store : RuleMapStore)
  : ParsedRules :=
  match partialParsedRules partialContext with
  | Some address => default [] (store !! address)
  | None => []
  end.

(** The [context] built from the partial one and the defaults. *)
Definition initialContext (partialContext : PartialContext) (store : RuleMapStore)
  : Context :=
  {| ctxDottedName := default "" (partialDottedName partialContext);
     ctxParsedRules := contextRules partialContext store;
     ctxLogger := default console (partialLogger partialContext);
     ctxGetUnitKey := default (fun x => x) (partialGetUnitKey partialContext) |}.

Definition parsePublicodes (rawRules : Raw) (partialContext : PartialContext)
    (store : RuleMapStore) : RuleMapStore * Completion ParsedRules :=
  match ingest rawRules with
  | Throw e => (store, Throw e)
  | Return rules =>
      let rules := transpileRef rules in
      let address := contextAddress partialContext store in
      let context := initialContext partialContext store in
      match entriesOf rules with
      | Throw e => (<[address := ctxParsedRules context]> store, Throw e)
      | Return entries =>
          let '(context', parsed) := parseRules entries context in
          (<[address := ctxParsedRules context']> store,
           _ ← parsed; linkRules (ctxParsedRules context') (ctxLogger context'))
      end
  end.

End Orchestrator.

Arguments ctxDottedName {Logger} _.
Arguments ctxParsedRules {Logger} _.
Arguments ctxLogger {Logger} _.
Arguments ctxGetUnitKey {Logger} _.
Arguments partialDottedName {Logger} _.
Arguments partialParsedRules {Logger} _.
Arguments partialLogger {Logger} _.
Arguments partialGetUnitKey {Logger} _.
Arguments defaultContext {Logger}.

(** *** Stand-ins for the collaborators, for running the orchestrator *)

Module Sample.

(** [parsedRules[name] = node] *)
Fixpoint register (parsedRules : ParsedRules) (ruleName : string) (node : ASTNode)
  : ParsedRules :=
  match parsedRules with
  | [] => [(ruleName, node)]
  | (k, x) :: rest =>
      if String.eqb k ruleName then (k, node) :: rest
      else (k, x) :: register rest ruleName node
  end.

(** Registers a rule under its [nom]: a reference when [formule] is the
    name of a registered rule, a constant otherwise. *)
Definition parse (rule : Obj) (context : Context unit) : Context unit * Completion ASTNode :=
  match JSObject.get rule "nom" with
  | Some (RString nom) =>
      let valeur :=
        match JSObject.get rule "formule" with
        | Some (RString target) =>
            if bool_decide (is_Some (ruleOf (ctxParsedRules context) target))
            then unresolved nom target None
            else Constant (RString target)
        | Some v => Constant v
        | None => Constant RNull
        end in
      let node := Rule (header nom) valeur in
      ({| ctxDottedName := ctxDottedName context;
          ctxParsedRules := register (ctxParsedRules context) nom node;
          ctxLogger := ctxLogger context;
          ctxGetUnitKey := ctxGetUnitKey context |},
       Return node)
  | _ => (context, Throw (CollaboratorError "nom"))
  end.

(** Applies the callback to the value of a rule, or to the node itself when
    it is not a rule; children are not visited. *)
Definition makeASTTransformer (S : Type)
    (fn : ASTNode -> S -> S * Completion (option ASTNode))
    (node : ASTNode) (s : S) : S * Completion ASTNode :=
  match node with
  | Rule h valeur =>
      match fn valeur s with
      | (s', Return (Some valeur')) => (s', Return (Rule h valeur'))
      | (s', Return None) => (s', Return node)
      | (s', Throw e) => (s', Throw e)
      end
  | _ =>
      match fn node s with
      | (s', Return (Some node')) => (s', Return node')
      | (s', Return None) => (s', Return node)
      | (s', Throw e) => (s', Throw e)
      end
  end.

(** Rebuilds the map, transforming the rules in key order. *)
Fixpoint traverseParsedRules (S : Type)
    (fn : ASTNode -> S -> S * Completion ASTNode)
    (parsedRules : ParsedRules) (s : S) : S * Completion ParsedRules :=
  match parsedRules with
  | [] => (s, Return [])
  | (k, node) :: rest =>
      match fn node s with
      | (s', Return node') =>
          match traverseParsedRules S fn rest s' with
          | (s'', Return rest') => (s'', Return ((k, node') :: rest'))
          | (s'', Throw e) => (s'', Throw e)
          end
      | (s', Throw e) => (s', Throw e)
      end
  end.

Definition getReplacements (parsedRules : ParsedRules) : Completion unit := Return tt.

Definition inlineReplacements (replacements : unit) (logger : unit)
    (node : ASTNode) (s : unit) : unit * Completion ASTNode :=
  (s, Return node).

Definition yamlParse (text : string) : Completion Raw :=
  Throw (CollaboratorError "yaml").

Definition numberToString (n : float) : string := "5".

(** The orchestrator over these stand-ins. *)
Definition compile (rawRules : Raw) (partialContext : PartialContext unit)
    (store : RuleMapStore) : RuleMapStore * Completion ParsedRules :=
  parsePublicodes unit unit tt numberToString yamlParse parse resolveByName
    makeASTTransformer traverseParsedRules getReplacements inlineReplacements
    rawRules partialContext store.

(** [{ brut: "2000", net: "brut", liste: ["brut"] }] *)
Definition listBody : Raw :=
  RObject [("brut", RString "2000"); ("net", RString "brut");
           ("liste", RArray [RString "brut"])].

(** [{ brut: "2000", actif: true, net: "brut" }] *)
Definition booleanBody : Raw :=
  RObject [("brut", RString "2000"); ("actif", RBool true); ("net", RString "brut")].

(** A partial context holding the rule map at address [0]. *)
Definition sharedContext : PartialContext unit :=
  {| partialDottedName := None; partialParsedRules := Some 0;
     partialLogger := None; partialGetUnitKey := None |}.

End Sample.


(** ** Properties of the orchestrator *)

Section OrchestratorFacts.

Variables Logger Replacements : Type.
Variable console : Logger.
Variable numberToString : float -> string.
Variable yamlParse : string -> Completion Raw.
Variable parse : Obj -> Context Logger -> Context Logger * Completion ASTNode.
Variable disambiguateRuleReference : ParsedRules -> string -> string -> Completion string.
Variable makeASTTransformer :
  forall S : Type,
    (ASTNode -> S -> S * Completion (option ASTNode)) ->
    ASTNode -> S -> S * Completion ASTNode.
Variable traverseParsedRules :
  forall S : Type,
    (ASTNode -> S -> S * Completion ASTNode) ->
    ParsedRules -> S -> S * Completion ParsedRules.
Variable getReplacements : ParsedRules -> Completion Replacements.
Variable inlineReplacements :
  Replacements -> Logger -> ASTNode -> unit -> unit * Completion ASTNode.

Let compile :=
  parsePublicodes Logger Replacements console numberToString yamlParse parse
    disambiguateRuleReference makeASTTransformer traverseParsedRules
    getReplacements inlineReplacements.
Let parseAll := parseRules Logger numberToString parse.

Lemma parseRules_app before rest context :
  parseAll (before ++ rest) context
  = match parseAll before context with
    | (context1, Return _) => parseAll rest context1
    | (context1, Throw e) => (context1, Throw e)
    end.
Proof.
  unfold parseAll. revert context.
  induction before as [|[k rule] before IH]; intros context; [done|].
  cbn [app parseRules]. destruct (negb _); [done|].
  destruct (parse _ context) as [context' [node|e]]; [apply IH | done].
Qed.

Lemma parseRules_malformed dottedName rule rest context :
  isMalformedBody numberToString rule = true ->
  parseAll ((dottedName, rule) :: rest) context
  = (context, Throw (SyntaxError (malformedBodyMessage dottedName))).
Proof.
  unfold parseAll, isMalformedBody. intros Hbad. cbn [parseRules]. by rewrite Hbad.
Qed.

(** The malformed-body test fires on booleans and on [undefined] only. *)
Lemma isMalformedBody_iff rule :
  isMalformedBody numberToString rule = true
  <-> rule = RUndefined \/ exists b, rule = RBool b.
Proof.
  unfold isMalformedBody. destruct rule; cbn; split; try done; try by intros [?|[? ?]].
  - by left.
  - right. by eexists.
Qed.

(** C5 (amended): when the body of an entry of the desugared rules, after the
    string and number shorthand, is not of type [object] (a boolean or
    [undefined]; [null], arrays and objects are), the compile returns no
    result; and when the entries before it were accepted by the
    constructor, it throws the [SyntaxError] that names the rule. *)
Theorem parsePublicodes_rejects_malformed_body
    (rawRules rules : Raw) (partialContext : PartialContext Logger)
    (store : RuleMapStore) (before after : Obj) (dottedName : string) (rule : Raw) :
  ingest yamlParse rawRules = Return rules ->
  entriesOf (transpileRef rules) = Return (before ++ (dottedName, rule) :: after) ->
  isMalformedBody numberToString rule = true ->
  ~ returns (compile rawRules partialContext store).2
  /\ forall context1,
      parseAll before (initialContext Logger console partialContext store)
      = (context1, Return tt) ->
      compile rawRules partialContext store
      = (<[contextAddress Logger partialContext store := ctxParsedRules context1]> store,
         Throw (SyntaxError
                  (String.append "Rule "
                     (String.append dottedName
                        " is incorrectly written. Please give it a proper value.")))).
Proof.
  intros Hingest Hentries Hbad. unfold compile, parsePublicodes.
  rewrite Hingest. cbn zeta. rewrite Hentries.
  fold parseAll. rewrite parseRules_app.
  destruct (parseAll before _) as [context1 [[]|e]] eqn:Hbefore.
  - rewrite (parseRules_malformed _ _ _ _ Hbad). split.
    + by intros [? ?].
    + by intros ? [= <-].
  - split; [by intros [? ?] | done].
Qed.

(** C9: a [null] body is not malformed for the check, so the entry goes on
    to the constructor as [{ nom }]; the [SyntaxError] branch is taken
    exactly for the bodies that are [undefined] or a boolean, that is for
    no string, number, [null], object or array. *)
Theorem null_body_passes_malformed_check :
  isMalformedBody numberToString RNull = false
  /\ (forall rule,
        isMalformedBody numberToString rule = true
        <-> rule = RUndefined \/ exists b, rule = RBool b)
  /\ (forall dottedName rest context,
        parseAll ((dottedName, RNull) :: rest) context
        = match parse [("nom", RString dottedName)] context with
          | (context', Return _) => parseAll rest context'
          | (context', Throw e) => (context', Throw e)
          end)
  /\ (forall dottedName b rest context,
        parseAll ((dottedName, RBool b) :: rest) context
        = (context, Throw (SyntaxError (malformedBodyMessage dottedName)))).
Proof.
  split_and!; [done | apply isMalformedBody_iff | done | done].
Qed.




End OrchestratorFacts.

(** C5 fails on the code for a raw list: [typeof] of an array is [object],
    so the body goes to the constructor, spread as [{ 0: ..., nom }], and
    the compile of [{ brut: "2000", net: "brut", liste: ["brut"] }] returns
    its three rules. *)
Lemma parsePublicodes_accepts_list_body :
  isMalformedBody Sample.numberToString (RArray [RString "brut"]) = false
  /\ (forall Logger (parse : Obj -> Context Logger -> Context Logger * Completion ASTNode)
             context,
        parseRules Logger Sample.numberToString parse
          [("liste", RArray [RString "brut"])] context
        = match parse [("0", RString "brut"); ("nom", RString "liste")] context with
          | (context', Return _) => (context', Return tt)
          | (context', Throw e) => (context', Throw e)
          end)
  /\ exists compiled,
      (Sample.compile Sample.listBody defaultContext ∅).2 = Return compiled
      /\ compiled.*1 = ["brut"; "net"; "liste"].
Proof.
  split_and!; [done | done |]. eexists. split; [by vm_compute | done].
Qed.

Lemma parsePublicodes_rejects_malformed_body_witness :
  Sample.compile Sample.booleanBody defaultContext ∅
  = (<[0 := [("brut", Rule (header "brut") (Constant (RString "2000")))]]> ∅,
     Throw (SyntaxError
              "Rule actif is incorrectly written. Please give it a proper value.")).
Proof.
  destruct (parsePublicodes_rejects_malformed_body unit unit tt
              Sample.numberToString Sample.yamlParse Sample.parse resolveByName
              Sample.makeASTTransformer Sample.traverseParsedRules
              Sample.getReplacements Sample.inlineReplacements
              Sample.booleanBody Sample.booleanBody defaultContext ∅
              [("brut", RString "2000")] [("net", RString "brut")]
              "actif" (RBool true))
    as [_ Hthrow]; [reflexivity | reflexivity | reflexivity |].
  exact (Hthrow _ eq_refl).
Defined.

(** With a rule map shared between two compiles the second one sees the
    rules of the first: the default context is what makes C8 hold. *)
Example parsePublicodes_shared_context :
  let first := Sample.compile (RObject [("brut", RString "2000")]) Sample.sharedContext ∅ in
  let second := Sample.compile (RObject [("net", RString "brut")]) Sample.sharedContext first.1 in
  let alone := Sample.compile (RObject [("net", RString "brut")]) defaultContext first.1 in
  (exists compiled, second.2 = Return compiled /\ compiled.*1 = ["brut"; "net"])
  /\ (exists compiled, alone.2 = Return compiled /\ compiled.*1 = ["net"]).
Proof.
  cbn zeta. split; eexists; (split; [by vm_compute | done]).
Qed.

(** ** Raw rules as objects in a store: identity and mutation

    The functions above take raw data by value. To speak of what a call
    does to the objects of its caller, the same steps are written here over
    a store of cells: an object or an array is a reference to a cell, a
    literal or a [map] allocates a cell, and a collaborator may update the
    cells it can reach. *)

Module Store.

Inductive Value : Type :=
  | VUndefined
  | VNull
  | VBool (b : bool)
  | VNumber (n : float)
  | VString (s : string)
  | VRef (address : nat).

Inductive Cell : Type :=
  | CArray (items : list Value)
  | CObject (entries : list (string * Value)).

Abbreviation Heap := (gmap nat Cell).

(** A literal: a new cell at an address not in use. *)
Definition alloc (cell : Cell) (h : Heap) : Heap * Value :=
  let address := fresh (dom h) in
  (<[address := cell]> h, VRef address).

(** The own enumerable entries of a value; [None] for [null] and
    [undefined]. *)
Definition ownEntries (h : Heap) (v : Value) : option (list (string * Value)) :=
  match v with
  | VUndefined | VNull => None
  | VBool _ | VNumber _ => Some []
  | VString s =>
      Some (imap (fun i c => (pretty i, VString (String c EmptyString)))
              (list_ascii_of_string s))
  | VRef address =>
      match h !! address with
      | Some (CObject entries) => Some entries
      | Some (CArray items) => Some (imap (fun i x => (pretty i, x)) items)
      | None => Some []
      end
  end.

Definition spread (h : Heap) (v : Value) : list (string * Value) :=
  default [] (ownEntries h v).

(** [object.map(fn)]: the results go to a new array. *)
Definition mapItems (fn : Value -> Heap -> Heap * Completion Value)
  : list Value -> Heap -> Heap * Completion (list Value) :=
  fix map (items : list Value) (h : Heap) :=
    match items with
    | [] => (h, Return [])
    | item :: rest =>
        match fn item h with
        | (h1, Return item') =>
            match map rest h1 with
            | (h2, Return rest') => (h2, Return (item' :: rest'))
            | (h2, Throw e) => (h2, Throw e)
            end
        | (h1, Throw e) => (h1, Throw e)
        end
    end.

(** [Object.entries(object).reduce(..., {})]: every step builds a new
    accumulator [{ ...obj, [key]: ... }], and a shorthand key one more
    object, [{ nom, valeur }]. *)
Definition reduceEntries (fn : Value -> Heap -> Heap * Completion Value)
  : list (string * Value) -> Value -> Heap -> Heap * Completion Value :=
  fix reduce (entries : list (string * Value)) (obj : Value) (h : Heap) :=
    match entries with
    | [] => (h, Return obj)
    | (key, value) :: rest =>
        match fn value h with
        | (h1, Throw e) => (h1, Throw e)
        | (h1, Return value') =>
            match execRef key with
            | None =>
                let '(h2, obj') :=
                  alloc (CObject (JSObject.set (spread h1 obj) key value')) h1 in
                reduce rest obj' h2
            | Some m =>
                let argumentType := JSString.trim (JSString.removeFirst (match0 m) key) in
                let argumentName := argumentNameOf m argumentType in
                let '(h2, named) :=
                  alloc (CObject [("nom", VString argumentName); ("valeur", value')]) h1 in
                let '(h3, obj') :=
                  alloc (CObject (JSObject.set (spread h2 obj) argumentType named)) h2 in
                reduce rest obj' h3
            end
        end
    end.

(** [fuel] bounds the depth of the recursion; on a structure nested deeper
    (a cyclic one, say) the call stack overflows. *)
Fixpoint transpileRef (fuel : nat) (object : Value) (h : Heap)
  : Heap * Completion Value :=
  match fuel with
  | O => (h, Throw RangeError)
  | S fuel' =>
      match object with
      | VRef address =>
          match h !! address with
          | Some (CArray items) =>
              match mapItems (transpileRef fuel') items h with
              | (h1, Return items') =>
                  let '(h2, array) := alloc (CArray items') h1 in
                  (h2, Return array)
              | (h1, Throw e) => (h1, Throw e)
              end
          | Some (CObject entries) =>
              let '(h0, empty) := alloc (CObject []) h in
              reduceEntries (transpileRef fuel') entries empty h0
          | None => (h, Throw TypeError)
          end
      | _ => (h, Return object)
      end
  end.

(** The addresses a value, a cell, holds. *)
Definition refsOfValue (v : Value) : gset nat :=
  match v with
  | VRef address => {[address]}
  | _ => ∅
  end.

Definition refsOfCell (cell : Cell) : gset nat :=
  match cell with
  | CArray items => ⋃ (refsOfValue <$> items)
  | CObject entries => ⋃ (refsOfValue <$> entries.*2)
  end.

(** [closed h K]: the cells at [K] exist and refer to cells at [K] only. *)
Definition closed (h : Heap) (K : gset nat) : Prop :=
  K ⊆ dom h
  /\ forall address cell,
      address ∈ K -> h !! address = Some cell -> refsOfCell cell ⊆ K.

(** The raw data a value stands for, read [fuel] levels deep. *)
Fixpoint reify (fuel : nat) (h : Heap) (v : Value) : option Raw :=
  match v with
  | VUndefined => Some RUndefined
  | VNull => Some RNull
  | VBool b => Some (RBool b)
  | VNumber n => Some (RNumber n)
  | VString s => Some (RString s)
  | VRef address =>
      match fuel with
      | O => None
      | S fuel' =>
          match h !! address with
          | Some (CArray items) => RArray <$> mapM (reify fuel' h) items
          | Some (CObject entries) =>
              RObject <$> mapM (fun kv => pair kv.1 <$> reify fuel' h kv.2) entries
          | None => None
          end
      end
  end.

Section Orchestrator.

(** What the collaborators hold between calls (the compile context, the
    rules registered so far) is a state of their own; [known] is the set of
    cells of raw data that this state gives access to. *)
Variable Host : Type.
Variable known : Host -> gset nat.

Definition Collaborator : Type :=
  list Value -> Host -> Heap -> Heap * Host * Completion Value.

Variable numberToString : float -> string.
Variable yamlParse : Collaborator.
Variable parse : Collaborator.
(** STEPS 4 to 6, which work on the registered rules. *)
Variable linkRules : Collaborator.

(** A collaborator is confined when its effects stay within any closed
    region that holds its arguments and what it already knew: cells outside
    are left as they are, no cell disappears, and what it knows or returns
    afterwards is in that region or new. *)
Definition Confined (collaborator : Collaborator) : Prop :=
  forall (K : gset nat) args host h,
    closed h K ->
    known host ⊆ K ->
    ⋃ (refsOfValue <$> args) ⊆ K ->
    let '(h', host', outcome) := collaborator args host h in
    (forall address, address ∈ dom h -> address ∉ K -> h' !! address = h !! address)
    /\ dom h ⊆ dom h'
    /\ exists K',
         K ⊆ K' /\ K' ∩ dom h ⊆ K /\ closed h' K' /\ known host' ⊆ K'
         /\ forall v, outcome = Return v -> refsOfValue v ⊆ K'.

(** [typeof rule === 'object'] *)
Definition typeofObject (rule : Value) : bool :=
  match rule with
  | VNull | VRef _ => true
  | _ => false
  end.

(** STEP 3, one entry after the other. *)
Fixpoint parseRules (entries : list (string * Value)) (host : Host) (h : Heap)
  : Heap * Host * Completion unit :=
  match entries with
  | [] => (h, host, Return tt)
  | (dottedName, rule) :: rest =>
      let '(h1, rule) :=
        match rule with
        | VString s => alloc (CObject [("formule", VString s)]) h
        | VNumber n => alloc (CObject [("formule", VString (numberToString n))]) h
        | _ => (h, rule)
        end in
      if negb (typeofObject rule)
      then (h1, host, Throw (SyntaxError (malformedBodyMessage dottedName)))
      else
        let '(h2, named) :=
          alloc (CObject (JSObject.assign [("nom", VString dottedName)] (spread h1 rule)))
            h1 in
        match parse [named] host h2 with
        | (h3, host', Return _) => parseRules rest host' h3
        | (h3, host', Throw e) => (h3, host', Throw e)
        end
  end.

(** STEP 1: a string is decoded, anything else is copied into a new
    object. *)
Definition ingest (rawRules : Value) (host : Host) (h : Heap)
  : Heap * Host * Completion Value :=
  match rawRules with
  | VString text => yamlParse [VString (replaceTabs text)] host h
  | _ =>
      let '(h1, copy) := alloc (CObject (JSObject.assign [] (spread h rawRules))) h in
      (h1, host, Return copy)
  end.

Definition parsePublicodes (fuel : nat) (rawRules : Value) (host : Host) (h : Heap)
  : Heap * Host * Completion Value :=
  let '(h1, host1, rules) := ingest rawRules host h in
  match rules with
  | Throw e => (h1, host1, Throw e)
  | Return rules =>
      (* STEP 2 *)
      match transpileRef fuel rules h1 with
      | (h2, Throw e) => (h2, host1, Throw e)
      | (h2, Return rules) =>
          (* STEP 3 *)
          match ownEntries h2 rules with
          | None => (h2, host1, Throw TypeError)
          | Some entries =>
              match parseRules entries host1 h2 with
              | (h3, host3, Throw e) => (h3, host3, Throw e)
              | (h3, host3, Return _) => linkRules [] host3 h3
              end
          end
      end
  end.

End Orchestrator.

(** [{ a: { "b[ref]": [1] } }] at address [0]. *)
Definition sampleHeap : Heap :=
  <[0 := CObject [("a", VRef 1)]]>
    (<[1 := CObject [("b[ref]", VRef 2)]]> (<[2 := CArray [VNumber 1]]> ∅)).

(** A collaborator that does nothing. *)
Definition idle : Collaborator unit :=
  fun args host h => (h, host, Return VUndefined).

(** A constructor that overwrites the object it is given. *)
Definition marking : Collaborator unit :=
  fun args host h =>
    match args with
    | [VRef address] =>
        (<[address := CObject [("seen", VBool true)]]> h, host, Return VUndefined)
    | _ => (h, host, Return VUndefined)
    end.

(** [built base h]: the cells of [h] that [base] does not have refer only
    to cells that [base] does not have. *)
Definition built (base h : Heap) : Prop :=
  forall address cell,
    h !! address = Some cell -> address ∉ dom base ->
    refsOfCell cell ⊆ dom h ∖ dom base.

(** All the values of a list refer to cells at [X]. *)
Definition within (X : gset nat) (vs : list Value) : Prop :=
  Forall (fun v => refsOfValue v ⊆ X) vs.

(** *** Allocation only: the desugarer in the store *)

Section Allocation.

Lemma alloc_inv cell h h' v :
  alloc cell h = (h', v) ->
  exists address,
    v = VRef address /\ (address ∉ dom h) /\ h' = <[address := cell]> h.
Proof.
  unfold alloc. intros [= <- <-]. eexists. split_and!; try done. apply is_fresh.
Qed.

Lemma refsOfCell_within cell X :
  (refsOfCell cell ⊆ X)
  <-> within X (match cell with CArray items => items | CObject entries => entries.*2 end).
Proof.
  unfold within. rewrite Forall_forall. destruct cell as [vs|entries]; cbn [refsOfCell].
  - split.
    + intros Hsub v Hv a Ha. apply Hsub, elem_of_union_list.
      exists (refsOfValue v). split; [|done]. apply list_elem_of_fmap. by exists v.
    + intros Hall a (R & HR & Ha)%elem_of_union_list.
      apply list_elem_of_fmap in HR as (v & -> & Hv). by apply (Hall v Hv).
  - split.
    + intros Hsub v Hv a Ha. apply Hsub, elem_of_union_list.
      exists (refsOfValue v). split; [|done]. apply list_elem_of_fmap. by exists v.
    + intros Hall a (R & HR & Ha)%elem_of_union_list.
      apply list_elem_of_fmap in HR as (v & -> & Hv). by apply (Hall v Hv).
Qed.

Lemma within_mono X Y vs : X ⊆ Y -> within X vs -> within Y vs.
Proof.
  intros HXY Hvs. eapply Forall_impl; [exact Hvs|]. intros v Hv. by transitivity X.
Qed.

Lemma assign_within X (more obj : list (string * Value)) :
  within X obj.*2 -> within X more.*2 -> within X (JSObject.assign obj more).*2.
Proof.
  unfold JSObject.assign. revert obj.
  induction more as [|[k v] more IH]; intros obj Hobj Hmore; [done|].
  rewrite fmap_cons in Hmore. apply Forall_cons in Hmore as [Hv Hmore].
  cbn [fold_left]. apply IH; [|done]. by apply set_values.
Qed.

Lemma imap_within {A} X (f : nat -> A -> string * Value) (l : list A) :
  (forall i x, l !! i = Some x -> refsOfValue (f i x).2 ⊆ X) ->
  within X (imap f l).*2.
Proof.
  intros Hf. apply Forall_forall. intros v Hv.
  apply list_elem_of_fmap in Hv as (kv & -> & Hkv).
  apply list_elem_of_lookup in Hkv as [i Hi].
  rewrite list_lookup_imap in Hi.
  destruct (l !! i) as [x|] eqn:Hx; [|done]. injection Hi as <-. by eapply Hf.
Qed.

(** The entries of a value refer to what its cell refers to. *)
Lemma spread_within X h v :
  (forall address cell,
      v = VRef address -> h !! address = Some cell -> refsOfCell cell ⊆ X) ->
  within X (spread h v).*2.
Proof.
  intros Hcell. unfold spread, ownEntries.
  destruct v as [| | | |s|address]; cbn [default]; try by constructor.
  - apply imap_within. intros i c _. cbn. apply empty_subseteq.
  - destruct (h !! address) as [[items|entries]|] eqn:Hh; cbn [default];
      [| |by constructor].
    + specialize (Hcell address _ eq_refl Hh). apply refsOfCell_within in Hcell.
      apply imap_within. intros i x Hx. cbn.
      unfold within in Hcell. rewrite Forall_forall in Hcell.
      apply Hcell. by eapply list_elem_of_lookup_2.
    + specialize (Hcell address _ eq_refl Hh). by apply refsOfCell_within in Hcell.
Qed.

Lemma built_refl h : built h h.
Proof.
  intros address cell Hcell Hnew. exfalso. apply Hnew, elem_of_dom. by eexists.
Qed.

(** A new cell that refers to built cells only keeps the store built. *)
Lemma alloc_built base cell h h' v :
  dom base ⊆ dom h -> built base h ->
  refsOfCell cell ⊆ dom h ∖ dom base ->
  alloc cell h = (h', v) ->
  h ⊆ h' /\ built base h' /\ refsOfValue v ⊆ dom h' ∖ dom base.
Proof.
  intros Hbase Hbuilt Hcell (address & -> & Hfresh & ->)%alloc_inv.
  apply not_elem_of_dom in Hfresh as Hnone.
  assert (Hgrow : dom h ∖ dom base ⊆ dom (<[address := cell]> h) ∖ dom base).
  { rewrite dom_insert_L. set_solver. }
  split_and!.
  - by apply insert_subseteq.
  - intros a c Ha Hnew. destruct (decide (address = a)) as [->|Hne].
    + rewrite lookup_insert_eq in Ha. injection Ha as <-. by etrans.
    + rewrite lookup_insert_ne in Ha by done. etrans; [by eapply Hbuilt | done].
  - cbn [refsOfValue]. rewrite dom_insert_L. set_solver.
Qed.

(** [fn] allocates only, and what it returns is built on [base]. *)
Definition Builder (fn : Value -> Heap -> Heap * Completion Value) : Prop :=
  forall base v h h' outcome,
    dom base ⊆ dom h -> built base h ->
    fn v h = (h', outcome) ->
    h ⊆ h' /\ built base h'
    /\ forall v', outcome = Return v' -> refsOfValue v' ⊆ dom h' ∖ dom base.

Lemma grow_dom (h h' : Heap) (base : Heap) :
  h ⊆ h' -> dom h ∖ dom base ⊆ dom h' ∖ dom base.
Proof. intros Hsub%subseteq_dom. set_solver. Qed.

Lemma mapItems_builds fn :
  Builder fn ->
  forall items base h h' outcome,
    dom base ⊆ dom h -> built base h ->
    mapItems fn items h = (h', outcome) ->
    h ⊆ h' /\ built base h'
    /\ forall items', outcome = Return items' -> within (dom h' ∖ dom base) items'.
Proof.
  intros Hfn.
  induction items as [|item rest IH]; intros base h h' outcome Hbase Hbuilt Hrun.
  - injection Hrun as <- <-. split_and!; try done. intros ? [= <-]. constructor.
  - cbn [mapItems] in Hrun.
    destruct (fn item h) as [h1 [item'|e]] eqn:Hitem.
    + destruct (Hfn base item h h1 _ Hbase Hbuilt Hitem) as (Hsub1 & Hbuilt1 & Hv).
      assert (Hbase1 : dom base ⊆ dom h1)
        by (etrans; [done | by apply subseteq_dom]).
      destruct (mapItems fn rest h1) as [h2 [rest'|e]] eqn:Hrest.
      * destruct (IH base h1 h2 _ Hbase1 Hbuilt1 Hrest) as (Hsub2 & Hbuilt2 & Hvs).
        injection Hrun as <- <-. split_and!; [by etrans | done |].
        intros ? [= <-]. constructor; [|by apply Hvs].
        etrans; [by apply Hv | by apply grow_dom].
      * destruct (IH base h1 h2 _ Hbase1 Hbuilt1 Hrest) as (Hsub2 & Hbuilt2 & _).
        injection Hrun as <- <-. split_and!; [by etrans | done | done].
    + destruct (Hfn base item h h1 _ Hbase Hbuilt Hitem) as (Hsub1 & Hbuilt1 & _).
      injection Hrun as <- <-. by split_and!.
Qed.

Lemma built_cell base h obj X :
  built base h -> refsOfValue obj ⊆ dom h ∖ dom base -> dom h ∖ dom base ⊆ X ->
  within X (spread h obj).*2.
Proof.
  intros Hbuilt Hobj HX. apply spread_within. intros address cell -> Hcell.
  transitivity (dom h ∖ dom base); [|done]. eapply Hbuilt; [done|].
  cbn [refsOfValue] in Hobj. set_solver.
Qed.

Lemma reduceEntries_builds fn :
  Builder fn ->
  forall entries base obj h h' outcome,
    dom base ⊆ dom h -> built base h ->
    refsOfValue obj ⊆ dom h ∖ dom base ->
    reduceEntries fn entries obj h = (h', outcome) ->
    h ⊆ h' /\ built base h'
    /\ forall v', outcome = Return v' -> refsOfValue v' ⊆ dom h' ∖ dom base.
Proof.
  intros Hfn.
  induction entries as [|[key value] rest IH];
    intros base obj h h' outcome Hbase Hbuilt Hobj Hrun.
  - injection Hrun as <- <-. split_and!; try done. by intros ? [= <-].
  - cbn [reduceEntries] in Hrun.
    destruct (fn value h) as [h1 [value'|e]] eqn:Hvalue.
    2:{ destruct (Hfn base value h h1 _ Hbase Hbuilt Hvalue) as (Hsub1 & Hbuilt1 & _).
        injection Hrun as <- <-. by split_and!. }
    destruct (Hfn base value h h1 _ Hbase Hbuilt Hvalue) as (Hsub1 & Hbuilt1 & Hv).
    specialize (Hv _ eq_refl).
    assert (Hbase1 : dom base ⊆ dom h1)
      by (etrans; [done | by apply subseteq_dom]).
    assert (Hobj1 : refsOfValue obj ⊆ dom h1 ∖ dom base)
      by (etrans; [done | by apply grow_dom]).
    destruct (execRef key) as [m|].
    + destruct (alloc (CObject [("nom", VString _); ("valeur", value')]) h1)
        as [h2 named] eqn:Hnamed.
      eapply (alloc_built base) in Hnamed as (Hsub2 & Hbuilt2 & Hn); [|done|done|].
      2:{ apply refsOfCell_within. repeat constructor; [apply empty_subseteq | done]. }
      assert (Hbase2 : dom base ⊆ dom h2)
        by (etrans; [done | by apply subseteq_dom]).
      destruct (alloc (CObject (JSObject.set (spread h2 obj) _ named)) h2)
        as [h3 obj'] eqn:Hobj'.
      eapply (alloc_built base) in Hobj' as (Hsub3 & Hbuilt3 & Ho); [|done|done|].
      2:{ apply refsOfCell_within. apply set_values; [done|].
          eapply built_cell; [done| |done]. etrans; [done | by apply grow_dom]. }
      assert (Hbase3 : dom base ⊆ dom h3)
        by (etrans; [done | by apply subseteq_dom]).
      destruct (IH base obj' h3 h' outcome Hbase3 Hbuilt3 Ho Hrun) as (Hsub & ? & ?).
      split_and!; try done. by repeat (etrans; [eassumption|]).
    + destruct (alloc (CObject (JSObject.set (spread h1 obj) key value')) h1)
        as [h2 obj'] eqn:Hobj'.
      eapply (alloc_built base) in Hobj' as (Hsub2 & Hbuilt2 & Ho); [|done|done|].
      2:{ apply refsOfCell_within. apply set_values; [done|]. by eapply built_cell. }
      assert (Hbase2 : dom base ⊆ dom h2)
        by (etrans; [done | by apply subseteq_dom]).
      destruct (IH base obj' h2 h' outcome Hbase2 Hbuilt2 Ho Hrun) as (Hsub & ? & ?).
      split_and!; try done. by repeat (etrans; [eassumption|]).
Qed.

(** The desugarer only allocates: every cell of the store it starts from is
    still there with the same content, and neither its result nor any cell
    it made refers to a cell it did not make. *)
Lemma transpileRef_builds fuel : Builder (transpileRef fuel).
Proof.
  induction fuel as [|fuel IH]; intros base object h h' outcome Hbase Hbuilt Hrun.
  - injection Hrun as <- <-. by split_and!.
  - cbn [transpileRef] in Hrun.
    destruct object as [| | | | |address];
      try (injection Hrun as <- <-; split_and!; try done;
           intros ? [= <-]; apply empty_subseteq).
    destruct (h !! address) as [[items|entries]|] eqn:Hcell.
    + destruct (mapItems (transpileRef fuel) items h) as [h1 [items'|e]] eqn:Hitems.
      * destruct (mapItems_builds _ IH items base h h1 _ Hbase Hbuilt Hitems)
          as (Hsub1 & Hbuilt1 & Hvs).
        specialize (Hvs _ eq_refl).
        assert (Hbase1 : dom base ⊆ dom h1)
          by (etrans; [done | by apply subseteq_dom]).
        destruct (alloc (CArray items') h1) as [h2 array] eqn:Halloc.
        eapply (alloc_built base) in Halloc as (Hsub2 & Hbuilt2 & Ha);
          [|done|done|by apply refsOfCell_within].
        injection Hrun as <- <-. split_and!; [by etrans | done |].
        by intros ? [= <-].
      * destruct (mapItems_builds _ IH items base h h1 _ Hbase Hbuilt Hitems)
          as (Hsub1 & Hbuilt1 & _).
        injection Hrun as <- <-. by split_and!.
    + destruct (alloc (CObject []) h) as [h0 empty] eqn:Halloc.
      eapply (alloc_built base) in Halloc as (Hsub0 & Hbuilt0 & He);
        [|done|done|apply empty_subseteq].
      assert (Hbase0 : dom base ⊆ dom h0)
        by (etrans; [done | by apply subseteq_dom]).
      destruct (reduceEntries_builds _ IH entries base empty h0 h' outcome
                  Hbase0 Hbuilt0 He Hrun) as (Hsub & ? & ?).
      split_and!; try done. by etrans.
    + injection Hrun as <- <-. by split_and!.
Qed.

End Allocation.

(** *** The caller's cells across a compile *)

Section Frame.

Variable Host : Type.
Variable known : Host -> gset nat.
Variable numberToString : float -> string.
Variable parse : Collaborator Host.

(** The store the call starts from, and the cells its context gives access
    to. *)
Variable base : Heap.
Variable A0 : gset nat.

(** Where a compile stands: the cells of [base] outside [A0] are as they
    were, and what the collaborators may reach, [K], is a closed region
    that holds none of them. *)
Record Kept (h : Heap) (host : Host) (K : gset nat) : Prop := {
  kept_cells : forall address,
    address ∈ dom base -> address ∉ A0 -> h !! address = base !! address;
  kept_dom : dom base ⊆ dom h;
  kept_closed : closed h K;
  kept_known : known host ⊆ K;
  kept_apart : K ∩ dom base ⊆ A0;
}.

Lemma closed_extend h h' K : closed h K -> h ⊆ h' -> closed h' K.
Proof.
  intros [Hdom Hrefs] Hsub. split.
  - etrans; [done | by apply subseteq_dom].
  - intros address cell Hin Hcell.
    assert (is_Some (h !! address)) as [cell' Hcell']
      by (apply elem_of_dom; set_solver).
    rewrite (lookup_weaken _ _ _ _ Hcell' Hsub) in Hcell.
    injection Hcell as <-. by eapply Hrefs.
Qed.

Lemma Kept_extend h h' host K :
  Kept h host K -> h ⊆ h' -> Kept h' host K.
Proof.
  intros [Hcells Hdom Hclosed Hknown Hapart] Hsub. split; try done.
  - intros address Hin Hout. rewrite <- (Hcells address Hin Hout).
    assert (is_Some (h !! address)) as [cell Hcell]
      by (apply elem_of_dom; set_solver).
    rewrite Hcell. by eapply lookup_weaken.
  - etrans; [done | by apply subseteq_dom].
  - by eapply closed_extend.
Qed.

(** A cell made by the orchestrator out of reachable values joins the
    region. *)
Lemma Kept_alloc cell h h' v host K :
  Kept h host K -> refsOfCell cell ⊆ K ->
  alloc cell h = (h', v) ->
  Kept h' host (K ∪ refsOfValue v) /\ h ⊆ h'.
Proof.
  intros HK Hcell (address & -> & Hfresh & ->)%alloc_inv.
  assert (Hsub : h ⊆ <[address := cell]> h)
    by (apply insert_subseteq; by apply not_elem_of_dom).
  split; [|done].
  destruct (Kept_extend _ _ _ _ HK Hsub) as [Hcells Hdom [HKdom Hrefs] Hknown Hapart].
  cbn [refsOfValue]. split; try done.
  - split.
    + rewrite dom_insert_L. rewrite dom_insert_L in HKdom. set_solver.
    + intros a c Ha Hc. destruct (decide (address = a)) as [->|Hne].
      * rewrite lookup_insert_eq in Hc. injection Hc as <-. set_solver.
      * transitivity K; [|set_solver]. eapply Hrefs; [|done]. set_solver.
  - set_solver.
  - destruct HK as [_ Hdom0 _ _ _]. set_solver.
Qed.

(** The cells the desugarer makes join the region. *)
Lemma Kept_transpileRef fuel rules h h' host K outcome :
  Kept h host K ->
  transpileRef fuel rules h = (h', outcome) ->
  Kept h' host (K ∪ (dom h' ∖ dom h))
  /\ forall v, outcome = Return v -> refsOfValue v ⊆ K ∪ (dom h' ∖ dom h).
Proof.
  intros HK Hrun.
  destruct (transpileRef_builds fuel h rules h h' outcome) as (Hsub & Hbuilt & Hv);
    [done | apply built_refl | done |].
  split; [|intros v ->; specialize (Hv _ eq_refl); set_solver].
  destruct (Kept_extend _ _ _ _ HK Hsub) as [Hcells Hdom [HKdom Hrefs] Hknown Hapart].
  split; try done.
  - split; [set_solver|].
    intros a c [Ha|Ha]%elem_of_union Hc.
    + transitivity K; [by eapply Hrefs | set_solver].
    + transitivity (dom h' ∖ dom h); [|set_solver].
      eapply Hbuilt; [done | set_solver].
  - set_solver.
  - destruct HK as [_ Hdom0 _ _ _]. set_solver.
Qed.

(** A confined collaborator moves the compile to a larger region. *)
Lemma Kept_collaborator collaborator args h host K h' host' outcome :
  Confined Host known collaborator ->
  Kept h host K ->
  ⋃ (refsOfValue <$> args) ⊆ K ->
  collaborator args host h = (h', host', outcome) ->
  exists K',
    K ⊆ K' /\ Kept h' host' K'
    /\ forall v, outcome = Return v -> refsOfValue v ⊆ K'.
Proof.
  intros Hconf [Hcells Hdom Hclosed Hknown Hapart] Hargs Hrun.
  specialize (Hconf K args host h Hclosed Hknown Hargs). rewrite Hrun in Hconf.
  destruct Hconf as (Hframe & Hgrow & K' & HKK' & Hold & Hclosed' & Hknown' & Hv).
  exists K'. split_and!; try done. split; try done.
  - intros address Hin Hout. rewrite <- (Hcells address Hin Hout).
    apply Hframe; set_solver.
  - set_solver.
  - set_solver.
Qed.

Lemma parseRules_kept entries :
  Confined Host known parse ->
  forall h host K h' host' outcome,
  Kept h host K ->
  within K entries.*2 ->
  parseRules Host numberToString parse entries host h = (h', host', outcome) ->
  exists K', K ⊆ K' /\ Kept h' host' K'.
Proof.
  intros parse_confined.
  induction entries as [|[dottedName rule] rest IH];
    intros h host K h' host' outcome HK Hentries Hrun.
  - injection Hrun as <- <- <-. by exists K.
  - rewrite fmap_cons in Hentries. apply Forall_cons in Hentries as [Hrule Hrest].
    cbn [parseRules fst snd] in Hrun.
    assert (Hnormal : exists h1 rule1 K1,
      match rule with
      | VString s => alloc (CObject [("formule", VString s)]) h
      | VNumber n => alloc (CObject [("formule", VString (numberToString n))]) h
      | _ => (h, rule)
      end = (h1, rule1)
      /\ K ⊆ K1 /\ Kept h1 host K1 /\ refsOfValue rule1 ⊆ K1).
    { destruct rule as [| | |n|s|address];
        try (eexists _, _, K; split_and!; [reflexivity|done..]).
      - destruct (alloc (CObject [("formule", VString (numberToString n))]) h)
          as [h1 rule1] eqn:Halloc.
        eapply Kept_alloc in Halloc as [HK1 _]; [|done|].
        + eexists _, _, _. split_and!; [reflexivity| |done|]; set_solver.
        + apply refsOfCell_within. repeat constructor. apply empty_subseteq.
      - destruct (alloc (CObject [("formule", VString s)]) h)
          as [h1 rule1] eqn:Halloc.
        eapply Kept_alloc in Halloc as [HK1 _]; [|done|].
        + eexists _, _, _. split_and!; [reflexivity| |done|]; set_solver.
        + apply refsOfCell_within. repeat constructor. apply empty_subseteq. }
    destruct Hnormal as (h1 & rule1 & K1 & Hnormal & HKK1 & HK1 & Hrule1).
    rewrite Hnormal in Hrun.
    destruct (negb (typeofObject rule1)).
    { injection Hrun as <- <- <-. by exists K1. }
    destruct (alloc (CObject (JSObject.assign [("nom", VString dottedName)]
                                (spread h1 rule1))) h1) as [h2 named] eqn:Hnamed.
    eapply Kept_alloc in Hnamed as [HK2 _]; [|done|].
    2:{ apply refsOfCell_within. apply assign_within.
        - repeat constructor. apply empty_subseteq.
        - apply spread_within. intros address cell -> Hcell.
          destruct HK1 as [_ _ [_ Hrefs] _ _]. eapply Hrefs; [|done].
          cbn [refsOfValue] in Hrule1. set_solver. }
    destruct (parse [named] host h2) as [[h3 host3] parsed] eqn:Hparse.
    eapply Kept_collaborator in Hparse as (K3 & HKK3 & HK3 & _); [|done|done|].
    2:{ cbn. set_solver. }
    assert (Hrest3 : within K3 rest.*2).
    { eapply within_mono; [|done]. set_solver. }
    destruct parsed as [?|e].
    + destruct (IH _ _ _ _ _ _ HK3 Hrest3 Hrun) as (K' & HKK' & HK').
      exists K'. split; [set_solver | done].
    + injection Hrun as <- <- <-. exists K3. split; [set_solver | done].
Qed.

End Frame.

Section Preservation.

Variable Host : Type.
Variable known : Host -> gset nat.
Variable numberToString : float -> string.
Variables yamlParse parse linkRules : Collaborator Host.

Hypothesis yamlParse_confined : Confined Host known yamlParse.
Hypothesis parse_confined : Confined Host known parse.
Hypothesis linkRules_confined : Confined Host known linkRules.

Lemma Kept_start h host :
  closed h (known host) -> Kept Host known h (known host) h host (known host).
Proof.
  intros Hclosed. split; try done. set_solver.
Qed.

Lemma ownEntries_within h v K entries :
  closed h K -> refsOfValue v ⊆ K ->
  ownEntries h v = Some entries -> within K entries.*2.
Proof.
  intros [_ Hrefs] Hv Hentries.
  assert (within K (spread h v).*2) as Hspread.
  { apply spread_within. intros address cell -> Hcell. eapply Hrefs; [|done].
    cbn [refsOfValue] in Hv. set_solver. }
  unfold spread in Hspread. by rewrite Hentries in Hspread.
Qed.

(** Reading a structure gives the same result in a store that only has
    more cells. *)
Lemma reify_extend fuel : forall h h' v tree,
  h ⊆ h' -> reify fuel h v = Some tree -> reify fuel h' v = Some tree.
Proof.
  induction fuel as [|fuel IH]; intros h h' v tree Hsub;
    destruct v as [| | | | |address]; cbn [reify]; try done.
  destruct (h !! address) as [cell|] eqn:Hcell; [|done].
  rewrite (lookup_weaken _ _ _ _ Hcell Hsub).
  destruct cell as [items|entries].
  - destruct (mapM (reify fuel h) items) as [trees|] eqn:Hitems; [|done].
    intros [= <-]. apply mapM_Some in Hitems.
    assert (mapM (reify fuel h') items = Some trees) as ->; [|done].
    apply mapM_Some. eapply Forall2_impl; [exact Hitems|]. intros ? ?. by apply IH.
  - destruct (mapM (fun kv => pair kv.1 <$> reify fuel h kv.2) entries)
      as [trees|] eqn:Hentries; [|done].
    intros [= <-]. apply mapM_Some in Hentries.
    assert (mapM (fun kv => pair kv.1 <$> reify fuel h' kv.2) entries = Some trees)
      as ->; [|done].
    apply mapM_Some. eapply Forall2_impl; [exact Hentries|].
    intros [k v] [k' t]. cbn.
    destruct (reify fuel h v) as [t'|] eqn:Hv; [|done].
    by rewrite (IH _ _ _ _ Hsub Hv).
Qed.

Lemma ingest_kept base A0 rawRules h host K h1 host1 rules :
  Kept Host known base A0 h host K ->
  ingest Host yamlParse rawRules host h = (h1, host1, rules) ->
  exists K1, Kept Host known base A0 h1 host1 K1.
Proof.
  intros HK Hrun. unfold ingest in Hrun.
  assert (Hcopy : forall cell,
    (let '(h1, copy) := alloc cell h in (h1, host, Return copy)) = (h1, host1, rules) ->
    exists K1, Kept Host known base A0 h1 host1 K1).
  { intros cell Hcopy. destruct (alloc cell h) as [h1' copy] eqn:Halloc.
    injection Hcopy as <- <- <-.
    apply alloc_inv in Halloc as (address & -> & Hfresh & ->).
    exists K. eapply Kept_extend; [done|].
    apply insert_subseteq. by apply not_elem_of_dom. }
  destruct rawRules as [| | | |text|address]; try by eapply Hcopy.
  destruct (Kept_collaborator Host known base A0 yamlParse
              [VString (replaceTabs text)] h host K h1 host1 rules)
    as (K1 & _ & HK1 & _); try done.
  by exists K1.
Qed.

(** C10: whatever a compile does, returning or throwing, every cell that
    existed before the call and that the collaborators could not already
    reach through the context is left with the content it had: the input
    is copied, the desugarer builds its result out of new cells only, and
    the collaborators are handed nothing but those. With a context that
    reaches no raw data, as the default one, the input reads the same
    afterwards at every depth. *)
Theorem parsePublicodes_preserves_input
    (fuel : nat) (rawRules : Value) (host host' : Host) (h h' : Heap)
    (outcome : Completion Value) :
  closed h (known host) ->
  parsePublicodes Host numberToString yamlParse parse linkRules fuel rawRules host h
  = (h', host', outcome) ->
  (forall address,
      address ∈ dom h -> address ∉ known host -> h' !! address = h !! address)
  /\ (known host = ∅ ->
      forall depth tree,
        reify depth h rawRules = Some tree -> reify depth h' rawRules = Some tree).
Proof.
  intros Hclosed Hrun.
  assert (Hkept : exists K, Kept Host known h (known host) h' host' K).
  { pose proof (Kept_start h host Hclosed) as HK0.
    unfold parsePublicodes in Hrun.
    destruct (ingest Host yamlParse rawRules host h) as [[h1 host1] rules] eqn:Hingest.
    destruct (ingest_kept _ _ _ _ _ _ _ _ _ HK0 Hingest) as [K1 HK1].
    destruct rules as [rules|e]; [|injection Hrun as <- <- <-; by exists K1].
    destruct (transpileRef fuel rules h1) as [h2 transpiled] eqn:Htranspile.
    destruct (Kept_transpileRef Host known _ _ _ _ _ _ _ _ _ HK1 Htranspile)
      as [HK2 Hv].
    destruct transpiled as [rules'|e]; [|injection Hrun as <- <- <-; by eexists].
    specialize (Hv _ eq_refl).
    destruct (ownEntries h2 rules') as [entries|] eqn:Hentries;
      [|injection Hrun as <- <- <-; by eexists].
    assert (Hwithin : within (K1 ∪ (dom h2 ∖ dom h1)) entries.*2).
    { eapply ownEntries_within; [|done|done]. by destruct HK2. }
    destruct (parseRules Host numberToString parse entries host1 h2)
      as [[h3 host3] parsed] eqn:Hparse.
    destruct (parseRules_kept Host known numberToString parse _ _ entries
                parse_confined _ _ _ _ _ _ HK2 Hwithin Hparse) as (K3 & _ & HK3).
    destruct parsed as [?|e]; [|injection Hrun as <- <- <-; by eexists].
    destruct (Kept_collaborator Host known h (known host) linkRules
                [] h3 host3 K3 h' host' outcome) as (K4 & _ & HK4 & _); try done.
    by exists K4. }
  destruct Hkept as [K [Hcells Hdom _ _ _]]. split; [done|].
  intros Hnone depth tree. apply reify_extend.
  apply map_subseteq_spec. intros address cell Hcell.
  rewrite Hcells; [done | by apply elem_of_dom; eexists | rewrite Hnone; set_solver].
Qed.

End Preservation.

Lemma idle_confined : Confined unit (fun _ => ∅) idle.
Proof.
  intros K args host h Hclosed Hknown Hargs. cbn. split_and!; try done.
  exists K. split_and!; try done.
  - apply intersection_subseteq_l.
  - intros v [= <-]. apply empty_subseteq.
Qed.

Lemma marking_confined : Confined unit (fun _ => ∅) marking.
Proof.
  intros K args host h Hclosed Hknown Hargs.
  assert (Hidle : let '(h', host', outcome) := idle args host h in
    (forall address, address ∈ dom h -> address ∉ K -> h' !! address = h !! address)
    /\ dom h ⊆ dom h'
    /\ exists K',
         K ⊆ K' /\ K' ∩ dom h ⊆ K /\ closed h' K' /\ (∅ : gset nat) ⊆ K'
         /\ forall v, outcome = Return v -> refsOfValue v ⊆ K')
    by by apply idle_confined.
  destruct args as [|[| | | | |address] [|]]; try exact Hidle.
  cbn in Hargs |- *. assert (address ∈ K) as Hin by set_solver.
  destruct Hclosed as [Hdom Hrefs]. split_and!.
  - intros a Ha Hout. rewrite lookup_insert_ne; [done|]. by intros ->.
  - rewrite dom_insert_L. set_solver.
  - exists K. split_and!; try done.
    + set_solver.
    + split; [rewrite dom_insert_L; set_solver|].
      intros a cell Ha Hcell. destruct (decide (address = a)) as [->|Hne].
      * rewrite lookup_insert_eq in Hcell. injection Hcell as <-. cbn. set_solver.
      * rewrite lookup_insert_ne in Hcell by done. by eapply Hrefs.
    + intros v [= <-]. apply empty_subseteq.
Qed.

Lemma parsePublicodes_preserves_input_witness :
  let '(h', _, outcome) :=
    parsePublicodes unit (fun _ => "5") idle marking idle 5 (VRef 0) tt sampleHeap in
  returns outcome
  /\ h' !! 10 = Some (CObject [("seen", VBool true)])
  /\ reify 5 h' (VRef 0)
     = Some (RObject [("a", RObject [("b[ref]", RArray [RNumber 1])])]).
Proof.
  destruct (parsePublicodes unit (fun _ => "5") idle marking idle 5 (VRef 0) tt
              sampleHeap) as [[h' host'] outcome] eqn:Hrun.
  split_and!.
  - vm_compute in Hrun. injection Hrun as _ _ <-. unfold returns. by eexists.
  - vm_compute in Hrun. injection Hrun as <- _ _. by vm_compute.
  - eapply (parsePublicodes_preserves_input unit (fun _ => ∅) (fun _ => "5")
              idle marking idle idle_confined marking_confined idle_confined
              5 (VRef 0) tt host' sampleHeap h' outcome).
    + split; [apply empty_subseteq | by intros ? ? ?%not_elem_of_empty].
    + exact Hrun.
    + reflexivity.
    + reflexivity.
Defined.

(** *** The store model against the model by value *)

Section Related.

Context {A B : Type} (R : A -> B -> Prop).

(** Entries with the same keys and related values. *)
Definition relatedEntries : list (string * A) -> list (string * B) -> Prop :=
  Forall2 (fun x y => x.1 = y.1 /\ R x.2 y.2).

Lemma related_has obj tobj key :
  relatedEntries obj tobj -> JSObject.has obj key = JSObject.has tobj key.
Proof.
  unfold JSObject.has. induction 1 as [|[k v] [k' t] obj tobj [Hk _] _ IH]; [done|].
  cbn in Hk. subst k'. cbn [JSObject.get]. by destruct (String.eqb k key).
Qed.

Lemma related_replace obj tobj key v t :
  relatedEntries obj tobj -> R v t ->
  relatedEntries (JSObject.replace obj key v) (JSObject.replace tobj key t).
Proof.
  intros Hobj Hv. induction Hobj as [|[k x] [k' y] obj tobj [Hk Hxy] Hrest IH];
    [constructor|].
  cbn in Hk. subst k'. cbn [JSObject.replace].
  destruct (String.eqb k key); by constructor.
Qed.

Lemma related_insertIndex i obj tobj key v t :
  relatedEntries obj tobj -> R v t ->
  relatedEntries (JSObject.insertIndex i key v obj) (JSObject.insertIndex i key t tobj).
Proof.
  intros Hobj Hv. induction Hobj as [|[k x] [k' y] obj tobj [Hk Hxy] Hrest IH].
  - by repeat constructor.
  - cbn in Hk. subst k'. cbn [JSObject.insertIndex].
    destruct (JSString.arrayIndex k) as [j|]; [destruct (j <=? i)%N|];
      repeat (constructor; try done).
Qed.

Lemma related_set obj tobj key v t :
  relatedEntries obj tobj -> R v t ->
  relatedEntries (JSObject.set obj key v) (JSObject.set tobj key t).
Proof.
  intros Hobj Hv. unfold JSObject.set. rewrite (related_has _ _ key Hobj).
  destruct (JSObject.has tobj key); [by apply related_replace|].
  destruct (JSString.arrayIndex key); [by apply related_insertIndex|].
  apply Forall2_app; [done|]. by repeat constructor.
Qed.

End Related.

Section Refinement.

Lemma reify_ref depth h address :
  reify (S depth) h (VRef address)
  = match h !! address with
    | Some (CArray items) => RArray <$> mapM (reify depth h) items
    | Some (CObject entries) =>
        RObject <$> mapM (fun kv => pair kv.1 <$> reify depth h kv.2) entries
    | None => None
    end.
Proof. reflexivity. Qed.

Lemma reify_string depth h s : reify depth h (VString s) = Some (RString s).
Proof. by destruct depth. Qed.

Lemma reify_fuel depth : forall h v tree,
  reify depth h v = Some tree -> reify (S depth) h v = Some tree.
Proof.
  induction depth as [|depth IH]; intros h v tree;
    destruct v as [| | | | |address]; try done.
  rewrite !reify_ref. destruct (h !! address) as [[items|entries]|]; [| |done].
  - destruct (mapM (reify depth h) items) as [trees|] eqn:Hitems; [|done].
    intros [= <-]. apply mapM_Some in Hitems.
    assert (mapM (reify (S depth) h) items = Some trees) as ->; [|done].
    apply mapM_Some. eapply Forall2_impl; [exact Hitems|]. intros ? ?. by apply IH.
  - destruct (mapM (fun kv => pair kv.1 <$> reify depth h kv.2) entries)
      as [trees|] eqn:Hentries; [|done].
    intros [= <-]. apply mapM_Some in Hentries.
    assert (mapM (fun kv => pair kv.1 <$> reify (S depth) h kv.2) entries = Some trees)
      as ->; [|done].
    apply mapM_Some. eapply Forall2_impl; [exact Hentries|].
    intros [k v] [k' t]. cbn [fst snd].
    destruct (reify depth h v) as [t'|] eqn:Hv; [|done].
    by rewrite (IH _ _ _ Hv).
Qed.

Lemma reify_le depth depth' h v tree :
  depth <= depth' -> reify depth h v = Some tree -> reify depth' h v = Some tree.
Proof.
  induction 1 as [|depth' _ IH]; [done|]. intros Hv. by apply reify_fuel, IH.
Qed.

Lemma reify_entries depth h entries trees :
  mapM (fun kv => pair kv.1 <$> reify depth h kv.2) entries = Some trees
  <-> relatedEntries (fun v t => reify depth h v = Some t) entries trees.
Proof.
  rewrite mapM_Some. unfold relatedEntries. split; intros Hall;
    (eapply Forall2_impl; [exact Hall|]); intros [k v] [k' t]; cbn.
  - destruct (reify depth h v); [|done]. by intros [= -> ->].
  - by intros [-> ->].
Qed.

Lemma reify_object depth h address entries trees :
  h !! address = Some (CObject entries) ->
  relatedEntries (fun v t => reify depth h v = Some t) entries trees ->
  reify (S depth) h (VRef address) = Some (RObject trees).
Proof.
  intros Hcell Hentries. rewrite reify_ref, Hcell.
  apply reify_entries in Hentries. by rewrite Hentries.
Qed.

Lemma related_weaken depth depth' h h' entries trees :
  depth <= depth' -> h ⊆ h' ->
  relatedEntries (fun v t => reify depth h v = Some t) entries trees ->
  relatedEntries (fun v t => reify depth' h' v = Some t) entries trees.
Proof.
  intros Hle Hsub Hall. eapply Forall2_impl; [exact Hall|].
  intros [k v] [k' t] [Hk Hv]. split; [done|].
  eapply reify_le; [done|]. by eapply reify_extend.
Qed.

End Refinement.

End Store.

(** *** The desugarer in the store computes the desugarer by value *)

Section StoreRefinement.

(** [fn] computes, in the store, what [transpileRef] computes by value on
    the data that is [depth] levels deep. *)
Definition Refines (fn : Store.Value -> Store.Heap -> Store.Heap * Completion Store.Value) (depth : nat) : Prop :=
  forall h v tree,
    Store.reify depth h v = Some tree ->
    exists h' v' depth',
      fn v h = (h', Return v') /\ h ⊆ h'
      /\ Store.reify depth' h' v' = Some (transpileRef tree).

Lemma mapItems_refines fn depth :
  Refines fn depth ->
  forall items trees h,
    Forall2 (fun v t => Store.reify depth h v = Some t) items trees ->
    exists h' items' depth',
      Store.mapItems fn items h = (h', Return items') /\ h ⊆ h'
      /\ Forall2 (fun v t => Store.reify depth' h' v = Some t) items' (map transpileRef trees).
Proof.
  intros Hfn. induction items as [|item items IH]; intros trees h Hall.
  - apply Forall2_nil_inv_l in Hall as ->. exists h, [], 0. by split_and!.
  - apply Forall2_cons_inv_l in Hall as (tree & rest & Hitem & Hrest & ->).
    destruct (Hfn h item tree Hitem) as (h1 & item' & d1 & Hrun1 & Hsub1 & Hitem').
    destruct (IH rest h1) as (h2 & items' & d2 & Hrun2 & Hsub2 & Hitems').
    { eapply Forall2_impl; [exact Hrest|]. intros ? ? ?. by eapply Store.reify_extend. }
    exists h2, (item' :: items'), (d1 `max` d2). cbn [Store.mapItems map].
    rewrite Hrun1, Hrun2. split_and!; [done | by etrans |]. constructor.
    + eapply Store.reify_le; [apply Nat.le_max_l|]. by eapply Store.reify_extend.
    + eapply Forall2_impl; [exact Hitems'|]. intros ? ? ?.
      eapply Store.reify_le; [apply Nat.le_max_r | done].
Qed.

Lemma alloc_lookup cell h :
  exists address,
    Store.alloc cell h = (<[address := cell]> h, Store.VRef address)
    /\ h ⊆ <[address := cell]> h
    /\ <[address := cell]> h !! address = Some cell.
Proof.
  exists (fresh (dom h)). split_and!; [done| |by rewrite lookup_insert_eq].
  apply insert_subseteq, not_elem_of_dom, is_fresh.
Qed.

Lemma spread_object h address entries :
  h !! address = Some (Store.CObject entries) ->
  Store.spread h (Store.VRef address) = entries.
Proof. intros Hcell. unfold Store.spread. cbn. by rewrite Hcell. Qed.

Lemma reduceEntries_refines fn depth :
  Refines fn depth ->
  forall entries trees h address obj tobj d0,
    Store.relatedEntries (fun v t => Store.reify depth h v = Some t) entries trees ->
    h !! address = Some (Store.CObject obj) ->
    Store.relatedEntries (fun v t => Store.reify d0 h v = Some t) obj tobj ->
    exists h' v' depth',
      Store.reduceEntries fn entries (Store.VRef address) h = (h', Return v')
      /\ h ⊆ h'
      /\ Store.reify depth' h' v' = Some (RObject (transpileEntries trees tobj)).
Proof.
  intros Hfn. induction entries as [|[key value] entries IH];
    intros trees h address obj tobj d0 Hentries Hcell Hobj.
  - apply Forall2_nil_inv_l in Hentries as ->. exists h, (Store.VRef address), (S d0).
    split_and!; [done | done |]. by eapply Store.reify_object.
  - apply Forall2_cons_inv_l in Hentries as ([key' tvalue] & rest & [Hk Hv] & Hrest & ->).
    cbn in Hk, Hv. subst key'. cbn [Store.reduceEntries transpileEntries].
    destruct (Hfn h value tvalue Hv) as (h1 & value' & d1 & Hrun1 & Hsub1 & Hvalue').
    rewrite Hrun1. unfold transpileEntry.
    pose proof (lookup_weaken _ _ _ _ Hcell Hsub1) as Hcell1.
    destruct (execRef key) as [m|].
    + destruct (alloc_lookup
                  (Store.CObject
                     [("nom", Store.VString
                                (argumentNameOf m
                                   (JSString.trim (JSString.removeFirst (match0 m) key))));
                      ("valeur", value')]) h1)
        as (a2 & -> & Hsub2 & Hnamed).
      set (h2 := <[a2 := _]> h1) in *.
      pose proof (lookup_weaken _ _ _ _ Hcell1 Hsub2) as Hcell2.
      rewrite (spread_object _ _ _ Hcell2).
      destruct (alloc_lookup
                  (Store.CObject
                     (JSObject.set obj
                        (JSString.trim (JSString.removeFirst (match0 m) key))
                        (Store.VRef a2))) h2)
        as (a3 & -> & Hsub3 & Hacc).
      set (h3 := <[a3 := _]> h2) in *.
      assert (Hsub13 : h1 ⊆ h3) by by etrans.
      assert (Hrest3 : Store.relatedEntries
                (fun v t => Store.reify depth h3 v = Some t) entries rest).
      { eapply Store.related_weaken; [done| |exact Hrest]. by etrans. }
      assert (Hnamed3 : Store.reify (S d1) h3 (Store.VRef a2)
                = Some (RObject [("nom", RString
                                    (argumentNameOf m
                                       (JSString.trim
                                          (JSString.removeFirst (match0 m) key))));
                                 ("valeur", transpileRef tvalue)])).
      { eapply Store.reify_extend; [exact Hsub3|].
        eapply Store.reify_object; [exact Hnamed|].
        repeat constructor; try done; cbn [fst snd].
        - apply Store.reify_string.
        - by eapply Store.reify_extend. }
      assert (Hobj3 : Store.relatedEntries
                (fun v t => Store.reify (d0 `max` S d1) h3 v = Some t)
                (JSObject.set obj
                   (JSString.trim (JSString.removeFirst (match0 m) key))
                   (Store.VRef a2))
                (JSObject.set tobj
                   (JSString.trim (JSString.removeFirst (match0 m) key))
                   (RObject [("nom", RString
                                (argumentNameOf m
                                   (JSString.trim
                                      (JSString.removeFirst (match0 m) key))));
                             ("valeur", transpileRef tvalue)]))).
      { apply Store.related_set.
        - eapply Store.related_weaken; [apply Nat.le_max_l| |exact Hobj]. by etrans.
        - eapply Store.reify_le; [apply Nat.le_max_r | done]. }
      destruct (IH _ _ _ _ _ _ Hrest3 Hacc Hobj3) as (h' & v' & d' & Hrun & Hsub & Hv').
      exists h', v', d'. split_and!; [done | | done].
      by repeat (etrans; [eassumption|]).
    + rewrite (spread_object _ _ _ Hcell1).
      destruct (alloc_lookup (Store.CObject (JSObject.set obj key value')) h1)
        as (a2 & -> & Hsub2 & Hacc).
      set (h2 := <[a2 := _]> h1) in *.
      assert (Hrest2 : Store.relatedEntries
                (fun v t => Store.reify depth h2 v = Some t) entries rest).
      { eapply Store.related_weaken; [done| |exact Hrest]. by etrans. }
      assert (Hobj2 : Store.relatedEntries
                (fun v t => Store.reify (d0 `max` d1) h2 v = Some t)
                (JSObject.set obj key value')
                (JSObject.set tobj key (transpileRef tvalue))).
      { apply Store.related_set.
        - eapply Store.related_weaken; [apply Nat.le_max_l| |exact Hobj]. by etrans.
        - eapply Store.reify_le; [apply Nat.le_max_r|]. by eapply Store.reify_extend. }
      destruct (IH _ _ _ _ _ _ Hrest2 Hacc Hobj2) as (h' & v' & d' & Hrun & Hsub & Hv').
      exists h', v', d'. split_and!; [done | | done].
      by repeat (etrans; [eassumption|]).
Qed.

Lemma Store_transpileRef_unfold fuel object h :
  Store.transpileRef (S fuel) object h
  = match object with
    | Store.VRef address =>
        match h !! address with
        | Some (Store.CArray items) =>
            match Store.mapItems (Store.transpileRef fuel) items h with
            | (h1, Return items') =>
                let '(h2, array) := Store.alloc (Store.CArray items') h1 in
                (h2, Return array)
            | (h1, Throw e) => (h1, Throw e)
            end
        | Some (Store.CObject entries) =>
            let '(h0, empty) := Store.alloc (Store.CObject []) h in
            Store.reduceEntries (Store.transpileRef fuel) entries empty h0
        | None => (h, Throw TypeError)
        end
    | _ => (h, Return object)
    end.
Proof. reflexivity. Qed.

(** On data nested no deeper than the fuel allows, the desugarer of the
    store model returns a reference to the very structure that
    [transpileRef] computes by value. *)
Lemma Store_transpileRef_refines depth :
  Refines (Store.transpileRef (S depth)) depth.
Proof.
  induction depth as [|depth IH]; intros h v tree Hv.
  - destruct v; try done; injection Hv as <-; eexists h, _, 0; by split_and!.
  - destruct v as [| | | | |address];
      try (injection Hv as <-; eexists h, _, 0; by split_and!).
    rewrite Store.reify_ref in Hv. rewrite Store_transpileRef_unfold.
    destruct (h !! address) as [[items|entries]|] eqn:Hcell; [| |done].
    + destruct (mapM (Store.reify depth h) items) as [trees|] eqn:Hitems; [|done].
      injection Hv as <-. apply mapM_Some in Hitems.
      destruct (mapItems_refines _ _ IH items trees h Hitems)
        as (h1 & items' & d1 & -> & Hsub1 & Hitems').
      destruct (alloc_lookup (Store.CArray items') h1) as (a2 & -> & Hsub2 & Harray).
      eexists _, _, (S d1). split_and!; [done | by etrans |].
      rewrite Store.reify_ref, Harray.
      assert (mapM (Store.reify d1 (<[a2 := Store.CArray items']> h1)) items'
              = Some (map transpileRef trees)) as ->; [|done].
      apply mapM_Some. eapply Forall2_impl; [exact Hitems'|].
      intros ? ? ?. by eapply Store.reify_extend.
    + destruct (mapM (fun kv => pair kv.1 <$> Store.reify depth h kv.2) entries)
        as [trees|] eqn:Hentries; [|done].
      injection Hv as <-. apply Store.reify_entries in Hentries.
      destruct (alloc_lookup (Store.CObject []) h) as (a0 & -> & Hsub0 & Hempty).
      set (h0 := <[a0 := _]> h) in *.
      destruct (reduceEntries_refines _ _ IH entries trees h0 a0 [] [] 0)
        as (h' & v' & d' & Hrun & Hsub & Hv'); [|exact Hempty|constructor|].
      * eapply Store.related_weaken; [done|exact Hsub0|exact Hentries].
      * exists h', v', d'. split_and!; [done | by etrans | done].
Qed.

End StoreRefinement.

(** * Further properties of the passes

    Each pass once more, in the order of the pipeline: what it does on the
    edges of its domain, what it keeps, and what it never does. *)

(** ** Further properties of the desugarer *)

(** The key under which [transpileRef] files the entry of [key], and the
    value it files there, [value'] being the desugared value. *)
Definition desugaredKey (key : string) : string :=
  match execRef key with
  | None => key
  | Some m => JSString.trim (JSString.removeFirst (match0 m) key)
  end.

Definition desugaredValue (key : string) (value' : Raw) : Raw :=
  match execRef key with
  | None => value'
  | Some m =>
      RObject [("nom", RString (argumentNameOf m (desugaredKey key)));
               ("valeur", value')]
  end.

(** [refFree t]: the text ["[ref"] occurs nowhere in [t]. *)
Definition refFree (t : string) : Prop :=
  forall pre post, t <> pre +:+ ("[ref" +:+ post).

(** [{ "a": 1, "b [ref]": 2, "a[ref x]": 3 }]: the first and the last key
    are filed under the same name. *)
Definition collidingKeys : Obj :=
  [("a", RNumber 1); ("b [ref]", RNumber 2); ("a[ref x]", RNumber 3)].

Section Strings.

Lemma append_cons c (a b : string) : String c a +:+ b = String c (a +:+ b).
Proof. reflexivity. Qed.

Lemma append_nil_r (a : string) : a +:+ "" = a.
Proof. induction a as [|x a IH]; [done|]. by rewrite append_cons, IH. Qed.

Lemma stripPrefix_Some p : forall s rest,
  JSString.stripPrefix p s = Some rest <-> s = p +:+ rest.
Proof.
  induction p as [|a p IH]; intros s rest; cbn.
  - split; [by intros [= ->] | by intros ->].
  - rewrite append_cons. destruct s as [|b s]; [done|].
    destruct (Ascii.eqb_spec a b) as [->|Hne].
    + rewrite IH. split; [by intros -> | by intros [= ->]].
    + split; [done | intros [= ? ?]; done].
Qed.

Lemma stripPrefix_append p rest : JSString.stripPrefix p (p +:+ rest) = Some rest.
Proof. by apply stripPrefix_Some. Qed.

Lemma append_assoc (a b c : string) :
  (a +:+ b) +:+ c = a +:+ (b +:+ c).
Proof. induction a as [|x a IH]; [done|]. by rewrite !append_cons, IH. Qed.

Lemma length_append (a b : string) :
  String.length (a +:+ b) = String.length a + String.length b.
Proof. induction a as [|x a IH]; [done|]. rewrite append_cons. cbn. by rewrite IH. Qed.

(** [removeFirst] takes out exactly one occurrence when there is one. *)
Lemma removeFirst_length p : forall s pre post,
  s = pre +:+ (p +:+ post) ->
  String.length (JSString.removeFirst p s) + String.length p = String.length s.
Proof.
  induction s as [|c s IH]; intros pre post Hs.
  - destruct pre; [|done]. destruct p; [done|done].
  - cbn [JSString.removeFirst].
    destruct (JSString.stripPrefix p (String c s)) as [rest|] eqn:Hp.
    + apply stripPrefix_Some in Hp. rewrite Hp, length_append. lia.
    + destruct pre as [|c' pre].
      * change (String c s = p +:+ post) in Hs.
        rewrite Hs, stripPrefix_append in Hp. done.
      * rewrite append_cons in Hs. injection Hs as -> Hs.
        cbn [String.length]. rewrite <- (IH _ _ Hs). lia.
Qed.

Lemma trimStart_length s : String.length (JSString.trimStart s) <= String.length s.
Proof.
  induction s as [|c s IH]; cbn; [done|].
  destruct (JSString.isWhiteSpace c); cbn; lia.
Qed.

Lemma trimEnd_length s : String.length (JSString.trimEnd s) <= String.length s.
Proof.
  induction s as [|c s IH]; cbn; [done|].
  destruct (JSString.trimEnd s); [destruct (JSString.isWhiteSpace c)|]; cbn in *; lia.
Qed.

Lemma trim_length s : String.length (JSString.trim s) <= String.length s.
Proof.
  unfold JSString.trim. etrans; [apply trimEnd_length | apply trimStart_length].
Qed.

(** What [matchRefAt] accepts starts with ["[ref"]. *)
Lemma matchRefAt_Some s g :
  matchRefAt s = Some g -> exists rest, s = "[ref" +:+ rest.
Proof.
  unfold matchRefAt. destruct (JSString.stripPrefix "[ref" s) as [rest|] eqn:Hp; [|done].
  intros _. exists rest. by apply stripPrefix_Some.
Qed.

(** The matched text is a suffix of the key, and it starts with ["[ref"]. *)
Lemma execRef_Some key : forall m,
  execRef key = Some m ->
  exists pre rest,
    key = pre +:+ match0 m /\ match0 m = "[ref" +:+ rest
    /\ matchRefAt (match0 m) = Some (match2 m).
Proof.
  induction key as [|c key IH]; intros m; cbn [execRef].
  - destruct (matchRefAt "") as [g|] eqn:Hg; [|done].
    intros [= <-]. apply matchRefAt_Some in Hg as Hrest. destruct Hrest as [rest Hrest].
    exists "", rest. by split_and!.
  - destruct (matchRefAt (String c key)) as [g|] eqn:Hg.
    + intros [= <-]. apply matchRefAt_Some in Hg as Hrest. destruct Hrest as [rest Hrest].
      exists "", rest. by split_and!.
    + intros Hm. destruct (IH m Hm) as (pre & rest & -> & Hrest & Hat).
      exists (String c pre), rest. by split_and!.
Qed.

(** A shorthand key is filed under a strictly shorter key. *)
Lemma desugaredKey_shorter key :
  is_Some (execRef key) -> String.length (desugaredKey key) < String.length key.
Proof.
  intros [m Hm]. unfold desugaredKey. rewrite Hm.
  destruct (execRef_Some key m Hm) as (pre & rest & Hkey & Hrest & _).
  pose proof (removeFirst_length (match0 m) key pre "") as Hlen.
  rewrite append_nil_r in Hlen. specialize (Hlen Hkey).
  pose proof (trim_length (JSString.removeFirst (match0 m) key)).
  assert (4 <= String.length (match0 m))
    by (rewrite Hrest, length_append; cbn; lia).
  lia.
Qed.

End Strings.

Section Shorthand.

Lemma refFree_tail c t : refFree (String c t) -> refFree t.
Proof. intros Hfree pre post ->. by apply (Hfree (String c pre) post). Qed.

(** Before a bracket, a text free of ["[ref"] gives the pattern no place to
    start. *)
Lemma stripPrefix_refFree t s :
  refFree t -> t <> "" -> JSString.stripPrefix "[ref" (t +:+ String "[" s) = None.
Proof.
  intros Hfree Ht.
  destruct (JSString.stripPrefix "[ref" (t +:+ String "[" s)) as [r|] eqn:Hp; [|done].
  exfalso. apply stripPrefix_Some in Hp.
  destruct t as [|c1 [|c2 [|c3 [|c4 t]]]]; [done|..];
    rewrite ?append_cons in Hp; try (injection Hp; intros; discriminate).
  injection Hp as -> -> -> -> Hp. by apply (Hfree "" t).
Qed.

Lemma execRef_cons c rest :
  execRef (String c rest)
  = match matchRefAt (String c rest) with
    | Some g => Some {| match0 := String c rest; match2 := g |}
    | None => execRef rest
    end.
Proof. reflexivity. Qed.

Lemma execRef_refFree t s :
  refFree t -> execRef (t +:+ String "[" s) = execRef (String "[" s).
Proof.
  induction t as [|c t IH]; intros Hfree; [done|].
  rewrite (append_cons c t), execRef_cons. unfold matchRefAt.
  rewrite <- (append_cons c t), stripPrefix_refFree by done.
  apply IH. by eapply refFree_tail.
Qed.

Lemma removeFirst_self p : JSString.removeFirst p p = "".
Proof.
  assert (JSString.stripPrefix p p = Some "") as Hp
    by (apply stripPrefix_Some; by rewrite append_nil_r).
  destruct p; cbn [JSString.removeFirst]; by rewrite Hp.
Qed.

Lemma removeFirst_refFree t q :
  refFree t -> JSString.removeFirst ("[ref" +:+ q) (t +:+ ("[ref" +:+ q)) = t.
Proof.
  induction t as [|c t IH]; intros Hfree.
  - change ("" +:+ ("[ref" +:+ q)) with ("[ref" +:+ q).
    apply removeFirst_self.
  - rewrite (append_cons c t). cbn [JSString.removeFirst].
    destruct (JSString.stripPrefix ("[ref" +:+ q) (String c (t +:+ ("[ref" +:+ q))))
      as [r|] eqn:Hp.
    + exfalso. apply stripPrefix_Some in Hp. rewrite append_assoc in Hp.
      apply stripPrefix_Some in Hp.
      pose proof (stripPrefix_refFree (String c t) ("ref" +:+ q) Hfree) as Hnone.
      rewrite (append_cons c t) in Hnone.
      change (String "[" ("ref" +:+ q)) with ("[ref" +:+ q) in Hnone.
      rewrite Hp in Hnone. by specialize (Hnone ltac:(done)).
    + f_equal. apply IH. by eapply refFree_tail.
Qed.

Lemma stripLast_cons c a b rest :
  JSString.stripLast c (String a (String b rest))
  = String a <$> JSString.stripLast c (String b rest).
Proof. reflexivity. Qed.

Lemma stripLast_append c n : JSString.stripLast c (n +:+ String c "") = Some n.
Proof.
  induction n as [|a n IH].
  - change (JSString.stripLast c (String c "") = Some ""). cbn.
    by rewrite Ascii.eqb_refl.
  - rewrite (append_cons a n).
    assert (exists b rest, n +:+ String c "" = String b rest) as (b & rest & Heq)
      by (destruct n; eexists _, _; reflexivity).
    by rewrite Heq, stripLast_cons, <- Heq, IH.
Qed.

Lemma matchRefAt_named n :
  n <> "" ->
  JSString.forallb (fun c => negb (JSString.isLineTerminator c)) n = true ->
  matchRefAt ("[ref " +:+ (n +:+ "]")) = Some (Some n).
Proof.
  intros Hn Hline. unfold matchRefAt.
  change ("[ref " +:+ (n +:+ "]")) with ("[ref" +:+ String " " (n +:+ "]")).
  rewrite stripPrefix_append.
  assert (String.eqb (String " " (n +:+ "]")) "]" = false) as -> by done.
  rewrite stripLast_append, Hline. by destruct n.
Qed.

End Shorthand.

Section DesugarerFacts.

Lemma transpileEntry_desugared obj key value' :
  transpileEntry obj key value'
  = JSObject.set obj (desugaredKey key) (desugaredValue key value').
Proof.
  unfold transpileEntry, desugaredValue, desugaredKey. by destruct (execRef key).
Qed.

Lemma transpileEntries_app before : forall rest obj,
  transpileEntries (before ++ rest) obj
  = transpileEntries rest (transpileEntries before obj).
Proof.
  induction before as [|[k v] before IH]; intros rest obj; [done|].
  cbn [app transpileEntries]. apply IH.
Qed.

(** Entries filed under other keys leave the value found under [key]. *)
Lemma get_transpileEntries_other entries key : forall obj,
  Forall (fun kv => desugaredKey kv.1 <> key) entries ->
  JSObject.get (transpileEntries entries obj) key = JSObject.get obj key.
Proof.
  induction entries as [|[k v] entries IH]; intros obj Hall; [done|].
  apply Forall_cons in Hall as [Hk Hall]. cbn [transpileEntries].
  rewrite (IH _ Hall), transpileEntry_desugared, get_set.
  by destruct (String.eqb_spec (desugaredKey k) key).
Qed.

(** X1: a key [t[ref]], [t] being free of the text ["[ref"], is filed under
    [t] trimmed, as the parameter named [t]; a key [t[ref n]] is filed under
    [t] trimmed as the parameter named [n] trimmed, or named [t] when [n] is
    blank. *)
Theorem transpileEntry_named_parameter (obj : Obj) (t n : string) (value' : Raw) :
  refFree t ->
  n <> "" ->
  JSString.forallb (fun c => negb (JSString.isLineTerminator c)) n = true ->
  transpileEntry obj (t +:+ "[ref]") value'
  = JSObject.set obj (JSString.trim t)
      (RObject [("nom", RString (JSString.trim t)); ("valeur", value')])
  /\ transpileEntry obj (t +:+ ("[ref " +:+ (n +:+ "]"))) value'
     = JSObject.set obj (JSString.trim t)
         (RObject [("nom", RString (if JSString.isEmpty (JSString.trim n)
                                    then JSString.trim t else JSString.trim n));
                   ("valeur", value')]).
Proof.
  intros Hfree Hn Hline. unfold transpileEntry. split.
  - rewrite (execRef_refFree t "ref]" Hfree).
    change (execRef "[ref]") with (Some {| match0 := "[ref]"; match2 := None |}).
    cbn [match0]. change "[ref]" with ("[ref" +:+ "]").
    by rewrite (removeFirst_refFree t "]" Hfree).
  - change ("[ref " +:+ (n +:+ "]")) with (String "[" ("ref " +:+ (n +:+ "]"))).
    rewrite (execRef_refFree t _ Hfree), execRef_cons.
    change (String "[" ("ref " +:+ (n +:+ "]"))) with ("[ref " +:+ (n +:+ "]")).
    rewrite (matchRefAt_named n Hn Hline). cbn [match0].
    change ("[ref " +:+ (n +:+ "]")) with ("[ref" +:+ (" " +:+ (n +:+ "]"))).
    by rewrite (removeFirst_refFree t _ Hfree).
Qed.

(** X2: when several keys of an object are filed under the same key, the
    value of the last of them is the one kept; a key that no entry is filed
    under is absent from the result. *)
Theorem transpileRef_last_entry_wins (before after : Obj) (k : string) (v : Raw) :
  Forall (fun kv => desugaredKey kv.1 <> desugaredKey k) after ->
  exists out,
    transpileRef (RObject (before ++ (k, v) :: after)) = RObject out
    /\ JSObject.get out (desugaredKey k) = Some (desugaredValue k (transpileRef v))
    /\ forall key,
         Forall (fun kv => desugaredKey kv.1 <> key) (before ++ (k, v) :: after) ->
         JSObject.get out key = None.
Proof.
  intros Hafter. eexists. split; [apply transpileRef_object|]. split.
  - rewrite transpileEntries_app. cbn [transpileEntries].
    rewrite (get_transpileEntries_other _ _ _ Hafter), transpileEntry_desugared, get_set.
    by rewrite String.eqb_refl.
  - intros key Hnone. by rewrite (get_transpileEntries_other _ _ _ Hnone).
Qed.

End DesugarerFacts.

Lemma refFree_plain t :
  JSString.forallb (fun c => negb (Ascii.eqb c "[")) t = true -> refFree t.
Proof.
  intros Hall pre post ->. induction pre as [|c pre IH].
  - done.
  - rewrite append_cons in Hall. cbn in Hall. apply andb_prop in Hall as [_ Hall]. auto.
Qed.

Lemma transpileEntry_named_parameter_witness :
  transpileEntry [] "taux [ref]" (RNumber 1)
  = [("taux", RObject [("nom", RString "taux"); ("valeur", RNumber 1)])]
  /\ transpileEntry [] "taux [ref  taux salarial ]" (RNumber 1)
     = [("taux", RObject [("nom", RString "taux salarial"); ("valeur", RNumber 1)])].
Proof.
  apply (transpileEntry_named_parameter [] "taux " " taux salarial " (RNumber 1)).
  - by apply refFree_plain.
  - done.
  - reflexivity.
Defined.

Lemma transpileRef_last_entry_wins_witness :
  exists out,
    transpileRef (RObject collidingKeys) = RObject out
    /\ JSObject.get out "a"
       = Some (RObject [("nom", RString "x"); ("valeur", RNumber 3)])
    /\ forall key,
         Forall (fun kv => desugaredKey kv.1 <> key) collidingKeys ->
         JSObject.get out key = None.
Proof.
  apply (transpileRef_last_entry_wins [("a", RNumber 1); ("b [ref]", RNumber 2)] []
           "a[ref x]" (RNumber 3)).
  constructor.
Defined.

Section FixedPoints.

Lemma set_keys (obj : Obj) key v x :
  x ∈ (JSObject.set obj key v).*1 <-> x = key \/ x ∈ obj.*1.
Proof.
  pose proof (get_None (JSObject.set obj key v) x) as Hset.
  pose proof (get_None obj x) as Hobj. rewrite get_set in Hset.
  destruct (String.eqb_spec key x) as [->|Hne].
  - split; [by left|]. intros _. destruct (decide (x ∈ (JSObject.set obj x v).*1)); [done|].
    by apply Hset in n.
  - split.
    + intros Hin. right. destruct (decide (x ∈ obj.*1)) as [|Hout]; [done|].
      apply Hobj in Hout. apply Hset in Hout. done.
    + intros [->|Hin]; [done|].
      destruct (decide (x ∈ (JSObject.set obj key v).*1)) as [|Hout]; [done|].
      apply Hset in Hout. apply Hobj in Hout. done.
Qed.

(** Every key of the result is the key some entry is filed under. *)
Lemma transpileEntries_keys entries : forall obj x,
  x ∈ (transpileEntries entries obj).*1 ->
  x ∈ obj.*1 \/ exists kv, kv ∈ entries /\ desugaredKey kv.1 = x.
Proof.
  induction entries as [|[k v] entries IH]; intros obj x Hx; [by left|].
  cbn [transpileEntries] in Hx. apply IH in Hx as [Hx|(kv & Hkv & Hx)].
  - rewrite transpileEntry_desugared in Hx. apply set_keys in Hx as [->|Hx]; [|by left].
    right. exists (k, v). split; [by left | done].
  - right. exists kv. split; [by right | done].
Qed.

(** An object that the desugarer returns as it was has no shorthand key:
    such a key is filed under a shorter one, so the longest of them would be
    missing from the result. *)
Lemma transpileEntries_fixed_plain entries :
  (transpileEntries entries []).*1 = entries.*1 ->
  forall kv, kv ∈ entries -> execRef kv.1 = None.
Proof.
  intros Hkeys.
  assert (Hchain : forall d kv,
    kv ∈ entries -> is_Some (execRef kv.1) ->
    max_list (String.length <$> entries.*1) - String.length kv.1 < d -> False).
  { induction d as [|d IH]; intros kv Hkv Hshort Hd; [lia|].
    assert (kv.1 ∈ (transpileEntries entries []).*1) as Hin.
    { rewrite Hkeys. apply list_elem_of_fmap. by exists kv. }
    apply transpileEntries_keys in Hin as [Hin|(kv' & Hkv' & Hfiled)];
      [by apply elem_of_nil in Hin|].
    destruct (execRef kv'.1) as [m|] eqn:Hm.
    - assert (String.length (desugaredKey kv'.1) < String.length kv'.1) as Hlt
        by (apply desugaredKey_shorter; by eexists).
      rewrite Hfiled in Hlt.
      assert (String.length kv'.1 <= max_list (String.length <$> entries.*1)) as Hmax.
      { apply max_list_elem_of_le, list_elem_of_fmap. exists kv'.1. split; [done|].
        apply list_elem_of_fmap. by exists kv'. }
      apply (IH kv' Hkv'); [by eexists | lia].
    - unfold desugaredKey in Hfiled. rewrite Hm in Hfiled.
      rewrite <- Hfiled, Hm in Hshort. by destruct Hshort. }
  intros kv Hkv. destruct (execRef kv.1) as [m|] eqn:Hm; [|done].
  exfalso. eapply (Hchain _ kv Hkv); [by eexists | apply Nat.lt_succ_diag_r].
Qed.

(** Without shorthand keys, the entries stay in place and only the values
    are desugared. *)
Lemma transpileEntries_plain entries : forall obj,
  enumerable (obj ++ entries).*1 ->
  Forall (fun kv => execRef kv.1 = None) entries ->
  transpileEntries entries obj
  = obj ++ ((fun kv => (kv.1, transpileRef kv.2)) <$> entries).
Proof.
  induction entries as [|[k v] entries IH]; intros obj He Hall.
  - by rewrite app_nil_r.
  - apply Forall_cons in Hall as [Hk Hall]. cbn in Hk.
    cbn [transpileEntries]. unfold transpileEntry. rewrite Hk.
    assert (Hkeys : (obj ++ (k, v) :: entries).*1
                    = ((obj ++ [(k, transpileRef v)]) ++ entries).*1).
    { by rewrite <- app_assoc, !fmap_app. }
    rewrite Hkeys in He. rewrite set_last.
    + rewrite (IH _ He Hall), <- app_assoc. done.
    + destruct He as [Hnd Hs]. rewrite fmap_app in Hnd, Hs.
      split; [by apply NoDup_app in Hnd as (? & _ & _)|].
      by apply StronglySorted_app_1_l in Hs.
Qed.

Lemma map_fixed {A} (f : A -> A) (l : list A) :
  f <$> l = l -> Forall (fun x => f x = x) l.
Proof.
  induction l as [|x l IH]; [constructor|]. intros [= Hx Hl]. constructor; auto.
Qed.

(** X3: the well-formed data that the desugarer returns unchanged is the
    data with no shorthand key at any depth. *)
Theorem transpileRef_fixed_iff (y : Raw) :
  wellFormed y = true ->
  transpileRef y = y <-> shorthandFree y = true.
Proof.
  intros Hwf. split; [|by apply transpileRef_fixed].
  induction y as [| | | | |items IH|entries IH] using Raw_nested_ind;
    try reflexivity; cbn [wellFormed shorthandFree] in *.
  - cbn [transpileRef]. intros [= Hitems].
    change (map transpileRef items) with (transpileRef <$> items) in Hitems.
    apply map_fixed in Hitems.
    rewrite forallb_forall in Hwf. apply forallb_forall. intros x Hx.
    apply list_elem_of_In in Hx as Hx'.
    rewrite Forall_forall in IH, Hitems. apply IH; auto.
  - rewrite transpileRef_object. intros [= Hfixed].
    apply andb_prop in Hwf as [He Hwf]. apply bool_decide_eq_true in He.
    rewrite forallb_forall in Hwf.
    assert (Hplain : Forall (fun kv => execRef kv.1 = None) entries).
    { apply Forall_forall. apply transpileEntries_fixed_plain. by rewrite Hfixed. }
    rewrite (transpileEntries_plain entries [] He Hplain) in Hfixed.
    cbn [app] in Hfixed. apply map_fixed in Hfixed.
    apply forallb_forall. intros kv Hkv. apply list_elem_of_In in Hkv as Hkv'.
    rewrite Forall_forall in IH, Hplain, Hfixed.
    rewrite (Hplain kv Hkv'). cbn.
    apply IH; [done | by apply Hwf |].
    specialize (Hfixed kv Hkv'). destruct kv as [k v]. by injection Hfixed.
Qed.

End FixedPoints.

Lemma transpileRef_fixed_iff_witness :
  transpileRef (RObject collidingKeys) = RObject collidingKeys
  <-> shorthandFree (RObject collidingKeys) = true.
Proof. apply (transpileRef_fixed_iff (RObject collidingKeys)). reflexivity. Defined.

(** *** The desugarer in the store: copies and cycles *)

(** An object that holds itself: [o = {}; o.self = o]. *)
Definition selfHeap : Store.Heap := {[0 := Store.CObject [("self", Store.VRef 0)]]}.

Section StoreCopies.

(** [fn] overflows on what cannot be read [depth] levels deep, and raises
    nothing else. *)
Definition Overflows (fn : Store.Value -> Store.Heap -> Store.Heap * Completion Store.Value)
    (depth : nat) : Prop :=
  forall h K v h' outcome,
    Store.closed h K -> Store.refsOfValue v ⊆ K ->
    fn v h = (h', outcome) ->
    (forall e, outcome = Throw e -> e = RangeError)
    /\ (Store.reify depth h v = None -> outcome = Throw RangeError).

Lemma reify_closed_extend depth : forall h h' K v,
  Store.closed h K -> Store.refsOfValue v ⊆ K -> h ⊆ h' ->
  Store.reify depth h' v = Store.reify depth h v.
Proof.
  induction depth as [|depth IH]; intros h h' K v Hclosed Hv Hsub;
    destruct v as [| | | | |address]; try done.
  rewrite !Store.reify_ref.
  assert (address ∈ K) as Hin by (cbn in Hv; set_solver).
  destruct Hclosed as [Hdom Hrefs].
  assert (is_Some (h !! address)) as [cell Hcell] by (apply elem_of_dom; set_solver).
  rewrite Hcell, (lookup_weaken _ _ _ _ Hcell Hsub).
  pose proof (Hrefs address cell Hin Hcell) as Hcellrefs.
  apply Store.refsOfCell_within in Hcellrefs. unfold Store.within in Hcellrefs.
  rewrite Forall_forall in Hcellrefs.
  destruct cell as [items|entries].
  - f_equal. apply Forall_mapM_ext, Forall_forall. intros x Hx.
    apply (IH h h' K); [done | by apply Hcellrefs | done].
  - f_equal. apply Forall_mapM_ext, Forall_forall. intros [k x] Hx. cbn [fst snd].
    rewrite (IH h h' K x); [done | done | | done].
    apply Hcellrefs. apply list_elem_of_fmap. by exists (k, x).
Qed.

Lemma builder_extends fn v h h' outcome :
  Store.Builder fn -> fn v h = (h', outcome) -> h ⊆ h'.
Proof.
  intros Hfn Hrun.
  by destruct (Hfn h v h h' outcome (reflexivity _) (Store.built_refl h) Hrun).
Qed.

Lemma mapItems_overflows fn depth :
  Store.Builder fn -> Overflows fn depth ->
  forall items h K h' outcome,
    Store.closed h K -> Store.within K items ->
    Store.mapItems fn items h = (h', outcome) ->
    (forall e, outcome = Throw e -> e = RangeError)
    /\ ((exists x, x ∈ items /\ Store.reify depth h x = None) ->
        outcome = Throw RangeError).
Proof.
  intros Hbuild Hfn.
  induction items as [|item rest IH]; intros h K h' outcome Hclosed Hitems Hrun.
  - injection Hrun as <- <-. split; [done|]. by intros (x & ?%elem_of_nil & _).
  - apply Forall_cons in Hitems as [Hitem Hrest]. cbn [Store.mapItems] in Hrun.
    destruct (fn item h) as [h1 outcome1] eqn:Hfirst.
    destruct (Hfn h K item h1 outcome1 Hclosed Hitem Hfirst) as [Honly Hdeep].
    pose proof (builder_extends _ _ _ _ _ Hbuild Hfirst) as Hsub1.
    destruct outcome1 as [item'|e].
    + destruct (Store.mapItems fn rest h1) as [h2 outcome2] eqn:Hnext.
      destruct (IH h1 K h2 outcome2) as [Honly2 Hdeep2];
        [by eapply Store.closed_extend | done | done |].
      assert (Hout : outcome = match outcome2 with
                                | Return rest' => Return (item' :: rest')
                                | Throw e => Throw e
                                end)
        by (destruct outcome2; by injection Hrun).
      split.
      * intros e He. rewrite Hout in He. destruct outcome2; [done|].
        injection He as <-. by apply Honly2.
      * intros (x & [->|Hx]%elem_of_cons & Hnone).
        -- by specialize (Hdeep Hnone).
        -- rewrite Hout, Hdeep2; [done|]. exists x. split; [done|].
           rewrite (reify_closed_extend depth h h1 K); [done..| |done].
           unfold Store.within in Hrest. rewrite Forall_forall in Hrest. by apply Hrest.
    + injection Hrun as <- <-. split.
      * intros e' [= <-]. by apply Honly.
      * intros _. by rewrite (Honly e eq_refl).
Qed.

Lemma reduceEntries_overflows fn depth :
  Store.Builder fn -> Overflows fn depth ->
  forall entries obj h K h' outcome,
    Store.closed h K -> Store.within K entries.*2 ->
    Store.reduceEntries fn entries obj h = (h', outcome) ->
    (forall e, outcome = Throw e -> e = RangeError)
    /\ ((exists x, x ∈ entries.*2 /\ Store.reify depth h x = None) ->
        outcome = Throw RangeError).
Proof.
  intros Hbuild Hfn.
  induction entries as [|[key value] rest IH]; intros obj h K h' outcome Hclosed Hall Hrun.
  - injection Hrun as <- <-. split; [done|]. by intros (x & ?%elem_of_nil & _).
  - rewrite fmap_cons in Hall. apply Forall_cons in Hall as [Hvalue Hrest].
    cbn [Store.reduceEntries] in Hrun.
    destruct (fn value h) as [h1 outcome1] eqn:Hfirst.
    destruct (Hfn h K value h1 outcome1 Hclosed Hvalue Hfirst) as [Honly Hdeep].
    pose proof (builder_extends _ _ _ _ _ Hbuild Hfirst) as Hsub1.
    destruct outcome1 as [value'|e].
    2:{ injection Hrun as <- <-. split.
        - intros e' [= <-]. by apply Honly.
        - intros _. by rewrite (Honly e eq_refl). }
    assert (Hnext : exists h2 obj',
      h1 ⊆ h2 /\ Store.reduceEntries fn rest obj' h2 = (h', outcome)).
    { destruct (execRef key) as [m|].
      - destruct (alloc_lookup
                    (Store.CObject
                       [("nom", Store.VString
                                  (argumentNameOf m
                                     (JSString.trim (JSString.removeFirst (match0 m) key))));
                        ("valeur", value')]) h1) as (a2 & Ha2 & Hsub2 & _).
        rewrite Ha2 in Hrun.
        destruct (alloc_lookup
                    (Store.CObject
                       (JSObject.set (Store.spread (<[a2:=Store.CObject
                            [("nom", Store.VString
                                  (argumentNameOf m
                                     (JSString.trim (JSString.removeFirst (match0 m) key))));
                             ("valeur", value')]]> h1) obj)
                          (JSString.trim (JSString.removeFirst (match0 m) key))
                          (Store.VRef a2)))
                    (<[a2:=Store.CObject
                            [("nom", Store.VString
                                  (argumentNameOf m
                                     (JSString.trim (JSString.removeFirst (match0 m) key))));
                             ("valeur", value')]]> h1)) as (a3 & Ha3 & Hsub3 & _).
        rewrite Ha3 in Hrun. eexists _, _. split; [|exact Hrun]. by etrans.
      - destruct (alloc_lookup
                    (Store.CObject (JSObject.set (Store.spread h1 obj) key value')) h1)
          as (a2 & Ha2 & Hsub2 & _).
        rewrite Ha2 in Hrun. eexists _, _. split; [|exact Hrun]. done. }
    destruct Hnext as (h2 & obj' & Hsub2 & Hnext).
    assert (Hsub : h ⊆ h2) by by etrans.
    destruct (IH obj' h2 K h' outcome) as [Honly2 Hdeep2];
      [by eapply Store.closed_extend | done | done |].
    split; [done|].
    intros (x & Hx & Hnone). rewrite fmap_cons in Hx.
    apply elem_of_cons in Hx as [->|Hx].
    + by specialize (Hdeep Hnone).
    + apply Hdeep2. exists x. split; [done|].
      rewrite (reify_closed_extend depth h h2 K); [done..| |done].
      unfold Store.within in Hrest. rewrite Forall_forall in Hrest. by apply Hrest.
Qed.

Lemma transpileRef_overflows fuel : Overflows (Store.transpileRef fuel) fuel.
Proof.
  induction fuel as [|fuel IH]; intros h K v h' outcome Hclosed Hv Hrun.
  - injection Hrun as <- <-. split; [by intros e [= <-] | done].
  - rewrite Store_transpileRef_unfold in Hrun.
    destruct v as [| | | | |address];
      try (injection Hrun as <- <-; split; [done|]; by destruct fuel).
    rewrite Store.reify_ref.
    assert (address ∈ K) as Hin by (cbn in Hv; set_solver).
    pose proof Hclosed as [Hdom Hrefs].
    assert (is_Some (h !! address)) as [cell Hcell] by (apply elem_of_dom; set_solver).
    rewrite Hcell in Hrun |- *.
    pose proof (Hrefs address cell Hin Hcell) as Hcellrefs.
    apply Store.refsOfCell_within in Hcellrefs.
    destruct cell as [items|entries].
    + destruct (Store.mapItems (Store.transpileRef fuel) items h) as [h1 outcome1] eqn:Hitems.
      destruct (mapItems_overflows _ fuel (Store.transpileRef_builds fuel) IH
                  items h K h1 outcome1 Hclosed Hcellrefs Hitems) as [Honly Hdeep].
      destruct outcome1 as [items'|e].
      * destruct (Store.alloc (Store.CArray items') h1) as [h2 array].
        injection Hrun as <- <-. split; [done|]. intros Hnone.
        apply fmap_None, mapM_None, Exists_exists in Hnone. by specialize (Hdeep Hnone).
      * injection Hrun as <- <-. split; [by intros e' [= <-]; apply Honly|].
        intros _. by rewrite (Honly e eq_refl).
    + destruct (alloc_lookup (Store.CObject []) h) as (a0 & Ha0 & Hsub0 & _).
      rewrite Ha0 in Hrun.
      destruct (reduceEntries_overflows _ fuel (Store.transpileRef_builds fuel) IH
                  entries (Store.VRef a0) _ K h' outcome
                  (Store.closed_extend _ _ _ Hclosed Hsub0) Hcellrefs Hrun)
        as [Honly Hdeep].
      split; [done|]. intros Hnone.
      apply fmap_None, mapM_None, Exists_exists in Hnone as ([k x] & Hkx & Hx).
      cbn [fst snd] in Hx. apply fmap_None in Hx.
      apply Hdeep. exists x. split.
      * apply list_elem_of_fmap. by exists (k, x).
      * rewrite (reify_closed_extend fuel h _ K); [done..| |done].
        unfold Store.within in Hcellrefs. rewrite Forall_forall in Hcellrefs.
        apply Hcellrefs, list_elem_of_fmap. by exists (k, x).
Qed.

(** X4: on raw data that can be read to the end, the desugarer, given a
    stack one level deeper than the data, returns; no cell that existed is
    changed, so the input reads as before; the result is the structure that
    [transpileRef] computes by value; and it is made of new cells only,
    which refer to new cells only: it shares no object with the input. *)
Theorem transpileRef_fresh_copy
    (depth : nat) (h : Store.Heap) (v : Store.Value) (tree : Raw) :
  Store.reify depth h v = Some tree ->
  exists h' v' depth',
    Store.transpileRef (S depth) v h = (h', Return v')
    /\ h ⊆ h'
    /\ Store.reify depth h' v = Some tree
    /\ Store.reify depth' h' v' = Some (transpileRef tree)
    /\ Store.refsOfValue v' ⊆ dom h' ∖ dom h
    /\ Store.built h h'.
Proof.
  intros Hv.
  destruct (Store_transpileRef_refines depth h v tree Hv)
    as (h' & v' & depth' & Hrun & Hsub & Hv').
  destruct (Store.transpileRef_builds (S depth) h v h h' (Return v')
              (reflexivity _) (Store.built_refl h) Hrun) as (_ & Hbuilt & Hnew).
  exists h', v', depth'. split_and!; try done.
  - by eapply Store.reify_extend.
  - by apply Hnew.
Qed.

(** X5: on a structure that cannot be read to the end at any depth, one
    that contains itself, the desugarer never returns: whatever the size of
    the stack, the call ends in a [RangeError]. *)
Theorem transpileRef_overflows_on_cycles
    (h : Store.Heap) (K : gset nat) (v : Store.Value) :
  Store.closed h K -> Store.refsOfValue v ⊆ K ->
  (forall depth, Store.reify depth h v = None) ->
  forall fuel, (Store.transpileRef fuel v h).2 = Throw RangeError.
Proof.
  intros Hclosed Hv Hdeep fuel.
  destruct (Store.transpileRef fuel v h) as [h' outcome] eqn:Hrun.
  by destruct (transpileRef_overflows fuel h K v h' outcome Hclosed Hv Hrun)
    as [_ ->].
Qed.

End StoreCopies.

Lemma selfHeap_endless depth : Store.reify depth selfHeap (Store.VRef 0) = None.
Proof.
  induction depth as [|depth IH]; [done|].
  rewrite Store.reify_ref. unfold selfHeap at 1. rewrite lookup_singleton_eq.
  cbn [mapM fst snd]. by rewrite IH.
Qed.

Lemma transpileRef_fresh_copy_witness :
  exists h' v' depth',
    Store.transpileRef 4 (Store.VRef 0) Store.sampleHeap = (h', Return v')
    /\ Store.sampleHeap ⊆ h'
    /\ Store.reify 3 h' (Store.VRef 0)
       = Some (RObject [("a", RObject [("b[ref]", RArray [RNumber 1])])])
    /\ Store.reify depth' h' v'
       = Some (RObject [("a", RObject [("b", RObject [("nom", RString "b");
                                          ("valeur", RArray [RNumber 1])])])])
    /\ Store.refsOfValue v' ⊆ dom h' ∖ dom Store.sampleHeap
    /\ Store.built Store.sampleHeap h'.
Proof.
  apply (transpileRef_fresh_copy 3 Store.sampleHeap (Store.VRef 0)). reflexivity.
Defined.

Lemma transpileRef_overflows_on_cycles_witness :
  (Store.transpileRef 64 (Store.VRef 0) selfHeap).2 = Throw RangeError.
Proof.
  refine (transpileRef_overflows_on_cycles selfHeap {[0]} (Store.VRef 0) _ _ _ 64).
  - split.
    + unfold selfHeap. rewrite dom_singleton_L. done.
    + intros address cell Hin Hcell. unfold selfHeap in Hcell.
      apply lookup_singleton_Some in Hcell as [_ <-]. cbn. set_solver.
  - done.
  - apply selfHeap_endless.
Defined.

(** ** Further properties of the dependency orderer *)


(** [order] lists each name after its dependencies other than itself. *)
Definition dependencyOrdered (dependencyGraph : DependencyGraph) (order : list string)
  : Prop :=
  forall j name dependency,
    order !! j = Some name ->
    dependsOn dependencyGraph name dependency ->
    exists i, i <= j /\ order !! i = Some dependency.

Section OrdererFacts.

Variable dependencyGraph : DependencyGraph.





(** Dependencies that are in progress or already placed are all skipped. *)
Lemma visitDependencies_skips visit nodeDependencies st :
  Forall (fun d => inProgress (temp st) d = true \/ d ∈ result st) nodeDependencies ->
  visitDependencies visit nodeDependencies st = Some st.
Proof.
  induction 1 as [|d rest [Hd|Hd] _ IH]; [done|..]; cbn [visitDependencies].
  - by rewrite Hd.
  - destruct (inProgress (temp st) d); [done|]. by rewrite bool_decide_eq_true_2.
Qed.

Lemma inProgress_insert_true (t : gmap string bool) n : inProgress (<[n := true]> t) n = true.
Proof. unfold inProgress. by rewrite lookup_insert_eq. Qed.

(** On names already in dependency order the outer loop appends them one
    after the other. *)
Lemma sortRules_ordered fuel : forall rest placed temp0,
  NoDup (placed ++ rest) ->
  dependencyOrdered dependencyGraph (placed ++ rest) ->
  exists temp',
    sortRules (S fuel) dependencyGraph rest {| result := placed; temp := temp0 |}
    = Some {| result := placed ++ rest; temp := temp' |}.
Proof.
  induction rest as [|ruleName rest IH]; intros placed temp0 Hnd Hord.
  - exists temp0. by rewrite app_nil_r.
  - cbn [sortRules result].
    assert (ruleName ∉ placed) as Hnew.
    { apply NoDup_app in Hnd as (_ & Hnd & _). intros Hin. apply (Hnd _ Hin). by left. }
    rewrite bool_decide_eq_false_2 by done.
    rewrite topologicalSortHelper_unfold. cbn [result temp].
    rewrite visitDependencies_skips.
    + cbn [result temp].
      replace (placed ++ ruleName :: rest) with ((placed ++ [ruleName]) ++ rest) in *
        by by rewrite <- app_assoc.
      apply IH; done.
    + apply Forall_forall. intros d Hd. cbn [result temp].
      destruct (Hord (length placed) ruleName d) as (i & Hi & Hlookup).
      { by rewrite lookup_app_r, Nat.sub_diag. }
      { done. }
      destruct (decide (i = length placed)) as [->|Hne].
      * rewrite lookup_app_r, Nat.sub_diag in Hlookup by done.
        injection Hlookup as <-. left. apply inProgress_insert_true.
      * right. rewrite lookup_app_l in Hlookup by lia.
        by eapply list_elem_of_lookup_2.
Qed.



(** X8: on a graph without cycles the sort is idempotent: sorting the order
    it returned gives that order again. *)
Theorem topologicalSort_idempotent_without_cycles
    (rulesNames order : list string) :
  (forall n, ~ tc (dependsOn dependencyGraph) n n) ->
  topologicalSort rulesNames dependencyGraph = Some order ->
  topologicalSort order dependencyGraph = Some order.
Proof.
  intros Hacyclic Hsorted.
  destruct (sortRules_sound dependencyGraph (universe rulesNames dependencyGraph)
              (universe_closed rulesNames dependencyGraph)
              (sortFuel rulesNames dependencyGraph) (Nat.lt_succ_diag_r _)
              rulesNames {| result := []; temp := ∅ |})
    as (st & Hrun & _ & _ & [_ Hnd _ Hord _] & _).
  { split; cbn [result temp]; rewrite ?marked_empty.
    - apply empty_subseteq.
    - constructor.
    - by intros x ?%not_elem_of_empty.
    - intros j name d Hj. by rewrite lookup_nil in Hj.
    - by intros n d ?%elem_of_nil. }
  { apply marked_empty. }
  { apply universe_rule. }
  unfold topologicalSort in Hsorted. rewrite Hrun in Hsorted.
  injection Hsorted as <-.
  unfold topologicalSort, sortFuel.
  destruct (sortRules_ordered (size (universe (result st) dependencyGraph))
              (result st) [] ∅ Hnd) as [temp' ->]; [|done].
  intros j name d Hj Hdep.
  destruct (Hord j name d Hj Hdep) as [(i & Hi & Hd)|Hback].
  - exists i. split; [lia | done].
  - exfalso. apply (Hacyclic name). by eapply tc_rtc_r; [apply tc_once|].
Qed.

End OrdererFacts.


(** A graph whose edges go down a measure has no cycle. *)
Lemma ranked_acyclic (dependencyGraph : DependencyGraph) (rank : string -> nat) :
  (forall a b, dependsOn dependencyGraph a b -> rank b < rank a) ->
  forall n, ~ tc (dependsOn dependencyGraph) n n.
Proof.
  intros Hrank n Hcycle.
  assert (Hdown : forall a b, tc (dependsOn dependencyGraph) a b -> rank b < rank a).
  { induction 1 as [a b Hab|a b c Hab _ IH].
    - by apply Hrank.
    - specialize (Hrank a b Hab). lia. }
  specialize (Hdown n n Hcycle). lia.
Qed.

Lemma chainGraph_acyclic n : ~ tc (dependsOn chainGraph) n n.
Proof.
  apply (ranked_acyclic chainGraph
           (fun s => if String.eqb s "A" then 2 else if String.eqb s "B" then 1 else 0)).
  intros a b Hab. unfold dependsOn, dependenciesOf, chainGraph in Hab.
  destruct (decide (a = "A")) as [->|HA].
  { vm_compute in Hab. apply list_elem_of_singleton in Hab as ->. cbn. lia. }
  destruct (decide (a = "B")) as [->|HB].
  { vm_compute in Hab. apply list_elem_of_singleton in Hab as ->. cbn. lia. }
  rewrite !lookup_insert_ne, lookup_empty in Hab by done.
  by apply elem_of_nil in Hab.
Qed.

Lemma topologicalSort_idempotent_without_cycles_witness :
  topologicalSort ["C"; "B"; "A"] chainGraph = Some ["C"; "B"; "A"].
Proof.
  apply (topologicalSort_idempotent_without_cycles chainGraph ["A"; "B"; "C"]).
  - exact chainGraph_acyclic.
  - by vm_compute.
Defined.

(** With a cycle the order returned need not be kept by a second sort. *)
Example topologicalSort_cycle_reordered :
  topologicalSort ["A"; "B"] cycleGraph = Some ["B"; "A"]
  /\ topologicalSort ["B"; "A"] cycleGraph = Some ["A"; "B"].
Proof. split; by vm_compute. Qed.

(** ** Further properties of nullability inference *)

(** The unit that the facts of [facts] give to a node: mechanisms and
    constants have their own, the forwarding nodes that of their operand, a
    [variations] is nullable when one of its consequences is, and a
    reference has the fact recorded for its target. *)
Fixpoint unitOf (facts : Facts) (node : ASTNode) : option InferedUnit :=
  match node with
  | Mechanism kind _ => Some (mechanismUnit kind)
  | Constant nodeValue => Some {| isNullable := isNull nodeValue |}
  | Abattement assiette _ => unitOf facts assiette
  | Valeur _ valeur _ => unitOf facts valeur
  | Unite explanation => unitOf facts explanation
  | Variations explanation =>
      Some {| isNullable :=
                existsb (fun line =>
                           match unitOf facts line.2 with
                           | Some unit => isNullable unit
                           | None => false
                           end) explanation |}
  | Rule _ valeur => unitOf facts valeur
  | Reference reference => default None (facts !! propertyKey (dottedName reference))
  end.

(** Every ordered name is registered as a rule of that name, whose formula
    holds no other rule and refers, where inference reads it, to names placed
    earlier in the order only. *)
Definition ReferencesEarlier (parsedRules : ParsedRules) (order : list string) : Prop :=
  forall j ruleName,
    order !! j = Some ruleName ->
    exists h valeur,
      ruleOf parsedRules ruleName = Some (Rule h valeur)
      /\ ruleDottedName h = ruleName
      /\ forall node, node ∈ visited valeur ->
           match node with
           | Rule _ _ => False
           | Reference reference =>
               exists i target,
                 i < j /\ order !! i = Some target
                 /\ dottedName reference = Some target
           | _ => True
           end.

Section NullabilityFacts.

(** The references that inference reads in [node] have a defined fact, and
    it meets no rule node. *)
Definition Settled (res : Facts) (node : ASTNode) : Prop :=
  forall n, n ∈ visited node ->
    match n with
    | Rule _ _ => False
    | Reference reference =>
        exists unit, res !! propertyKey (dottedName reference) = Some (Some unit)
    | _ => True
    end.

(** The table after the names [placed], the first of [order]: it has the
    fact of each, which is the unit the table gives to its formula. *)
Definition Inferred (parsedRules : ParsedRules) (placed : list string) (res : Facts)
  : Prop :=
  dom res = list_to_set placed
  /\ forall ruleName h valeur,
       ruleName ∈ placed ->
       ruleOf parsedRules ruleName = Some (Rule h valeur) ->
       res !! ruleName = Some (unitOf res valeur) /\ is_Some (unitOf res valeur).


(** On a settled node inference leaves the table as it is and returns the
    unit that the table gives to the node. *)
Lemma inferNodeUnit_settled node : forall res,
  Settled res node ->
  exists unit,
    inferNodeUnit node res = (res, Return (Some unit))
    /\ unitOf res node = Some unit.
Proof.
  induction node as [kind explanation _|v|a b IHa _|kind v a IHv _|e IHe
                    |lines IH|h v IHv|r] using ASTNode_nested_ind;
    intros res Hset; cbn [inferNodeUnit unitOf].
  - by eexists.
  - by eexists.
  - apply IHa. intros n Hn. apply (Hset n). cbn [visited]. by right.
  - apply IHv. intros n Hn. apply (Hset n). cbn [visited]. by right.
  - apply IHe. intros n Hn. apply (Hset n). cbn [visited]. by right.
  - change (exists unit,
      someNullable lines res = (res, Return (Some unit))
      /\ Some {| isNullable :=
                   existsb (fun line =>
                              match unitOf res line.2 with
                              | Some unit => isNullable unit
                              | None => false
                              end) lines |} = Some unit).
    assert (Hlines : Forall (fun line => Settled res line.2) lines).
    { apply Forall_forall. intros line Hline n Hn. apply (Hset n). cbn [visited].
      right. apply list_elem_of_In, in_concat. exists (visited line.2). split.
      - apply in_map_iff. exists line. split; [done|]. by apply list_elem_of_In.
      - by apply list_elem_of_In. }
    clear Hset. induction lines as [|line lines IHlines]; [by eexists|].
    apply Forall_cons in IH as [[_ IHline] IH].
    apply Forall_cons in Hlines as [Hline Hlines].
    destruct (IHline res Hline) as (u & Hrun & Hu).
    cbn [someNullable existsb]. rewrite Hrun, Hu.
    destruct (isNullable u); [by eexists|]. cbn [orb]. by apply IHlines.
  - exfalso. apply (Hset (Rule h v)). by left.
  - destruct (Hset (Reference r)) as [u Hu]; [by left|]. rewrite Hu. by eexists.
Qed.

(** The unit of a node depends on the facts of the names it refers to
    only. *)
Lemma unitOf_agree node : forall res res',
  (forall reference, Reference reference ∈ visited node ->
     res' !! propertyKey (dottedName reference)
     = res !! propertyKey (dottedName reference)) ->
  unitOf res' node = unitOf res node.
Proof.
  induction node as [kind explanation _|v|a b IHa _|kind v a IHv _|e IHe
                    |lines IH|h v IHv|r] using ASTNode_nested_ind;
    intros res res' Hagree; cbn [unitOf]; try done.
  - apply IHa. intros n Hn. apply Hagree. cbn [visited]. by right.
  - apply IHv. intros n Hn. apply Hagree. cbn [visited]. by right.
  - apply IHe. intros n Hn. apply Hagree. cbn [visited]. by right.
  - do 2 f_equal.
    assert (Hlines : Forall (fun line => unitOf res' line.2 = unitOf res line.2) lines).
    { rewrite Forall_forall in IH. apply Forall_forall. intros line Hline.
      apply (IH line Hline). intros n Hn. apply Hagree. cbn [visited].
      right. apply list_elem_of_In, in_concat. exists (visited line.2). split.
      - apply in_map_iff. exists line. split; [done|]. by apply list_elem_of_In.
      - by apply list_elem_of_In. }
    clear IH Hagree. induction Hlines as [|line lines Hline _ IHlines]; [done|].
    cbn [existsb]. by rewrite Hline, IHlines.
  - apply IHv. intros n Hn. apply Hagree. cbn [visited]. by right.
  - by rewrite Hagree by by left.
Qed.

Lemma inferRules_in_order parsedRules order :
  NoDup order -> ReferencesEarlier parsedRules order ->
  forall rest placed res,
    order = placed ++ rest ->
    Inferred parsedRules placed res ->
    exists facts,
      inferRules parsedRules rest res = Return facts
      /\ Inferred parsedRules order facts.
Proof.
  intros Hnd Hearlier.
  induction rest as [|ruleName rest IH]; intros placed res Horder Hres.
  - rewrite app_nil_r in Horder. subst placed. by exists res.
  - destruct (Hearlier (length placed) ruleName) as (h & valeur & Hrule & Hname & Hrefs).
    { by rewrite Horder, lookup_app_r, Nat.sub_diag. }
    assert (Hnew : ruleName ∉ placed).
    { rewrite Horder in Hnd. apply NoDup_app in Hnd as (_ & Hnd & _).
      intros Hin. apply (Hnd _ Hin). by left. }
    destruct Hres as [Hdom Hfacts].
    assert (Hset : Settled res valeur).
    { intros n Hn. specialize (Hrefs n Hn). destruct n; try done.
      destruct Hrefs as (i & target & Hi & Hlookup & Htarget).
      rewrite Htarget. change (propertyKey (Some target)) with target.
      destruct (Hearlier i target Hlookup) as (h' & v' & Hrule' & _).
      rewrite Horder, lookup_app_l in Hlookup by done.
      apply list_elem_of_lookup_2 in Hlookup.
      destruct (Hfacts target h' v' Hlookup Hrule') as [Hfact [u Hu]].
      exists u. by rewrite Hfact, Hu. }
    destruct (inferNodeUnit_settled valeur res Hset) as (u & Hrun & Hu).
    cbn [inferRules]. rewrite Hrule. cbn [inferNodeUnit]. rewrite Hrun, Hname.
    apply (IH (placed ++ [ruleName])); [by rewrite <- app_assoc|].
    assert (Hkeep : forall name h' v',
      name ∈ placed ++ [ruleName] ->
      ruleOf parsedRules name = Some (Rule h' v') ->
      unitOf (<[ruleName := Some u]> res) v' = unitOf res v').
    { intros name h' v' Hin Hrule'. apply unitOf_agree. intros reference Href.
      apply list_elem_of_lookup in Hin as [j Hj].
      assert (order !! j = Some name) as Hj'.
      { rewrite Horder.
        replace (placed ++ ruleName :: rest) with ((placed ++ [ruleName]) ++ rest)
          by by rewrite <- app_assoc.
        by apply lookup_app_l_Some. }
      destruct (Hearlier j name Hj') as (h'' & v'' & Hrule'' & _ & Hrefs'').
      rewrite Hrule' in Hrule''. injection Hrule'' as <- <-.
      destruct (Hrefs'' _ Href) as (i & target & Hi & Hlookup & Htarget).
      rewrite Htarget. change (propertyKey (Some target)) with target.
      apply lookup_insert_ne. intros <-.
      assert (j < length (placed ++ [ruleName])) as Hjlen by by eapply lookup_lt_Some.
      rewrite length_app in Hjlen. cbn in Hjlen.
      assert (order !! length placed = Some ruleName) as Hat
        by by rewrite Horder, lookup_app_r, Nat.sub_diag.
      pose proof (NoDup_lookup _ _ _ _ Hnd Hlookup Hat). lia. }
    split.
    + rewrite dom_insert_L, Hdom, list_to_set_app_L. cbn. set_solver.
    + intros name h' v' Hin Hrule'.
      rewrite (Hkeep name h' v' Hin Hrule').
      apply elem_of_app in Hin as [Hin|Hin].
      * rewrite lookup_insert_ne by by intros <-. by apply (Hfacts name h' v').
      * apply list_elem_of_singleton in Hin as ->.
        rewrite Hrule in Hrule'. injection Hrule' as <- <-.
        rewrite lookup_insert_eq, Hu. split; [done | by eexists].
Qed.

(** X9: when the order has no repetition and every ordered rule reads, in
    its formula, references to rules placed before it only (what the
    topological order provides on a graph without cycles), inference
    returns; the table has an entry for the ordered names and no other; and
    the fact of each rule is the unit that the table itself gives to the
    formula of the rule, a reference standing for the fact of its target. *)
Theorem inferRulesUnit_facts_in_dependency_order
    (parsedRules : ParsedRules) (topologicalOrder : list string) :
  NoDup topologicalOrder ->
  ReferencesEarlier parsedRules topologicalOrder ->
  exists facts,
    inferRulesUnit parsedRules topologicalOrder = Return facts
    /\ dom facts = list_to_set topologicalOrder
    /\ forall ruleName h valeur,
         ruleName ∈ topologicalOrder ->
         ruleOf parsedRules ruleName = Some (Rule h valeur) ->
         facts !! ruleName = Some (unitOf facts valeur)
         /\ is_Some (unitOf facts valeur).
Proof.
  intros Hnd Hearlier.
  destruct (inferRules_in_order parsedRules topologicalOrder Hnd Hearlier
              topologicalOrder [] ∅ eq_refl) as (facts & Hrun & Hdom & Hfacts).
  - split; [by rewrite dom_empty_L | by intros ? ? ? ?%elem_of_nil].
  - by exists facts.
Qed.


(** X11: when every ordered name is a compiled rule in which inference
    reads no [variations] node, inference returns: nothing but a
    [variations] or a missing rule makes it throw. *)
Theorem inferRulesUnit_returns_without_variations
    (parsedRules : ParsedRules) (topologicalOrder : list string) :
  (forall ruleName, ruleName ∈ topologicalOrder ->
     exists node,
       ruleOf parsedRules ruleName = Some node
       /\ forall lines, Variations lines ∉ visited node) ->
  returns (inferRulesUnit parsedRules topologicalOrder).
Proof.
  unfold inferRulesUnit. generalize (∅ : Facts).
  induction topologicalOrder as [|ruleName rest IH]; intros res Hall; [by eexists|].
  cbn [inferRules]. destruct (Hall ruleName) as (node & -> & Hfree); [by left|].
  destruct (inferNodeUnit_returns node Hfree res) as [u Hu].
  destruct (inferNodeUnit node res) as [res' outcome]. cbn [snd] in Hu. subst outcome.
  apply IH. intros name Hname. apply Hall. by right.
Qed.



End NullabilityFacts.

Lemma gateAndSum_ordered : ReferencesEarlier gateAndSum ["gate"; "sum"; "user"].
Proof.
  intros j ruleName Hj.
  destruct j as [|[|[|j]]]; cbn in Hj; try done; injection Hj as Hname; subst ruleName;
    eexists _, _; (split_and!; [reflexivity | reflexivity |]);
    intros node Hnode; cbn in Hnode;
    repeat (apply elem_of_cons in Hnode as [->|Hnode]; [try done|]);
    try by apply elem_of_nil in Hnode.
  exists 0, "gate". by split_and!; [lia|..].
Qed.

Lemma inferRulesUnit_facts_in_dependency_order_witness :
  exists facts,
    inferRulesUnit gateAndSum ["gate"; "sum"; "user"] = Return facts
    /\ dom facts = list_to_set ["gate"; "sum"; "user"]
    /\ forall ruleName h valeur,
         ruleName ∈ ["gate"; "sum"; "user"] ->
         ruleOf gateAndSum ruleName = Some (Rule h valeur) ->
         facts !! ruleName = Some (unitOf facts valeur)
         /\ is_Some (unitOf facts valeur).
Proof.
  apply (inferRulesUnit_facts_in_dependency_order gateAndSum ["gate"; "sum"; "user"]).
  - apply (bool_decide_unpack _). by vm_compute.
  - exact gateAndSum_ordered.
Defined.


Lemma inferRulesUnit_returns_without_variations_witness :
  returns (inferRulesUnit gateAndSum ["gate"; "sum"; "user"]).
Proof.
  apply (inferRulesUnit_returns_without_variations gateAndSum ["gate"; "sum"; "user"]).
  intros ruleName Hin.
  repeat (apply elem_of_cons in Hin as [->|Hin];
          [eexists; split; [reflexivity|];
           intros lines Hlines; cbn in Hlines;
           repeat (apply elem_of_cons in Hlines as [Hlines|Hlines]; [done|]);
           by apply elem_of_nil in Hlines|]).
  by apply elem_of_nil in Hin.
Defined.


(** ** Further properties of the reference resolver *)

(** The rule names in which the references of [nodes] stand. *)
Definition contextsOf (nodes : list ASTNode) : list string :=
  omap (fun node =>
          match node with
          | Reference reference => Some (contextDottedName reference)
          | _ => None
          end) nodes.


Section ResolverEdges.

Variable disambiguateRuleReference : ParsedRules -> string -> string -> Completion string.

Lemma addDependency_lookup dependencies context target c :
  c <> context -> addDependency dependencies context target !! c = dependencies !! c.
Proof. intros Hne. unfold addDependency. by rewrite lookup_insert_ne. Qed.

(** One call of the callback, whatever comes of it. *)
Lemma disambiguateReference_appends parsedRules node dependencies :
  let dependencies' :=
    (disambiguateReference disambiguateRuleReference parsedRules node dependencies).1 in
  dom dependencies ⊆ dom dependencies'
  /\ (forall c, dependenciesOf dependencies c `prefix_of` dependenciesOf dependencies' c)
  /\ (forall c, c ∉ contextsOf [node] -> dependencies' !! c = dependencies !! c).
Proof.
  cbn zeta. destruct node as [| | | | | | |reference]; cbn [disambiguateReference fst];
    try by split_and!.
  assert (Hadd : forall target,
    let dependencies' :=
      if isRealDependency reference
      then addDependency dependencies (contextDottedName reference) target
      else dependencies in
    dom dependencies ⊆ dom dependencies'
    /\ (forall c, dependenciesOf dependencies c `prefix_of` dependenciesOf dependencies' c)
    /\ (forall c, c ∉ contextsOf [Reference reference] ->
                  dependencies' !! c = dependencies !! c)).
  { intros target. cbn zeta. destruct (isRealDependency reference); [|by split_and!].
    split_and!.
    - unfold addDependency. rewrite dom_insert_L. set_solver.
    - intros c. rewrite dependenciesOf_addDependency.
      destruct (String.eqb _ c); [by apply prefix_app_r | done].
    - intros c Hc. apply addDependency_lookup. intros ->. apply Hc. cbn. by left. }
  destruct (disambiguateRuleReference parsedRules (contextDottedName reference)
              (name reference)) as [target|e]; [|by split_and!].
  specialize (Hadd target). cbn zeta in Hadd.
  by destruct (ruleOf parsedRules target) as [[]|].
Qed.

Lemma disambiguateAll_cons parsedRules node rest dependencies :
  (disambiguateAll disambiguateRuleReference parsedRules (node :: rest) dependencies).1
  = match disambiguateReference disambiguateRuleReference parsedRules node dependencies with
    | (dependencies', Return _) =>
        (disambiguateAll disambiguateRuleReference parsedRules rest dependencies').1
    | (dependencies', Throw _) => dependencies'
    end.
Proof.
  cbn [disambiguateAll].
  destruct (disambiguateReference _ _ _ _) as [dependencies' [node'|e]]; [|done].
  by destruct (disambiguateAll _ _ _ _) as [dependencies'' [nodes'|e]].
Qed.

(** X13: whether a run of resolutions returns or throws, it only adds to the
    dependency graph: no rule loses its entry, the dependencies a rule had
    are still the first of those it has, and the entry of a rule in which
    none of the references stands is as it was. *)
Theorem disambiguateAll_only_appends
    (parsedRules : ParsedRules) (nodes : list ASTNode) (dependencies : DependencyGraph) :
  let dependencies' :=
    (disambiguateAll disambiguateRuleReference parsedRules nodes dependencies).1 in
  dom dependencies ⊆ dom dependencies'
  /\ (forall c, dependenciesOf dependencies c `prefix_of` dependenciesOf dependencies' c)
  /\ (forall c, c ∉ contextsOf nodes -> dependencies' !! c = dependencies !! c).
Proof.
  cbn zeta. revert dependencies.
  induction nodes as [|node rest IH]; intros dependencies; [by split_and!|].
  rewrite disambiguateAll_cons.
  pose proof (disambiguateReference_appends parsedRules node dependencies) as Hnode.
  cbn zeta in Hnode.
  destruct (disambiguateReference _ _ _ _) as [dependencies1 outcome].
  cbn [fst] in Hnode. destruct Hnode as (Hdom1 & Hprefix1 & Hframe1).
  assert (Hother : forall c, c ∉ contextsOf (node :: rest) ->
            (c ∉ contextsOf [node]) /\ (c ∉ contextsOf rest)).
  { intros c Hc. unfold contextsOf in *.
    change (node :: rest) with ([node] ++ rest) in Hc. rewrite omap_app in Hc.
    by apply not_elem_of_app in Hc. }
  destruct outcome as [node'|e].
  - destruct (IH dependencies1) as (Hdom & Hprefix & Hframe). split_and!.
    + by transitivity (dom dependencies1).
    + intros c. by transitivity (dependenciesOf dependencies1 c).
    + intros c [Hc1 Hc2]%Hother. rewrite Hframe by done. by apply Hframe1.
  - split_and!; [done | done |]. intros c [Hc1 _]%Hother. by apply Hframe1.
Qed.



End ResolverEdges.



(** ** Further properties of the orchestrator *)

Module SampleDocuments.

(** A decoder for which every document is empty, and one for which every
    document is a number. *)
Definition emptyDocument (text : string) : Completion Raw := Return RNull.
Definition numberDocument (text : string) : Completion Raw := Return (RNumber 42).

(** The orchestrator over the stand-ins, with a decoder of these. *)
Definition compile (yamlParse : string -> Completion Raw) (rawRules : Raw)
    (partialContext : PartialContext unit) (store : RuleMapStore)
  : RuleMapStore * Completion ParsedRules :=
  parsePublicodes unit unit tt Sample.numberToString yamlParse Sample.parse
    resolveByName Sample.makeASTTransformer Sample.traverseParsedRules
    Sample.getReplacements Sample.inlineReplacements rawRules partialContext store.

End SampleDocuments.

(** [{ brut: "2000", net: { nom: 5 }, autre: "1" }]: the body of [net] gives
    itself a name that is no string. *)
Definition numberedName : Raw :=
  RObject [("brut", RString "2000"); ("net", RObject [("nom", RNumber 5)]);
           ("autre", RString "1")].

Section OrchestratorEdges.

Variables Logger Replacements : Type.
Variable console : Logger.
Variable numberToString : float -> string.
Variable yamlParse : string -> Completion Raw.
Variable parse : Obj -> Context Logger -> Context Logger * Completion ASTNode.
Variable disambiguateRuleReference : ParsedRules -> string -> string -> Completion string.
Variable makeASTTransformer :
  forall S : Type,
    (ASTNode -> S -> S * Completion (option ASTNode)) ->
    ASTNode -> S -> S * Completion ASTNode.
Variable traverseParsedRules :
  forall S : Type,
    (ASTNode -> S -> S * Completion ASTNode) ->
    ParsedRules -> S -> S * Completion ParsedRules.
Variable getReplacements : ParsedRules -> Completion Replacements.
Variable inlineReplacements :
  Replacements -> Logger -> ASTNode -> unit -> unit * Completion ASTNode.

Let compile :=
  parsePublicodes Logger Replacements console numberToString yamlParse parse
    disambiguateRuleReference makeASTTransformer traverseParsedRules
    getReplacements inlineReplacements.
Let parseAll := parseRules Logger numberToString parse.

Lemma normalizeShorthand_idempotent rule :
  normalizeShorthand numberToString (normalizeShorthand numberToString rule)
  = normalizeShorthand numberToString rule.
Proof. by destruct rule. Qed.

(** X16: a string or a number written as the body of a rule is read as the
    body [{ formule: text }]: writing the bodies of a rule set in that form
    changes nothing to what the constructor is handed, nor to the outcome. *)
Theorem parseRules_reads_shorthand_bodies (entries : Obj) (context : Context Logger) :
  parseAll (prod_map id (normalizeShorthand numberToString) <$> entries) context
  = parseAll entries context.
Proof.
  unfold parseAll. revert context.
  induction entries as [|[dottedName rule] rest IH]; intros context; [done|].
  rewrite fmap_cons. cbn [prod_map fst snd id parseRules].
  rewrite normalizeShorthand_idempotent.
  destruct (negb _); [done|].
  destruct (parse _ context) as [context' [node|e]]; [apply IH | done].
Qed.

(** X17: when the decoder returns [null] or [undefined] for a document, an
    empty one say, the compile throws a [TypeError] before any rule is
    handed to the constructor; [null] or [undefined] given in place of the
    decoded rules is compiled as the empty rule set. *)
Theorem parsePublicodes_empty_document
    (text : string) (rules : Raw) (partialContext : PartialContext Logger)
    (store : RuleMapStore) :
  yamlParse (replaceTabs text) = Return rules ->
  ownEntries rules = None ->
  compile (RString text) partialContext store
  = (<[contextAddress Logger partialContext store :=
         contextRules Logger partialContext store]> store,
     Throw TypeError)
  /\ compile RNull partialContext store = compile (RObject []) partialContext store
  /\ compile RUndefined partialContext store
     = compile (RObject []) partialContext store.
Proof.
  intros Hdecoded Hnullish. split; [|done].
  unfold compile, parsePublicodes. cbn [ingest]. rewrite Hdecoded. cbn zeta.
  assert (transpileRef rules = rules) as -> by by destruct rules.
  unfold entriesOf. by rewrite Hnullish.
Qed.

(** X18: a document that the decoder returns as a value without entries, a
    number, a boolean, an empty text, list or mapping, is compiled as the
    empty rule set: no error tells that it is no rule set. *)
Theorem parsePublicodes_scalar_document
    (text : string) (rules : Raw) (partialContext : PartialContext Logger)
    (store : RuleMapStore) :
  yamlParse (replaceTabs text) = Return rules ->
  ownEntries rules = Some [] ->
  compile (RString text) partialContext store
  = compile (RObject []) partialContext store.
Proof.
  intros Hdecoded Hscalar. unfold compile, parsePublicodes. cbn [ingest].
  rewrite Hdecoded. cbn zeta.
  assert (entriesOf (transpileRef rules) = Return []) as ->; [|done].
  destruct rules as [| | | |s|items|entries]; try done.
  - by destruct s.
  - by destruct items.
  - cbn in Hscalar. by injection Hscalar as ->.
Qed.

(** X19: the document handed to the decoder has no tab: each tab of the
    text is replaced by two spaces, and nothing else is changed. *)
Theorem ingest_replaces_tabs (text more : string) :
  ingest yamlParse (RString text) = yamlParse (replaceTabs text)
  /\ JSString.forallb (fun c => negb (Nat.eqb (JSString.codeUnit c) 9)) (replaceTabs text)
     = true
  /\ (JSString.forallb (fun c => negb (Nat.eqb (JSString.codeUnit c) 9)) text = true ->
      replaceTabs text = text)
  /\ replaceTabs (String "009" more) = String " " (String " " (replaceTabs more))
  /\ replaceTabs (text +:+ more) = replaceTabs text +:+ replaceTabs more.
Proof.
  split_and!; [done|..].
  - induction text as [|c text IH]; [done|]. cbn [replaceTabs].
    destruct (Nat.eqb (JSString.codeUnit c) 9) eqn:Hc; cbn [JSString.forallb];
      by rewrite ?Hc, IH.
  - induction text as [|c text IH]; [done|]. cbn [replaceTabs JSString.forallb].
    intros [Hc Htext]%andb_prop. apply negb_true_iff in Hc. rewrite Hc.
    by rewrite IH.
  - done.
  - induction text as [|c text IH]; [done|]. rewrite (append_cons c text).
    cbn [replaceTabs]. rewrite IH.
    by destruct (Nat.eqb (JSString.codeUnit c) 9).
Qed.

(** X20: the constructor is handed the body of the rule with the rule name
    under [nom], unless the body has a [nom] of its own, which is kept. *)
Theorem parseRules_names_the_rule
    (dottedName : string) (body rest : Obj) (context : Context Logger) :
  NoDup body.*1 ->
  exists rule,
    parseAll ((dottedName, RObject body) :: rest) context
    = match parse rule context with
      | (context', Return _) => parseAll rest context'
      | (context', Throw e) => (context', Throw e)
      end
    /\ forall key,
         JSObject.get rule key
         = match JSObject.get body key with
           | Some x => Some x
           | None => if String.eqb key "nom" then Some (RString dottedName) else None
           end.
Proof.
  intros Hnd. eexists. split; [reflexivity|]. intros key.
  cbn [normalizeShorthand spread ownEntries default].
  rewrite get_assign by done. unfold id.
  destruct (JSObject.get body key); [done|]. cbn [JSObject.get].
  by rewrite String.eqb_sym.
Qed.

(** X21: what the constructor throws on a rule is what the compile throws:
    the entries after that rule are not read, the later steps are not run,
    and the rule map holds what the constructor had registered when it
    threw. *)
Theorem parsePublicodes_propagates_constructor_error
    (rawRules rules : Raw) (partialContext : PartialContext Logger)
    (store : RuleMapStore) (before after : Obj) (dottedName : string) (rule : Raw)
    (context1 context2 : Context Logger) (e : JSError) :
  ingest yamlParse rawRules = Return rules ->
  entriesOf (transpileRef rules) = Return (before ++ (dottedName, rule) :: after) ->
  parseAll before (initialContext Logger console partialContext store)
  = (context1, Return tt) ->
  isMalformedBody numberToString rule = false ->
  parse (JSObject.assign [("nom", RString dottedName)]
           (spread (normalizeShorthand numberToString rule))) context1
  = (context2, Throw e) ->
  compile rawRules partialContext store
  = (<[contextAddress Logger partialContext store := ctxParsedRules context2]> store,
     Throw e).
Proof.
  intros Hingest Hentries Hbefore Hbody Hthrow. unfold compile, parsePublicodes.
  rewrite Hingest. cbn zeta. rewrite Hentries.
  fold parseAll. unfold parseAll at 1. rewrite parseRules_app. fold parseAll.
  rewrite Hbefore. unfold parseAll. cbn [parseRules].
  unfold isMalformedBody in Hbody. rewrite Hbody, Hthrow. done.
Qed.

End OrchestratorEdges.

Lemma parsePublicodes_empty_document_witness :
  SampleDocuments.compile SampleDocuments.emptyDocument (RString "") defaultContext ∅
  = (<[0 := []]> ∅, Throw TypeError).
Proof.
  refine (eq_trans
            (proj1 (parsePublicodes_empty_document unit unit tt Sample.numberToString
                      SampleDocuments.emptyDocument Sample.parse resolveByName
                      Sample.makeASTTransformer Sample.traverseParsedRules
                      Sample.getReplacements Sample.inlineReplacements
                      "" RNull defaultContext ∅ eq_refl eq_refl)) _).
  by vm_compute.
Defined.

Lemma parsePublicodes_scalar_document_witness :
  SampleDocuments.compile SampleDocuments.numberDocument (RString "42") defaultContext ∅
  = (<[0 := []]> ∅, Return []).
Proof.
  refine (eq_trans
            (parsePublicodes_scalar_document unit unit tt Sample.numberToString
               SampleDocuments.numberDocument Sample.parse resolveByName
               Sample.makeASTTransformer Sample.traverseParsedRules
               Sample.getReplacements Sample.inlineReplacements
               "42" (RNumber 42) defaultContext ∅ eq_refl eq_refl) _).
  by vm_compute.
Defined.

Lemma parseRules_names_the_rule_witness :
  exists rule,
    parseRules unit Sample.numberToString Sample.parse
      [("brut", RObject [("formule", RNumber 1); ("nom", RString "salaire")])]
      {| ctxDottedName := ""; ctxParsedRules := []; ctxLogger := tt;
         ctxGetUnitKey := fun x => x |}
    = match Sample.parse rule
              {| ctxDottedName := ""; ctxParsedRules := []; ctxLogger := tt;
                 ctxGetUnitKey := fun x => x |} with
      | (context', Return _) =>
          parseRules unit Sample.numberToString Sample.parse [] context'
      | (context', Throw e) => (context', Throw e)
      end
    /\ JSObject.get rule "nom" = Some (RString "salaire").
Proof.
  destruct (parseRules_names_the_rule unit Sample.numberToString Sample.parse
              "brut" [("formule", RNumber 1); ("nom", RString "salaire")] []
              {| ctxDottedName := ""; ctxParsedRules := []; ctxLogger := tt;
                 ctxGetUnitKey := fun x => x |})
    as (rule & Hrun & Hget).
  - apply (bool_decide_unpack _). by vm_compute.
  - exists rule. split; [exact Hrun|]. by rewrite Hget.
Defined.

Lemma parsePublicodes_propagates_constructor_error_witness :
  Sample.compile numberedName defaultContext ∅
  = (<[0 := [("brut", Rule (header "brut") (Constant (RString "2000")))]]> ∅,
     Throw (CollaboratorError "nom")).
Proof.
  refine (eq_trans
            (parsePublicodes_propagates_constructor_error unit unit tt
               Sample.numberToString Sample.yamlParse Sample.parse resolveByName
               Sample.makeASTTransformer Sample.traverseParsedRules
               Sample.getReplacements Sample.inlineReplacements
               numberedName numberedName defaultContext ∅
               [("brut", RString "2000")] [("autre", RString "1")]
               "net" (RObject [("nom", RNumber 5)]) _ _ (CollaboratorError "nom")
               eq_refl eq_refl eq_refl eq_refl eq_refl) _).
  by vm_compute.
Defined.

(** ** Further properties of the mechanism expander *)

(** What [decompose] can expand: a value that can be destructured, whose
    [composantes] is a list of values that can be destructured. *)
Definition expandable (v : Raw) (components : list Raw) : Prop :=
  exists entries,
    ownEntries v = Some entries
    /\ property entries "composantes" = RArray components
    /\ Forall (fun c => is_Some (ownEntries c)) components.

(** A components value with an attribute named [valeur]. *)
Definition attributesSample : Raw :=
  RObject
    [("attributs", RObject [("applicable si", RString "cadre"); ("valeur", RNumber 0)]);
     ("taux", RNumber 3)].

Section ComposantesEdges.

Context {Context : Type}.
Variable parse : Raw -> Context -> Context * Completion Obj.

Lemma mapM_summand_Return k factoredKeys components :
  Forall (fun c => is_Some (ownEntries c)) components ->
  exists summands,
    mapM (summand k factoredKeys) components = Return summands
    /\ length summands = length components.
Proof.
  induction 1 as [|c components [e He] _ (summands & Hmap & Hlen)].
  - by exists [].
  - eexists (_ :: summands). cbn [mapM]. rewrite Hmap. unfold summand. rewrite He.
    cbn. split; [reflexivity | by rewrite Hlen].
Qed.

Lemma mapM_summand_Throw k factoredKeys components : forall e,
  mapM (summand k factoredKeys) components = Throw e ->
  e = TypeError /\ ~ Forall (fun c => is_Some (ownEntries c)) components.
Proof.
  induction components as [|c components IH]; intros e; [done|].
  cbn [mapM].
  destruct (mapM (summand k factoredKeys) components) as [summands|e'] eqn:Hmap.
  - unfold summand. destruct (ownEntries c) as [entries|] eqn:Hc; cbn; [done|].
    intros [= <-]. split; [done|]. intros [[? Hsome] _]%Forall_cons.
    by rewrite Hc in Hsome.
  - destruct (IH e' eq_refl) as [-> Hnot].
    unfold summand. destruct (ownEntries c) as [entries|] eqn:Hc; cbn.
    + intros [= <-]. split; [done|]. intros [_ Hall]%Forall_cons. by apply Hnot.
    + intros [= <-]. split; [done|]. intros [_ Hall]%Forall_cons. by apply Hnot.
Qed.

Lemma mapM_summand_Return_inv k factoredKeys components : forall summands,
  mapM (summand k factoredKeys) components = Return summands ->
  Forall (fun c => is_Some (ownEntries c)) components.
Proof.
  induction components as [|c components IH]; intros summands; [by constructor|].
  cbn [mapM].
  destruct (mapM (summand k factoredKeys) components) as [rest|e] eqn:Hmap;
    unfold summand; destruct (ownEntries c) as [entries|] eqn:Hc; cbn; try done.
  intros _. constructor; [by eexists | by eapply IH].
Qed.

(** X22: [decompose] hands the constructor a sum when the value can be
    destructured and its [composantes] is a list of values that can be (one
    summand for each); for any other value, one without [composantes] say,
    it throws a [TypeError] and the constructor is not called. *)
Theorem decompose_requires_components (k : string) (v : Raw) (context : Context) :
  (forall components,
      expandable v components ->
      exists summands,
        length summands = length components
        /\ decompose parse k v context
           = (let '(context', explanation) :=
                parse (RObject [("somme", RArray summands)]) context in
              (context', withSourcemapInfo <$> explanation)))
  /\ ((forall components, ~ expandable v components) ->
      decompose parse k v context = (context, Throw TypeError)).
Proof.
  unfold decompose, expandable. split.
  - intros components (entries & -> & -> & Hall).
    destruct (mapM_summand_Return k (JSObject.omit "composantes" entries)
                components Hall) as (summands & -> & Hlen).
    by exists summands.
  - intros Hnot. destruct (ownEntries v) as [entries|]; [|done].
    destruct (property entries "composantes") as [| | | | |components|] eqn:Hprop;
      try done.
    destruct (mapM (summand k (JSObject.omit "composantes" entries)) components)
      as [summands|e] eqn:Hmap.
    + exfalso. apply (Hnot components). exists entries. split_and!; [done..|].
      by eapply mapM_summand_Return_inv.
    + by destruct (mapM_summand_Throw _ _ _ _ Hmap) as [-> _].
Qed.

(** X23: the attributes of a component, when it has some, become entries of
    its summand, next to [valeur]; an attribute named [valeur] is replaced by
    the value that [decompose] builds. *)
Theorem summand_carries_attributes
    (k : string) (factoredKeys component attributes : Obj) :
  JSObject.get component "attributs" = Some (RObject attributes) ->
  NoDup attributes.*1 ->
  exists entries,
    summand k factoredKeys (RObject component) = Return (RObject entries)
    /\ JSObject.get entries "valeur"
       = Some (RObject
                 [(k, RObject (JSObject.assign (JSObject.assign [] factoredKeys)
                                 (JSObject.omit "attributs" component)))])
    /\ forall key,
         key <> "valeur" -> JSObject.get entries key = JSObject.get attributes key.
Proof.
  intros Hattrs Hnd. eexists. split; [reflexivity|]. split.
  - by rewrite get_set.
  - intros key Hkey. rewrite get_set.
    destruct (String.eqb_spec "valeur" key) as [<-|_]; [done|].
    unfold property. rewrite Hattrs.
    change (spread (default RUndefined (Some (RObject attributes)))) with attributes.
    rewrite get_assign by done. by destruct (JSObject.get attributes key).
Qed.

End ComposantesEdges.

Lemma summand_carries_attributes_witness :
  exists entries,
    summand "montant" [("assiette", RNumber 1)] attributesSample
    = Return (RObject entries)
    /\ JSObject.get entries "valeur"
       = Some (RObject [("montant", RObject [("assiette", RNumber 1); ("taux", RNumber 3)])])
    /\ forall key,
         key <> "valeur" ->
         JSObject.get entries key
         = JSObject.get [("applicable si", RString "cadre"); ("valeur", RNumber 0)] key.
Proof.
  apply (summand_carries_attributes "montant" [("assiette", RNumber 1)]
           [("attributs", RObject [("applicable si", RString "cadre");
                                   ("valeur", RNumber 0)]);
            ("taux", RNumber 3)]
           [("applicable si", RString "cadre"); ("valeur", RNumber 0)]).
  - reflexivity.
  - apply (bool_decide_unpack _). by vm_compute.
Defined.

(** ** The passes together *)



Section Pipeline.

Variable disambiguateRuleReference : ParsedRules -> string -> string -> Completion string.


(** X24: a run of resolutions that returns leaves in the graph only edges
    to registered rules, when it started from such a graph (the empty one,
    in the compile). *)
Theorem disambiguateAll_targets_registered
    (parsedRules : ParsedRules) (nodes : list ASTNode)
    (dependencies dependencies' : DependencyGraph)
    (resolvedNodes : list (option ASTNode)) :
  disambiguateAll disambiguateRuleReference parsedRules nodes dependencies
  = (dependencies', Return resolvedNodes) ->
  (forall a b, dependsOn dependencies a b -> is_Some (ruleOf parsedRules b)) ->
  forall a b, dependsOn dependencies' a b -> is_Some (ruleOf parsedRules b).
Proof.
  revert dependencies dependencies' resolvedNodes.
  induction nodes as [|node rest IH]; intros dependencies dependencies' resolvedNodes Hrun Hold.
  - by injection Hrun as <- _.
  - cbn [disambiguateAll] in Hrun.
    destruct (disambiguateReference disambiguateRuleReference parsedRules node
                dependencies) as [dependencies1 [node'|e]] eqn:Hnode; [|done].
    destruct (disambiguateAll disambiguateRuleReference parsedRules rest
                dependencies1) as [dependencies2 [nodes'|e]] eqn:Hrest; [|done].
    injection Hrun as <- _. apply (IH _ _ _ Hrest).
    intros a b Hab. unfold dependsOn in Hab.
    rewrite (disambiguateReference_graph _ _ _ _ _ _ Hnode a) in Hab.
    apply elem_of_app in Hab as [Hab|Hab]; [by eapply Hold|].
    destruct node as [| | | | | | |reference]; try by apply elem_of_nil in Hab.
    rewrite edgesFrom_reference in Hab. cbn [disambiguateReference] in Hnode.
    destruct (disambiguateRuleReference parsedRules (contextDottedName reference)
                (name reference)) as [target|e]; [|done].
    destruct (ruleOf parsedRules target) as [[]|] eqn:Htarget; try done.
    destruct (isRealDependency reference && _); [|by apply elem_of_nil in Hab].
    apply list_elem_of_singleton in Hab as ->. by rewrite Htarget.
Qed.


End Pipeline.




Lemma disambiguateAll_targets_registered_witness :
  dependsOn (disambiguateAll resolveByName gateAndSum userReferences ∅).1 "user" "sum"
  /\ is_Some (ruleOf gateAndSum "sum").
Proof.
  assert (Hedge : dependsOn (disambiguateAll resolveByName gateAndSum userReferences ∅).1
                    "user" "sum").
  { unfold dependsOn.
    replace (dependenciesOf _ "user") with ["gate"; "sum"; "gate"] by by vm_compute.
    right. by left. }
  split; [exact Hedge|].
  apply (disambiguateAll_targets_registered resolveByName gateAndSum userReferences
           ∅ _ _ eq_refl) with "user"; [|exact Hedge].
  intros a b Hab. unfold dependsOn, dependenciesOf in Hab.
  rewrite lookup_empty in Hab. by apply elem_of_nil in Hab.
Defined.
